(** * MidiFlow pattern engine: pattern algebra and graph evaluator

    A shallow embedding of [src/engine/pattern.ts], the modifiers under
    [src/engine/modifiers/], the modifier registry and
    [src/engine/graphEvaluator.ts].

    Conventions of the embedding:
    - a fraction.js [Fraction] is a canonical rational [Qc]: fraction.js
      keeps every value in lowest terms, so structural equality of values
      is Leibniz equality on [Qc];
    - a JavaScript [number] is modelled at its integer values ([Z]):
      pitches, velocities, channels and indices; doubles that are not
      integers, [NaN] and the infinities have no counterpart, and a
      computation of the source that produces one is outside the
      embedding;
    - [Array.prototype.sort] is the stable sort of ECMAScript 2019,
      written as a stable insertion sort; the two agree for a comparator
      that is a consistent order, which is where the standard fixes the
      result;
    - a [Map] or [Set] keyed by strings is a [gmap] or [gset];
    - a function that may throw returns [Exec]; recursion that is not
      structural takes a recursion budget and returns [None] when the
      budget is exhausted (the call stack overflows or the loop does not
      end). *)

From Stdlib Require Import QArith Qcanon Qround Lqa ZArith Lia Ascii.
From stdpp Require Import sorting strings numbers gmap.
From stdpp Require Import base option list.

Local Open Scope Z_scope.

(** ** Fractions *)

Abbreviation Fraction := Qc.

(** [a.compare(b) > 0] *)
Definition compare_gt (a b : Fraction) : bool :=
  match (a ?= b)%Qc with Gt => true | _ => false end.

(** [a.compare(b) < 0] *)
Definition compare_lt (a b : Fraction) : bool :=
  match (a ?= b)%Qc with Lt => true | _ => false end.

(** [a.compare(b) >= 0] *)
Definition compare_ge (a b : Fraction) : bool := negb (compare_lt a b).

(** Modelled from the spec: fraction.js is not part of the sources; its
    [round] is taken as rounding to the nearest integer with ties towards
    plus infinity, the convention of [Math.round]. *)
Definition Fraction_round (a : Fraction) : Fraction :=
  Qc_of_Z (Qfloor (a + Q2Qc (1 # 2))%Qc).

(** Result of a call that may throw. *)
Inductive Exec (A : Type) : Type :=
| Returned (a : A)
| Thrown.
Arguments Returned {A} a.
Arguments Thrown {A}.

Definition Exec_bind {A B} (m : Exec A) (f : A → Exec B) : Exec B :=
  match m with Returned a => f a | Thrown => Thrown end.

Fixpoint Exec_map {A B} (f : A → Exec B) (l : list A) : Exec (list B) :=
  match l with
  | [] => Returned []
  | x :: l' =>
      Exec_bind (f x) (fun y => Exec_bind (Exec_map f l') (fun ys => Returned (y :: ys)))
  end.

(** [a.div(b)]: fraction.js throws on a zero divisor. *)
Definition Fraction_div (a b : Fraction) : Exec Fraction :=
  if decide (b = Q2Qc 0) then Thrown else Returned (a / b)%Qc.

(** A value of type [Fraction | number], and [x instanceof Fraction ? x : new Fraction(x)]. *)
Definition toFraction (x : Fraction + Z) : Fraction :=
  match x with inl f => f | inr n => Qc_of_Z n end.

(** ** Arrays *)

(** [arr.sort(cmp)], with [gt a b] standing for [cmp(a, b) > 0]: a
    stable insertion sort. For a comparator that is not a consistent
    order the standard leaves the order of the result to the
    implementation, and this definition is one such order. *)
Fixpoint sort_insert {A} (gt : A → A → bool) (x : A) (l : list A) : list A :=
  match l with
  | [] => [x]
  | y :: l' => if gt x y then y :: sort_insert gt x l' else x :: y :: l'
  end.

Definition Array_sort {A} (gt : A → A → bool) (l : list A) : list A :=
  foldr (sort_insert gt) [] l.

(** ** Notes and patterns ([src/types/midi.ts]) *)

Module Note.
Record t : Type := mk {
  duration : Fraction;
  note : Z;
  velocity : Z;
}.
End Note.

Module PatternBounds.
(** The source stores doubles in [minTime] and [maxTime]: the least
    [startTime.valueOf()] and the greatest
    [startTime.valueOf() + note.duration.valueOf()], each rounded to a
    double. The embedding has no doubles; the two fields hold the exact
    rationals that these doubles approximate, and no statement is made
    about their values. *)
Record t : Type := mk {
  minPitch : Z;
  maxPitch : Z;
  minTime : Fraction;
  maxTime : Fraction;
}.
End PatternBounds.

Module Pattern.
Record t : Type := mk {
  notes : list (Fraction * Note.t);
  duration : option Fraction;
  id : option string;
  name : option string;
  bounds : option PatternBounds.t;
}.
End Pattern.

(** ** Pattern functions ([src/engine/pattern.ts]) *)

Definition Fraction_min (a b : Fraction) : Fraction := if compare_lt b a then b else a.
Definition Fraction_max (a b : Fraction) : Fraction := if compare_gt b a then b else a.

(** The time bounds start at [Infinity] and [-Infinity] in the source;
    here they start at the start and the end of the first note, which
    the first iteration of the loop would set. *)
Definition calculatePatternBounds (notes : list (Fraction * Note.t)) : option PatternBounds.t :=
  match notes with
  | [] => None
  | (t0, n0) :: _ =>
      Some (foldl (fun b '(startTime, n) =>
                     let pitch := Note.note n in
                     let endTime := (startTime + Note.duration n)%Qc in
                     PatternBounds.mk (Z.min (PatternBounds.minPitch b) pitch)
                                      (Z.max (PatternBounds.maxPitch b) pitch)
                                      (Fraction_min (PatternBounds.minTime b) startTime)
                                      (Fraction_max (PatternBounds.maxTime b) endTime))
                  (PatternBounds.mk 127 0 t0 (t0 + Note.duration n0)%Qc) notes)
  end.

Definition createPatternWithBounds (notes : list (Fraction * Note.t))
    (duration : option Fraction) : Pattern.t :=
  Pattern.mk notes duration None None (calculatePatternBounds notes).

Definition createPattern (duration : option Fraction) (name : option string) : Pattern.t :=
  Pattern.mk [] duration None name (calculatePatternBounds []).

Definition calculateDuration (notes : list (Fraction * Note.t)) : Fraction :=
  match notes with
  | [] => Q2Qc 0
  | _ =>
      foldl (fun maxEndTime '(startTime, n) =>
               let endTime := (startTime + Note.duration n)%Qc in
               if compare_gt endTime maxEndTime then endTime else maxEndTime)
            (Q2Qc 0) notes
  end.

(** [pattern.duration ?? calculateDuration(pattern.notes)], the effective
    duration of a pattern. *)
Definition effectiveDuration (pattern : Pattern.t) : Fraction :=
  default (calculateDuration (Pattern.notes pattern)) (Pattern.duration pattern).

(** The comparator [(a, b) => a[0].compare(b[0])] of the note sorts. *)
Definition byStartTime (a b : Fraction * Note.t) : bool := compare_gt a.1 b.1.

(** [Math.max(0, Math.min(127, x))] *)
Definition clamp127 (x : Z) : Z := Z.max 0 (Z.min 127 x).

(** ** Modifiers ([src/engine/modifiers/]) *)

Module Modifiers.

Definition concat (patterns : list Pattern.t) : Pattern.t :=
  match patterns with
  | [] => createPattern None None
  | _ =>
      let '(allNotes, currentTime) :=
        foldl (fun '(allNotes, currentTime) pattern =>
                 let allNotes' :=
                   foldl (fun acc '(startTime, n) => acc ++ [((currentTime + startTime)%Qc, n)])
                         allNotes (Pattern.notes pattern) in
                 let patternDuration :=
                   default (calculateDuration (Pattern.notes pattern)) (Pattern.duration pattern) in
                 (allNotes', (currentTime + patternDuration)%Qc))
              ([], Q2Qc 0) patterns in
      createPatternWithBounds allNotes (Some currentTime)
  end.

Definition union (patterns : list Pattern.t) : Pattern.t :=
  match patterns with
  | [] => createPattern None None
  | _ =>
      let '(allNotes, maxDuration) :=
        foldl (fun '(allNotes, maxDuration) pattern =>
                 let allNotes' :=
                   foldl (fun acc '(startTime, n) => acc ++ [(startTime, n)])
                         allNotes (Pattern.notes pattern) in
                 let patternDuration :=
                   default (calculateDuration (Pattern.notes pattern)) (Pattern.duration pattern) in
                 (allNotes', if compare_gt patternDuration maxDuration
                             then patternDuration else maxDuration))
              ([], Q2Qc 0) patterns in
      createPatternWithBounds (Array_sort byStartTime allNotes) (Some maxDuration)
  end.

Definition reverse (pattern : Pattern.t) : Pattern.t :=
  let duration := default (calculateDuration (Pattern.notes pattern)) (Pattern.duration pattern) in
  let newNotes :=
    map (fun '(startTime, n) => ((duration - startTime - Note.duration n)%Qc, n))
        (Pattern.notes pattern) in
  createPatternWithBounds (Array_sort byStartTime newNotes) (Some duration).

Definition invert (pattern : Pattern.t) (pivot : Z) : Pattern.t :=
  let newNotes :=
    map (fun '(startTime, n) =>
           (startTime, Note.mk (Note.duration n) (clamp127 (2 * pivot - Note.note n)) (Note.velocity n)))
        (Pattern.notes pattern) in
  createPatternWithBounds newNotes
    (Some (default (calculateDuration newNotes) (Pattern.duration pattern))).

Definition transpose (pattern : Pattern.t) (semitones : Z) : Pattern.t :=
  let newNotes :=
    map (fun '(startTime, n) =>
           (startTime, Note.mk (Note.duration n) (clamp127 (Note.note n + semitones)) (Note.velocity n)))
        (Pattern.notes pattern) in
  createPatternWithBounds newNotes
    (Some (default (calculateDuration newNotes) (Pattern.duration pattern))).

Definition stretch (pattern : Pattern.t) (factor : Fraction + Z) : Pattern.t :=
  let f := toFraction factor in
  let newNotes :=
    map (fun '(startTime, n) =>
           ((startTime * f)%Qc, Note.mk (Note.duration n * f)%Qc (Note.note n) (Note.velocity n)))
        (Pattern.notes pattern) in
  let patternDuration :=
    default (calculateDuration (Pattern.notes pattern)) (Pattern.duration pattern) in
  createPatternWithBounds newNotes (Some (patternDuration * f)%Qc).

Definition scaleDuration (pattern : Pattern.t) (factor : Fraction + Z) : Pattern.t :=
  let f := toFraction factor in
  let newNotes :=
    map (fun '(startTime, n) =>
           (startTime, Note.mk (Note.duration n * f)%Qc (Note.note n) (Note.velocity n)))
        (Pattern.notes pattern) in
  createPatternWithBounds newNotes
    (Some (default (calculateDuration newNotes) (Pattern.duration pattern))).

Definition setDuration (pattern : Pattern.t) (duration : Fraction + Z) : Pattern.t :=
  let dur := toFraction duration in
  let newNotes :=
    map (fun '(startTime, n) => (startTime, Note.mk dur (Note.note n) (Note.velocity n)))
        (Pattern.notes pattern) in
  createPatternWithBounds newNotes
    (Some (default (calculateDuration newNotes) (Pattern.duration pattern))).

(** [factor] is a [number]. The embedding has it at its integer values,
    where [Math.round(note.velocity * factor)] is the product itself; the
    fractional factors of the slider (0.1 to 3.0 in steps of 0.1), for
    which the product is rounded twice (to a double, then by
    [Math.round]), are not covered. *)
Definition scaleVelocity (pattern : Pattern.t) (factor : Z) : Pattern.t :=
  let newNotes :=
    map (fun '(startTime, n) =>
           (startTime, Note.mk (Note.duration n) (Note.note n) (clamp127 (Note.velocity n * factor))))
        (Pattern.notes pattern) in
  createPatternWithBounds newNotes
    (Some (default (calculateDuration newNotes) (Pattern.duration pattern))).

Definition setVelocity (pattern : Pattern.t) (velocity : Z) : Pattern.t :=
  let vel := clamp127 velocity in
  let newNotes :=
    map (fun '(startTime, n) => (startTime, Note.mk (Note.duration n) (Note.note n) vel))
        (Pattern.notes pattern) in
  createPatternWithBounds newNotes
    (Some (default (calculateDuration newNotes) (Pattern.duration pattern))).

Definition quantize (pattern : Pattern.t) (gridSize : Fraction + Z) : Exec Pattern.t :=
  let grid := toFraction gridSize in
  Exec_bind
    (Exec_map (fun '(startTime, n) =>
                 Exec_bind (Fraction_div startTime grid) (fun q =>
                   let gridPos := Fraction_round q in
                   let quantizedTime := (grid * gridPos)%Qc in
                   Returned (quantizedTime, n)))
              (Pattern.notes pattern))
    (fun newNotes =>
       let sorted := Array_sort byStartTime newNotes in
       Returned (createPatternWithBounds sorted
                   (Some (default (calculateDuration sorted) (Pattern.duration pattern))))).

Definition trim (pattern : Pattern.t) (trimEnd : bool) : Pattern.t :=
  let duration := default (calculateDuration (Pattern.notes pattern)) (Pattern.duration pattern) in
  let newNotes :=
    foldl (fun newNotes '(startTime, n) =>
             if compare_lt startTime (Q2Qc 0) || compare_ge startTime duration then newNotes
             else if trimEnd then
               let endTime := (startTime + Note.duration n)%Qc in
               if compare_gt endTime duration then
                 let newDuration := (duration - startTime)%Qc in
                 if compare_gt newDuration (Q2Qc 0)
                 then newNotes ++ [(startTime, Note.mk newDuration (Note.note n) (Note.velocity n))]
                 else newNotes
               else newNotes ++ [(startTime, n)]
             else newNotes ++ [(startTime, n)])
          [] (Pattern.notes pattern) in
  createPatternWithBounds newNotes (Some duration).

(** [endTime] is [None] for a falsy argument ([null], [undefined] or the
    number 0). *)
Definition view (pattern : Pattern.t) (startTime : Fraction + Z)
    (endTime : option (Fraction + Z)) : Pattern.t :=
  let start := toFraction startTime in
  let patternDuration :=
    default (calculateDuration (Pattern.notes pattern)) (Pattern.duration pattern) in
  let end_ := match endTime with Some e => toFraction e | None => patternDuration end in
  let newNotes :=
    map (fun '(time, n) => ((time - start)%Qc, n)) (Pattern.notes pattern) in
  createPatternWithBounds newNotes (Some (end_ - start)%Qc).

End Modifiers.

(** ** Modifier inputs and parameters ([src/types/patternflow.ts]) *)

Inductive InputDefinition : Type :=
| KeywordInput (key : string) (label : string) (required : bool)
| PositionalInput (minCount : Z) (label : option string).

Module ModifierInputs.
Record t : Type := mk {
  keyword : option (gmap string Pattern.t);
  positional : option (list Pattern.t);
}.
End ModifierInputs.

(** A parameter value. The source types parameters as [any]; the values
    of the embedding are fractions, numbers at their integer values,
    booleans, strings and [null]. A key that is absent reads as
    [undefined]. *)
Inductive ParamValue : Type :=
| PFraction (f : Fraction)
| PNumber (n : Z)
| PBoolean (b : bool)
| PString (s : string)
| PNull.

Abbreviation ModifierParams := (gmap string ParamValue).

Inductive ParameterType : Type :=
| TypeNumber | TypeFraction | TypeSlider | TypeCode | TypeMidiNote | TypeMidi128 | TypeBoolean.

(** The fields of a parameter definition that the engine reads; [range],
    [step], [unit] and [description] only drive the parameter form. *)
Module ParameterDefinition.
Record t : Type := mk {
  type : ParameterType;
  defaultValue : ParamValue;
  label : string;
}.
End ParameterDefinition.

(** JavaScript truthiness of a parameter read ([None] is [undefined]). *)
Definition truthy (v : option ParamValue) : bool :=
  match v with
  | Some (PFraction _) => true
  | Some (PNumber n) => negb (n =? 0)
  | Some (PBoolean b) => b
  | Some (PString s) => negb (String.eqb s "")
  | Some PNull | None => false
  end.

(** Reading a parameter where the callee computes with a [number]
    ([note.note + semitones], [2 * pivot - note.note],
    [note.velocity * factor], [Math.min(127, velocity)]): a number is used
    as it is, [null] converts to 0 and a boolean to 0 or 1. The other
    reads leave the integers, the only numbers of the embedding: an
    absent key reads as [undefined] and the arithmetic gives [NaN], a
    fraction is converted by [valueOf()] to a double, a string is
    concatenated or parsed; there the source returns a pattern whose
    notes the embedding cannot hold. Such a read is marked [Thrown] here
    and is excluded by [modelledParams] wherever a theorem depends on
    it. *)
Definition numberParam (params : ModifierParams) (key : string) : Exec Z :=
  match params !! key with
  | Some (PNumber n) => Returned n
  | Some PNull => Returned 0
  | Some (PBoolean b) => Returned (if b then 1 else 0)
  | Some (PFraction _) | Some (PString _) | None => Thrown
  end.

(** Reading a parameter where the callee evaluates
    [x instanceof Fraction ? x : new Fraction(x)]: a fraction and a number
    are used as they are, [new Fraction(undefined)] and
    [new Fraction(null)] are 0, and [new Fraction(true)] throws
    ([InvalidParameter]). fraction.js parses a string and throws when it
    is not a number; the parser is not part of the embedding, which marks
    every string [Thrown]; [modelledParams] excludes the strings. *)
Definition fractionParam (params : ModifierParams) (key : string) : Exec (Fraction + Z) :=
  match params !! key with
  | Some (PFraction f) => Returned (inl f)
  | Some (PNumber n) => Returned (inr n)
  | Some PNull | None => Returned (inr 0)
  | Some (PBoolean _) | Some (PString _) => Thrown
  end.


(** ** The modifier registry ([src/engine/modifierRegistry.ts]) *)

Module ModifierDefinition.
Record t : Type := mk {
  name : string;
  displayName : string;
  inputs : list InputDefinition;
  execute : ModifierInputs.t → ModifierParams → Exec (option Pattern.t);
  parameters : list (string * ParameterDefinition.t);
}.
End ModifierDefinition.

(** [keyword!.pattern]: reading the field of an absent [keyword] object
    throws, and so does the modifier on an absent pattern. *)
Definition keywordPattern (inputs : ModifierInputs.t) : Exec Pattern.t :=
  match ModifierInputs.keyword inputs with
  | Some keyword =>
      match keyword !! "pattern"%string with
      | Some pattern => Returned pattern
      | None => Thrown
      end
  | None => Thrown
  end.

(** [...positional!]: spreading an absent [positional] throws. *)
Definition positionalPatterns (inputs : ModifierInputs.t) : Exec (list Pattern.t) :=
  match ModifierInputs.positional inputs with
  | Some patterns => Returned patterns
  | None => Thrown
  end.

Definition patternInput : InputDefinition := KeywordInput "pattern" "Input" true.

Definition unionModifier : ModifierDefinition.t :=
  ModifierDefinition.mk "union" "Union" [PositionalInput 2 (Some "Patterns"%string)]
    (fun inputs _ =>
       Exec_bind (positionalPatterns inputs) (fun ps => Returned (Some (Modifiers.union ps))))
    [].

Definition concatModifier : ModifierDefinition.t :=
  ModifierDefinition.mk "concat" "Concat" [PositionalInput 2 (Some "Patterns"%string)]
    (fun inputs _ =>
       Exec_bind (positionalPatterns inputs) (fun ps => Returned (Some (Modifiers.concat ps))))
    [].

Definition transposeModifier : ModifierDefinition.t :=
  ModifierDefinition.mk "transpose" "Transpose" [patternInput]
    (fun inputs params =>
       Exec_bind (keywordPattern inputs) (fun p =>
       Exec_bind (numberParam params "semitones") (fun semitones =>
       Returned (Some (Modifiers.transpose p semitones)))))
    [("semitones"%string, ParameterDefinition.mk TypeSlider (PNumber 0) "Semitones")].

Definition reverseModifier : ModifierDefinition.t :=
  ModifierDefinition.mk "reverse" "Reverse" [patternInput]
    (fun inputs _ =>
       Exec_bind (keywordPattern inputs) (fun p => Returned (Some (Modifiers.reverse p))))
    [].

Definition stretchModifier : ModifierDefinition.t :=
  ModifierDefinition.mk "stretch" "Stretch" [patternInput]
    (fun inputs params =>
       Exec_bind (keywordPattern inputs) (fun p =>
       Exec_bind (fractionParam params "factor") (fun factor =>
       Returned (Some (Modifiers.stretch p factor)))))
    [("factor"%string, ParameterDefinition.mk TypeFraction (PFraction (Q2Qc 2)) "Factor")].

(** [trim(pattern, trimEnd = true)]: the default applies to [undefined]
    only; any other value is used by its truthiness. *)
Definition trimModifier : ModifierDefinition.t :=
  ModifierDefinition.mk "trim" "Trim" [patternInput]
    (fun inputs params =>
       Exec_bind (keywordPattern inputs) (fun p =>
       let trimEnd := match params !! "trimEnd"%string with
                      | None => true
                      | v => truthy v
                      end in
       Returned (Some (Modifiers.trim p trimEnd))))
    [("trimEnd"%string, ParameterDefinition.mk TypeBoolean (PBoolean false) "Trim End")].

Definition quantizeModifier : ModifierDefinition.t :=
  ModifierDefinition.mk "quantize" "Quantize" [patternInput]
    (fun inputs params =>
       Exec_bind (keywordPattern inputs) (fun p =>
       Exec_bind (fractionParam params "grid") (fun grid =>
       Exec_bind (Modifiers.quantize p grid) (fun q => Returned (Some q)))))
    [("grid"%string, ParameterDefinition.mk TypeFraction (PFraction (Q2Qc (1 # 4))) "Grid Size")].

Definition invertModifier : ModifierDefinition.t :=
  ModifierDefinition.mk "invert" "Invert" [patternInput]
    (fun inputs params =>
       Exec_bind (keywordPattern inputs) (fun p =>
       Exec_bind (numberParam params "pivot") (fun pivot =>
       Returned (Some (Modifiers.invert p pivot)))))
    [("pivot"%string, ParameterDefinition.mk TypeMidiNote (PNumber 60) "Pivot Note")].

Definition scaleVelocityModifier : ModifierDefinition.t :=
  ModifierDefinition.mk "scaleVelocity" "Scale Velocity" [patternInput]
    (fun inputs params =>
       Exec_bind (keywordPattern inputs) (fun p =>
       Exec_bind (numberParam params "factor") (fun factor =>
       Returned (Some (Modifiers.scaleVelocity p factor)))))
    [("factor"%string, ParameterDefinition.mk TypeSlider (PNumber 1) "Factor")].

Definition setVelocityModifier : ModifierDefinition.t :=
  ModifierDefinition.mk "setVelocity" "Set Velocity" [patternInput]
    (fun inputs params =>
       Exec_bind (keywordPattern inputs) (fun p =>
       Exec_bind (numberParam params "velocity") (fun velocity =>
       Returned (Some (Modifiers.setVelocity p velocity)))))
    [("velocity"%string, ParameterDefinition.mk TypeMidi128 (PNumber 80) "Velocity")].

Definition scaleDurationModifier : ModifierDefinition.t :=
  ModifierDefinition.mk "scaleDuration" "Scale Duration" [patternInput]
    (fun inputs params =>
       Exec_bind (keywordPattern inputs) (fun p =>
       Exec_bind (fractionParam params "factor") (fun factor =>
       Returned (Some (Modifiers.scaleDuration p factor)))))
    [("factor"%string, ParameterDefinition.mk TypeFraction (PFraction (Q2Qc 2)) "Factor")].

Definition setDurationModifier : ModifierDefinition.t :=
  ModifierDefinition.mk "setDuration" "Set Duration" [patternInput]
    (fun inputs params =>
       Exec_bind (keywordPattern inputs) (fun p =>
       Exec_bind (fractionParam params "duration") (fun duration =>
       Returned (Some (Modifiers.setDuration p duration)))))
    [("duration"%string, ParameterDefinition.mk TypeFraction (PFraction (Q2Qc (1 # 4))) "Duration")].

(** [endTime ? ... : patternDuration]: a falsy [endTime] selects the
    pattern duration. *)
Definition viewModifier : ModifierDefinition.t :=
  ModifierDefinition.mk "view" "View" [patternInput]
    (fun inputs params =>
       Exec_bind (keywordPattern inputs) (fun p =>
       Exec_bind (fractionParam params "startTime") (fun startTime =>
       if truthy (params !! "endTime"%string)
       then Exec_bind (fractionParam params "endTime") (fun endTime =>
              Returned (Some (Modifiers.view p startTime (Some endTime))))
       else Returned (Some (Modifiers.view p startTime None)))))
    [("startTime"%string, ParameterDefinition.mk TypeFraction (PFraction (Q2Qc 0)) "Start Time");
     ("endTime"%string, ParameterDefinition.mk TypeFraction PNull "End Time")].

Definition registerModifier (def : ModifierDefinition.t)
    (registry : gmap string ModifierDefinition.t) : gmap string ModifierDefinition.t :=
  <[ModifierDefinition.name def := def]> registry.

(** The registry after the imports of [src/engine/modifiers/index.ts], in
    their order. *)
Definition registeredModifiers : list ModifierDefinition.t :=
  [unionModifier; concatModifier; transposeModifier; reverseModifier; stretchModifier;
   trimModifier; quantizeModifier; invertModifier; scaleVelocityModifier;
   setVelocityModifier; scaleDurationModifier; setDurationModifier; viewModifier].

Definition modifierRegistry : gmap string ModifierDefinition.t :=
  foldl (fun registry def => registerModifier def registry) ∅ registeredModifiers.

Definition getModifier (name : string) : option ModifierDefinition.t :=
  modifierRegistry !! name.
Global Arguments getModifier : simpl never.

Definition getDefaultParams (definition : ModifierDefinition.t) : ModifierParams :=
  foldl (fun params '(key, paramDef) => <[key := ParameterDefinition.defaultValue paramDef]> params)
        {[ "modifier"%string := PString (ModifierDefinition.name definition) ]}
        (ModifierDefinition.parameters definition).

(** ** Graphs ([src/types/patternflow.ts]) *)

Inductive PatternFlowNodeData : Type :=
| PatternNodeData (pattern : Pattern.t) (name : string)
| ModifierNodeData (modifierType : string) (params : ModifierParams)
    (positionalInputCount : option Z) (name : string).

Module Node.
Record t : Type := mk {
  id : string;
  data : PatternFlowNodeData;
}.
End Node.

Module Edge.
Record t : Type := mk {
  id : string;
  source : string;
  target : string;
  targetHandle : option string;
}.
End Edge.

Record PatternFlowGraph : Type := {
  nodes : list Node.t;
  edges : list Edge.t;
}.

(** ** Strings: [startsWith], [split] and [parseInt] *)

Definition startsWith (s searchString : string) : bool := String.prefix searchString s.

(** [s.split(sep)] for a one-character separator. *)
Fixpoint split (sep : Ascii.ascii) (s : string) : list string :=
  match s with
  | EmptyString => [EmptyString]
  | String c s' =>
      if Ascii.eqb c sep then EmptyString :: split sep s'
      else match split sep s' with
           | [] => [String c EmptyString]
           | w :: ws => String c w :: ws
           end
  end.

(** The value of a digit in the given radix (10 or 16). *)
Definition digitValue (radix : Z) (c : Ascii.ascii) : option Z :=
  let n := Z.of_nat (Ascii.nat_of_ascii c) in
  let v := if (48 <=? n) && (n <=? 57) then Some (n - 48)
           else if (97 <=? n) && (n <=? 102) then Some (n - 87)
           else if (65 <=? n) && (n <=? 70) then Some (n - 55)
           else None in
  match v with
  | Some d => if d <? radix then Some d else None
  | None => None
  end.

Fixpoint parseDigits (radix : Z) (s : string) (acc : option Z) : option Z :=
  match s with
  | EmptyString => acc
  | String c s' =>
      match digitValue radix c with
      | Some d => parseDigits radix s' (Some (radix * default 0 acc + d))
      | None => acc
      end
  end.

(** The digits after the sign: hexadecimal after [0x] or [0X], decimal
    otherwise. *)
Definition parseUnsigned (s : string) : option Z :=
  match s with
  | String "0"%char (String "x"%char s') => parseDigits 16 s' None
  | String "0"%char (String "X"%char s') => parseDigits 16 s' None
  | _ => parseDigits 10 s None
  end.

Definition isWhiteSpace (c : Ascii.ascii) : bool :=
  let n := Ascii.nat_of_ascii c in
  (n =? 32)%nat || (n =? 9)%nat || (n =? 10)%nat || (n =? 11)%nat || (n =? 12)%nat || (n =? 13)%nat.

Fixpoint trimStart (s : string) : string :=
  match s with
  | String c s' => if isWhiteSpace c then trimStart s' else s
  | EmptyString => s
  end.

(** [parseInt(s)] without a radix, [None] for [NaN]: leading white space,
    an optional sign, then the longest run of digits, hexadecimal after
    the prefix [0x] and decimal otherwise; [NaN] when there is no digit.
    [None] as argument stands for [undefined]. *)
Definition parseInt (s : option string) : option Z :=
  match s with
  | None => None
  | Some s =>
      match trimStart s with
      | String "-"%char s' => Z.opp <$> parseUnsigned s'
      | String "+"%char s' => parseUnsigned s'
      | s' => parseUnsigned s'
      end
  end.

(** ** The graph evaluator ([src/engine/graphEvaluator.ts]) *)

(** The cache of a [GraphEvaluator]: node id to pattern or [null]. *)
Abbreviation Cache := (gmap string (option Pattern.t)).

(** A method of the evaluator: it reads and updates the cache, and yields
    [None] when the recursion budget is exhausted. *)
Definition Eval (A : Type) : Type := Cache → option (A * Cache).

Definition Eval_ret {A} (a : A) : Eval A := fun cache => Some (a, cache).

Definition Eval_bind {A B} (m : Eval A) (f : A → Eval B) : Eval B :=
  fun cache =>
    match m cache with
    | Some (a, cache') => f a cache'
    | None => None
    end.

Fixpoint Eval_map {A B} (f : A → Eval B) (l : list A) : Eval (list B) :=
  match l with
  | [] => Eval_ret []
  | x :: l' =>
      Eval_bind (f x) (fun y => Eval_bind (Eval_map f l') (fun ys => Eval_ret (y :: ys)))
  end.

(** [e.targetHandle?.startsWith('pos-')] *)
Definition isPositionalEdge (e : Edge.t) : bool :=
  match Edge.targetHandle e with
  | Some h => startsWith h "pos-"
  | None => false
  end.

(** [parseInt(e.targetHandle!.split('-')[1])] *)
Definition positionalIndex (e : Edge.t) : option Z :=
  match Edge.targetHandle e with
  | Some h => parseInt (split "-" h !! 1%nat)
  | None => None
  end.

(** The comparator [(a, b) => aIdx - bIdx] is positive when both indices
    are numbers and the first is the larger; a [NaN] difference counts as
    zero. *)
Definition byPositionalIndex (a b : Edge.t) : bool :=
  match positionalIndex a, positionalIndex b with
  | Some aIdx, Some bIdx => bool_decide (0 < aIdx - bIdx)
  | _, _ => false
  end.

(** [graph.edges.filter(e => e.target === node.id)] *)
Definition incomingEdgesOf (graph : PatternFlowGraph) (node : Node.t) : list Edge.t :=
  filter (fun e => Edge.target e = Node.id node) (edges graph).

(** [incomingEdges.filter(e => e.targetHandle?.startsWith('pos-')).sort(...)] *)
Definition positionalEdges (incomingEdges : list Edge.t) : list Edge.t :=
  Array_sort byPositionalIndex (filter (fun e => isPositionalEdge e = true) incomingEdges).

(** [incomingEdges.find(e => e.targetHandle === inputDef.key)] *)
Definition keywordEdge (incomingEdges : list Edge.t) (key : string) : option Edge.t :=
  List.find (fun e => bool_decide (Edge.targetHandle e = Some key)) incomingEdges.

(** [result.keyword[key] = pattern], creating [result.keyword] when absent. *)
Definition setKeyword (result : ModifierInputs.t) (key : string) (pattern : Pattern.t)
    : ModifierInputs.t :=
  ModifierInputs.mk (Some (<[key := pattern]> (default ∅ (ModifierInputs.keyword result))))
                    (ModifierInputs.positional result).

(** [result.positional = patterns] *)
Definition setPositional (result : ModifierInputs.t) (patterns : list Pattern.t)
    : ModifierInputs.t :=
  ModifierInputs.mk (ModifierInputs.keyword result) (Some patterns).

(** The validation loop of [evaluateModifier]: [false] where the source
    returns [null]. *)
Fixpoint inputsMeetRequirements (inputDefs : list InputDefinition) (inputs : ModifierInputs.t)
    : bool :=
  match inputDefs with
  | [] => true
  | KeywordInput key _ true :: rest =>
      match ModifierInputs.keyword inputs with
      | Some keyword =>
          match keyword !! key with
          | Some _ => inputsMeetRequirements rest inputs
          | None => false
          end
      | None => false
      end
  | KeywordInput _ _ false :: rest => inputsMeetRequirements rest inputs
  | PositionalInput minCount _ :: rest =>
      let count := match ModifierInputs.positional inputs with
                   | Some patterns => Z.of_nat (length patterns)
                   | None => 0
                   end in
      if count <? minCount then false else inputsMeetRequirements rest inputs
  end.

(** [applyModifier]: the [try] block turns a throw into [null]. *)
Definition applyModifier (modifierName : string) (params : ModifierParams)
    (inputs : ModifierInputs.t) : option Pattern.t :=
  match getModifier modifierName with
  | None => None
  | Some modifier =>
      match ModifierDefinition.execute modifier inputs params with
      | Returned pattern => pattern
      | Thrown => None
      end
  end.

Section evaluator.
(** The recursive call [this.evaluate(graph, id)]. *)
Variable evaluate_rec : PatternFlowGraph → string → Eval (option Pattern.t).

Fixpoint getModifierInputs_loop (graph : PatternFlowGraph) (incomingEdges : list Edge.t)
    (inputDefs : list InputDefinition) (result : ModifierInputs.t) : Eval ModifierInputs.t :=
  match inputDefs with
  | [] => Eval_ret result
  | KeywordInput key _ _ :: rest =>
      match keywordEdge incomingEdges key with
      | Some edge =>
          Eval_bind (evaluate_rec graph (Edge.source edge)) (fun pattern =>
            match pattern with
            | Some p => getModifierInputs_loop graph incomingEdges rest (setKeyword result key p)
            | None => getModifierInputs_loop graph incomingEdges rest result
            end)
      | None => getModifierInputs_loop graph incomingEdges rest result
      end
  | PositionalInput _ _ :: rest =>
      Eval_bind (Eval_map (fun e => evaluate_rec graph (Edge.source e)) (positionalEdges incomingEdges))
        (fun results =>
           getModifierInputs_loop graph incomingEdges rest (setPositional result (omap id results)))
  end.

Definition getModifierInputs (graph : PatternFlowGraph) (node : Node.t)
    (inputDefs : list InputDefinition) : Eval ModifierInputs.t :=
  let incomingEdges := incomingEdgesOf graph node in
  getModifierInputs_loop graph incomingEdges inputDefs (ModifierInputs.mk None None).

Definition evaluateModifier (graph : PatternFlowGraph) (node : Node.t) : Eval (option Pattern.t) :=
  match Node.data node with
  | ModifierNodeData modifierType params _ _ =>
      match getModifier modifierType with
      | None => Eval_ret None
      | Some modifier =>
          Eval_bind (getModifierInputs graph node (ModifierDefinition.inputs modifier))
            (fun inputs =>
               if inputsMeetRequirements (ModifierDefinition.inputs modifier) inputs
               then Eval_ret (applyModifier modifierType params inputs)
               else Eval_ret None)
      end
  | PatternNodeData _ _ => Eval_ret None
  end.

Definition evaluateNode (graph : PatternFlowGraph) (node : Node.t) : Eval (option Pattern.t) :=
  match Node.data node with
  | PatternNodeData pattern _ => Eval_ret (Some pattern)
  | ModifierNodeData _ _ _ _ => evaluateModifier graph node
  end.

Definition findNode (graph : PatternFlowGraph) (nodeId : string) : option Node.t :=
  List.find (fun n => bool_decide (Node.id n = nodeId)) (nodes graph).

(** The body of [evaluate]. *)
Definition evaluate_body (graph : PatternFlowGraph) (nodeId : string) : Eval (option Pattern.t) :=
  fun cache =>
    match findNode graph nodeId with
    | None => Some (None, cache)
    | Some node =>
        match cache !! nodeId with
        | Some cached => Some (cached, cache)
        | None =>
            match evaluateNode graph node cache with
            | Some (pattern, cache') => Some (pattern, <[nodeId := pattern]> cache')
            | None => None
            end
        end
    end.
End evaluator.

(** [evaluate(graph, nodeId)] with a budget of nested calls. *)
Fixpoint evaluate (fuel : nat) (graph : PatternFlowGraph) (nodeId : string)
    : Eval (option Pattern.t) :=
  match fuel with
  | O => fun _ => None
  | S fuel' => evaluate_body (evaluate fuel') graph nodeId
  end.

(** [clearCache] *)
Definition clearCache (cache : Cache) : Cache := ∅.

(** ** The value of a node under a cache

    [value] reads [evaluate] without threading the cache: the value of a
    node is its cache entry when there is one, and otherwise what
    [evaluateNode] computes from the values of the upstream nodes. The
    proofs relate the two. *)

Section value.
Variable value_rec : string → option (option Pattern.t).

Fixpoint valueInputs_loop (incomingEdges : list Edge.t)
    (inputDefs : list InputDefinition) (result : ModifierInputs.t) : option ModifierInputs.t :=
  match inputDefs with
  | [] => Some result
  | KeywordInput key _ _ :: rest =>
      match keywordEdge incomingEdges key with
      | Some edge =>
          match value_rec (Edge.source edge) with
          | Some (Some p) => valueInputs_loop incomingEdges rest (setKeyword result key p)
          | Some None => valueInputs_loop incomingEdges rest result
          | None => None
          end
      | None => valueInputs_loop incomingEdges rest result
      end
  | PositionalInput _ _ :: rest =>
      match mapM (fun e => value_rec (Edge.source e)) (positionalEdges incomingEdges) with
      | Some results => valueInputs_loop incomingEdges rest (setPositional result (omap id results))
      | None => None
      end
  end.

Definition valueNode (graph : PatternFlowGraph) (node : Node.t) : option (option Pattern.t) :=
  match Node.data node with
  | PatternNodeData pattern _ => Some (Some pattern)
  | ModifierNodeData modifierType params _ _ =>
      match getModifier modifierType with
      | None => Some None
      | Some modifier =>
          match valueInputs_loop (incomingEdgesOf graph node)
                  (ModifierDefinition.inputs modifier) (ModifierInputs.mk None None) with
          | Some inputs =>
              if inputsMeetRequirements (ModifierDefinition.inputs modifier) inputs
              then Some (applyModifier modifierType params inputs)
              else Some None
          | None => None
          end
      end
  end.

Definition value_body (graph : PatternFlowGraph) (cache : Cache) (nodeId : string)
    : option (option Pattern.t) :=
  match findNode graph nodeId with
  | None => Some None
  | Some node =>
      match cache !! nodeId with
      | Some cached => Some cached
      | None => valueNode graph node
      end
  end.
End value.

Fixpoint value (fuel : nat) (graph : PatternFlowGraph) (cache : Cache) (nodeId : string)
    : option (option Pattern.t) :=
  match fuel with
  | O => None
  | S fuel' => value_body (value fuel' graph cache) graph cache nodeId
  end.

(** ** Vocabulary for the claims on the evaluator *)

(** A rank that grows along every edge: the graph is acyclic. *)
Definition ranked (graph : PatternFlowGraph) (rank : string → nat) : Prop :=
  ∀ e, e ∈ edges graph → (rank (Edge.source e) < rank (Edge.target e))%nat.

(** The graph without the edge at position [length before] of its edges. *)
Definition omitEdge (nodes : list Node.t) (before after : list Edge.t) : PatternFlowGraph :=
  {| nodes := nodes; edges := before ++ after |}.

(** [cache] extended by entries that hold the value of their node under
    [base]. *)
Definition extends (graph : PatternFlowGraph) (rank : string → nat) (base cache : Cache) : Prop :=
  base ⊆ cache
  ∧ ∀ nodeId cached, base !! nodeId = None → cache !! nodeId = Some cached →
      ∀ fuel, (rank nodeId < fuel)%nat → value fuel graph base nodeId = Some cached.

(** The values of the sources of the positional edges of a node, in the
    order of their indices (nulls included). *)
Definition positionalValues (fuel : nat) (graph : PatternFlowGraph) (cache : Cache)
    (node : Node.t) : option (list (option Pattern.t)) :=
  mapM (fun e => value fuel graph cache (Edge.source e))
       (positionalEdges (incomingEdgesOf graph node)).

(** ** Cache invalidation ([invalidateNode], [getDownstreamNodes]) *)

(** The [for] loop over the outgoing edges of the node taken from the
    queue: a target that is not visited is added to [downstream] and
    pushed on the queue. *)
Definition enqueueTargets (visited : gset string) (outgoingEdges : list Edge.t)
    (downstream : gset string) (queue : list string) : gset string * list string :=
  foldl (fun '(downstream, queue) edge =>
           if decide (Edge.target edge ∈ visited) then (downstream, queue)
           else ({[Edge.target edge]} ∪ downstream, queue ++ [Edge.target edge]))
        (downstream, queue) outgoingEdges.

(** The [while (queue.length > 0)] loop, with a budget of iterations. *)
Fixpoint getDownstreamNodes_loop (fuel : nat) (graph : PatternFlowGraph)
    (downstream : gset string) (queue : list string) (visited : gset string)
    : option (gset string) :=
  match queue with
  | [] => Some downstream
  | current :: rest =>
      match fuel with
      | O => None
      | S fuel' =>
          if decide (current ∈ visited)
          then getDownstreamNodes_loop fuel' graph downstream rest visited
          else
            let visited' := {[current]} ∪ visited in
            let outgoingEdges := filter (fun e => Edge.source e = current) (edges graph) in
            let '(downstream', queue') := enqueueTargets visited' outgoingEdges downstream rest in
            getDownstreamNodes_loop fuel' graph downstream' queue' visited'
      end
  end.

Definition getDownstreamNodes (fuel : nat) (graph : PatternFlowGraph) (nodeId : string)
    : option (gset string) :=
  getDownstreamNodes_loop fuel graph ∅ [nodeId] ∅.

Definition invalidateNode (fuel : nat) (graph : PatternFlowGraph) (nodeId : string)
    (cache : Cache) : option Cache :=
  let cache' := delete nodeId cache in
  match getDownstreamNodes fuel graph nodeId with
  | Some downstreamNodes =>
      Some (foldl (fun c downstreamId => delete downstreamId c) cache' (elements downstreamNodes))
  | None => None
  end.

(** ** Vocabulary for the traversals *)

(** There is an edge from [a] to [b]. *)
Definition edgeTo (graph : PatternFlowGraph) (a b : string) : Prop :=
  ∃ e, e ∈ edges graph ∧ Edge.source e = a ∧ Edge.target e = b.

(** [b] is [a] or a node transitively downstream of [a]. *)
Definition downstreamOrSelf (graph : PatternFlowGraph) (a b : string) : Prop :=
  rtc (edgeTo graph) a b.

(** The targets [enqueueTargets] adds: those of the outgoing edges that
    are not visited. *)
Definition newTargets (visited : gset string) (outgoingEdges : list Edge.t) : list string :=
  filter (fun t => t ∉ visited) (Edge.target <$> outgoingEdges).

(** Edges whose source is not visited yet: the loop of
    [getDownstreamNodes] takes each of them from the graph at most once. *)
Definition pendingEdges (graph : PatternFlowGraph) (visited : gset string) : list Edge.t :=
  filter (fun e => Edge.source e ∉ visited) (edges graph).

(** The invariant of the loop of [getDownstreamNodes] started at [nodeId]. *)
Definition bfsInvariant (graph : PatternFlowGraph) (nodeId : string)
    (downstream : gset string) (queue : list string) (visited : gset string) : Prop :=
  (∀ x, x ∈ queue → x = nodeId ∨ x ∈ downstream)
  ∧ (∀ x, x ∈ visited → x = nodeId ∨ x ∈ downstream)
  ∧ (∀ x, x ∈ downstream → tc (edgeTo graph) nodeId x)
  ∧ (∀ x y, x ∈ visited → edgeTo graph x y → y ∈ visited ∨ y ∈ queue)
  ∧ (nodeId ∈ visited ∨ nodeId ∈ queue).

(** ** Cycle detection ([detectCycles]) *)

Module DfsState.
Record t : Type := mk {
  visited : gset string;
  recursionStack : gset string;
  cycles : list string;
}.
End DfsState.

(** [path.indexOf(x)], [None] for -1. *)
Fixpoint indexOf (path : list string) (x : string) : option nat :=
  match path with
  | [] => None
  | y :: path' => if decide (y = x) then Some O else S <$> indexOf path' x
  end.

(** [path.slice(start)], where a start of -1 selects the last element. *)
Definition sliceFrom (path : list string) (start : option nat) : list string :=
  match start with
  | Some i => drop i path
  | None => drop (length path - 1) path
  end.

Section dfs.
(** The recursive call [dfs(edge.target, [...path])]. *)
Variable dfs_rec : string → list string → DfsState.t → option (bool * DfsState.t).

(** The [for] loop of [dfs] over the outgoing edges, after which the node
    leaves the recursion stack. *)
Fixpoint dfs_edges (nodeId : string) (path : list string) (outgoingEdges : list Edge.t)
    (st : DfsState.t) : option (bool * DfsState.t) :=
  match outgoingEdges with
  | [] =>
      Some (false, DfsState.mk (DfsState.visited st)
                     (DfsState.recursionStack st ∖ {[nodeId]}) (DfsState.cycles st))
  | edge :: rest =>
      if decide (Edge.target edge ∉ DfsState.visited st) then
        match dfs_rec (Edge.target edge) path st with
        | Some (true, st') => Some (true, st')
        | Some (false, st') => dfs_edges nodeId path rest st'
        | None => None
        end
      else if decide (Edge.target edge ∈ DfsState.recursionStack st) then
        let cycleStart := indexOf path (Edge.target edge) in
        Some (true, DfsState.mk (DfsState.visited st) (DfsState.recursionStack st)
                      (DfsState.cycles st ++ sliceFrom path cycleStart ++ [Edge.target edge]))
      else dfs_edges nodeId path rest st
  end.

Definition dfs_body (graph : PatternFlowGraph) (nodeId : string) (path : list string)
    (st : DfsState.t) : option (bool * DfsState.t) :=
  let st1 := DfsState.mk ({[nodeId]} ∪ DfsState.visited st)
                         ({[nodeId]} ∪ DfsState.recursionStack st) (DfsState.cycles st) in
  let path1 := path ++ [nodeId] in
  let outgoingEdges := filter (fun e => Edge.source e = nodeId) (edges graph) in
  dfs_edges nodeId path1 outgoingEdges st1.
End dfs.

(** [dfs(nodeId, path)] with a budget of nested calls. *)
Fixpoint dfs (fuel : nat) (graph : PatternFlowGraph) (nodeId : string) (path : list string)
    (st : DfsState.t) : option (bool * DfsState.t) :=
  match fuel with
  | O => None
  | S fuel' => dfs_body (dfs fuel' graph) graph nodeId path st
  end.

(** The loop of [detectCycles] over the nodes of the graph. *)
Fixpoint detectCycles_loop (fuel : nat) (graph : PatternFlowGraph) (ns : list Node.t)
    (st : DfsState.t) : option (option (list string)) :=
  match ns with
  | [] => Some None
  | node :: rest =>
      if decide (Node.id node ∉ DfsState.visited st) then
        match dfs fuel graph (Node.id node) [] st with
        | Some (true, st') => Some (Some (DfsState.cycles st'))
        | Some (false, st') => detectCycles_loop fuel graph rest st'
        | None => None
        end
      else detectCycles_loop fuel graph rest st
  end.

Definition detectCycles (fuel : nat) (graph : PatternFlowGraph) : option (option (list string)) :=
  detectCycles_loop fuel graph (nodes graph) (DfsState.mk ∅ ∅ []).

(** ** Vocabulary for cycle detection *)

(** No node reaches itself along one edge or more. *)
Definition acyclic (graph : PatternFlowGraph) : Prop :=
  ∀ x, ¬ tc (edgeTo graph) x x.

(** Consecutive ids of the list are joined by edges. *)
Fixpoint walk (graph : PatternFlowGraph) (l : list string) : Prop :=
  match l with
  | x :: ((y :: _) as l') => edgeTo graph x y ∧ walk graph l'
  | _ => True
  end.

(** A cyclic witness: distinct nodes, joined by edges in the order of the
    list, closed by the first node at the end. *)
Definition cycleWitness (graph : PatternFlowGraph) (l : list string) : Prop :=
  ∃ first rest, l = first :: rest ++ [first] ∧ NoDup (first :: rest) ∧ walk graph l.

(** Every edge starts at a node of the graph. *)
Definition edgesFromNodes (graph : PatternFlowGraph) : Prop :=
  ∀ e, e ∈ edges graph → ∃ node, node ∈ nodes graph ∧ Node.id node = Edge.source e.

(** The ids a traversal can meet. *)
Definition allIds (graph : PatternFlowGraph) : gset string :=
  list_to_set ((Node.id <$> nodes graph) ++ (Edge.target <$> edges graph)).

(** The nodes [dfs] has left: visited and no longer on the stack. *)
Definition finished (st : DfsState.t) : gset string :=
  DfsState.visited st ∖ DfsState.recursionStack st.

(** The finished nodes are closed under the edges and lie on no cycle. *)
Definition finishedAcyclic (graph : PatternFlowGraph) (st : DfsState.t) : Prop :=
  (∀ x y, x ∈ finished st → edgeTo graph x y → y ∈ finished st)
  ∧ (∀ x, x ∈ finished st → ¬ tc (edgeTo graph) x x).

(** The path of [dfs] is a walk of distinct nodes, and it is the
    recursion stack. *)
Definition pathIsStack (graph : PatternFlowGraph) (path : list string) (st : DfsState.t) : Prop :=
  NoDup path
  ∧ walk graph path
  ∧ (∀ x, x ∈ DfsState.recursionStack st ↔ x ∈ path)
  ∧ DfsState.recursionStack st ⊆ DfsState.visited st.

(** What a call of [dfs] on an unvisited node returns. *)
Definition dfsResult (graph : PatternFlowGraph) (nodeId : string) (st : DfsState.t)
    (r : bool * DfsState.t) : Prop :=
  let '(found, st') := r in
  if found then
    ∃ c, DfsState.cycles st' = DfsState.cycles st ++ c ∧ cycleWitness graph c
  else
    DfsState.visited st ⊆ DfsState.visited st'
    ∧ nodeId ∈ DfsState.visited st'
    ∧ DfsState.recursionStack st' = DfsState.recursionStack st
    ∧ DfsState.cycles st' = DfsState.cycles st
    ∧ finishedAcyclic graph st'.

(** The two-node cycle of the specification. *)
Definition twoCycle : PatternFlowGraph := {|
  nodes := [Node.mk "A" (ModifierNodeData "reverse" ∅ None "a");
            Node.mk "B" (ModifierNodeData "reverse" ∅ None "b")];
  edges := [Edge.mk "e1" "A" "B" (Some "pattern"%string);
            Edge.mk "e2" "B" "A" (Some "pattern"%string)]
|}.

(** A cycle on an id that is not a node of the graph. *)
Definition danglingCycle : PatternFlowGraph := {|
  nodes := [];
  edges := [Edge.mk "e1" "X" "X" (Some "pattern"%string)]
|}.

(** ** Vocabulary for the failure cases of [evaluate] *)

(** The part of the graph upstream of [nodeId] has no cycle: [rank] grows
    along every edge from whose target [nodeId] is reached. The other
    edges of the graph are not constrained. *)
Definition upstreamRanked (graph : PatternFlowGraph) (rank : string → nat) (nodeId : string)
    : Prop :=
  ∀ e, e ∈ edges graph → downstreamOrSelf graph (Edge.target e) nodeId →
       (rank (Edge.source e) < rank (Edge.target e))%nat.









(** ** Editing patterns ([src/engine/pattern.ts]) *)

Definition addNote (pattern : Pattern.t) (startTime : Fraction + Z) (note : Note.t)
    : Pattern.t :=
  let time := toFraction startTime in
  let newNotes := Array_sort byStartTime (Pattern.notes pattern ++ [(time, note)]) in
  Pattern.mk newNotes
    (Some (default (calculateDuration newNotes) (Pattern.duration pattern)))
    (Pattern.id pattern) (Pattern.name pattern)
    (calculatePatternBounds newNotes).

(** [notes.filter((_, idx) => idx !== noteIndex)] *)
Definition filterIndex {A} (noteIndex : Z) (l : list A) : list A :=
  snd <$> filter (fun ix => Z.of_nat ix.1 ≠ noteIndex) (imap pair l).

(** [noteIndex] is [None] when the argument is left out. *)
Definition removeNote (pattern : Pattern.t) (startTime : Fraction) (noteIndex : option Z)
    : Pattern.t :=
  let newNotes :=
    match noteIndex with
    | Some idx => filterIndex idx (Pattern.notes pattern)
    | None => filter (fun x => x.1 ≠ startTime) (Pattern.notes pattern)
    end in
  Pattern.mk newNotes
    (Some (default (calculateDuration newNotes) (Pattern.duration pattern)))
    (Pattern.id pattern) (Pattern.name pattern)
    (calculatePatternBounds newNotes).

Definition getRealStartTime (pattern : Pattern.t) : Fraction :=
  match Pattern.notes pattern with
  | [] => Q2Qc 0
  | (t0, _) :: _ =>
      foldl (fun minTime '(startTime, _) =>
               if compare_lt startTime minTime then startTime else minTime)
            t0 (Pattern.notes pattern)
  end.

Definition getRealEndTime (pattern : Pattern.t) : Fraction :=
  match Pattern.notes pattern with
  | [] => Q2Qc 0
  | _ =>
      foldl (fun maxEndTime '(startTime, n) =>
               let endTime := (startTime + Note.duration n)%Qc in
               if compare_gt endTime maxEndTime then endTime else maxEndTime)
            (Q2Qc 0) (Pattern.notes pattern)
  end.

(** fraction.js is not part of the sources. Its values are taken with
    the fields its documentation gives them: [s] is the sign (-1 or 1),
    [n] the absolute value of the numerator and [d] the denominator, in
    lowest terms; [serializeFraction] of [projectIO] reads them in the
    same way, rebuilding the signed numerator as [n * s]. *)
Definition Fraction_s (f : Fraction) : Z := if Qnum (this f) <? 0 then -1 else 1.
Definition Fraction_n (f : Fraction) : Z := Z.abs (Qnum (this f)).
Definition Fraction_d (f : Fraction) : Z := Z.pos (Qden (this f)).

(** [new Fraction(n, d)] on two integers: the quotient, and a throw on a
    zero denominator. *)
Definition newFraction (n d : Z) : Exec Fraction :=
  if decide (d = 0) then Thrown
  else Returned (Q2Qc (Qmake (Z.sgn d * n) (Z.to_pos (Z.abs d)))).

(** [new Fraction(f.n, f.d)] *)
Definition copyFraction (f : Fraction) : Exec Fraction :=
  newFraction (Fraction_n f) (Fraction_d f).

(** [clonePattern]; a throw of [new Fraction] would leave the function. *)
Definition clonePattern (pattern : Pattern.t) : Exec Pattern.t :=
  Exec_bind
    (Exec_map (fun '(time, n) =>
                 Exec_bind (copyFraction time) (fun time' =>
                 Exec_bind (copyFraction (Note.duration n)) (fun duration' =>
                 Returned (time', Note.mk duration' (Note.note n) (Note.velocity n)))))
              (Pattern.notes pattern))
    (fun notes' =>
       Exec_bind (match Pattern.duration pattern with
                  | Some d => Exec_bind (copyFraction d) (fun d' => Returned (Some d'))
                  | None => Returned None
                  end)
         (fun duration' =>
            Returned (Pattern.mk notes' duration' (Pattern.id pattern) (Pattern.name pattern)
                        (Pattern.bounds pattern)))).

(** ** Vocabulary for the pattern functions *)

(** The loop of [calculateDuration] and [getRealEndTime]. *)
Definition latestEnd (acc : Fraction) (l : list (Fraction * Note.t)) : Fraction :=
  foldl (fun maxEndTime '(startTime, n) =>
           let endTime := (startTime + Note.duration n)%Qc in
           if compare_gt endTime maxEndTime then endTime else maxEndTime) acc l.


(** The body and the loop of [calculatePatternBounds]. *)
Definition boundsStep (b : PatternBounds.t) (x : Fraction * Note.t) : PatternBounds.t :=
  let '(startTime, n) := x in
  let pitch := Note.note n in
  let endTime := (startTime + Note.duration n)%Qc in
  PatternBounds.mk (Z.min (PatternBounds.minPitch b) pitch)
                   (Z.max (PatternBounds.maxPitch b) pitch)
                   (Fraction_min (PatternBounds.minTime b) startTime)
                   (Fraction_max (PatternBounds.maxTime b) endTime).

Definition boundsLoop (b : PatternBounds.t) (l : list (Fraction * Note.t)) : PatternBounds.t :=
  foldl boundsStep b l.

(** The absolute value of a fraction. *)
Definition Fraction_abs (f : Fraction) : Fraction :=
  if compare_lt f (Q2Qc 0) then (- f)%Qc else f.

(** ** Vocabulary for the modifier laws *)

(** Start time and duration of each note: the timing of a note list. *)
Definition timing (notes : list (Fraction * Note.t)) : list (Fraction * Fraction) :=
  map (fun x => (x.1, Note.duration x.2)) notes.

(** The loop of [union] over the durations of the patterns. *)
Definition longestDuration (acc : Fraction) (patterns : list Pattern.t) : Fraction :=
  foldl (fun maxDuration pattern =>
           if compare_gt (effectiveDuration pattern) maxDuration
           then effectiveDuration pattern else maxDuration) acc patterns.

(** A note lies inside the window [[0, duration]]. *)
Definition insideWindow (duration : Fraction) (x : Fraction * Note.t) : Prop :=
  (Q2Qc 0 ≤ x.1)%Qc ∧ (x.1 + Note.duration x.2 ≤ duration)%Qc.

(** The time map of [quantize] on a timed note, for a grid that is not
    zero. *)
Definition quantizeNote (grid : Fraction) (x : Fraction * Note.t) : Fraction * Note.t :=
  ((grid * Fraction_round (x.1 / grid))%Qc, x.2).

(** [hasModifier] of the registry. *)
Definition hasModifier (name : string) : bool :=
  bool_decide (is_Some (modifierRegistry !! name)).

(** ** More of the evaluator: [getAllPatterns] and [getLeafPatterns] *)

(** The [for] loop of [getAllPatterns] and [getLeafPatterns]: a pattern
    that is not null and has a note is set in the map. *)
Fixpoint collectPatterns (fuel : nat) (graph : PatternFlowGraph) (ns : list Node.t)
    (patterns : gmap string Pattern.t) : Eval (gmap string Pattern.t) :=
  match ns with
  | [] => Eval_ret patterns
  | node :: rest =>
      Eval_bind (evaluate fuel graph (Node.id node)) (fun pattern =>
        match pattern with
        | Some p =>
            if bool_decide (0 < Z.of_nat (length (Pattern.notes p)))
            then collectPatterns fuel graph rest (<[Node.id node := p]> patterns)
            else collectPatterns fuel graph rest patterns
        | None => collectPatterns fuel graph rest patterns
        end)
  end.

(** [fuel] is the budget of each call of [evaluate]. *)
Definition getAllPatterns (fuel : nat) (graph : PatternFlowGraph)
    : Eval (gmap string Pattern.t) :=
  collectPatterns fuel graph (nodes graph) ∅.

Definition getLeafPatterns (fuel : nat) (graph : PatternFlowGraph)
    : Eval (gmap string Pattern.t) :=
  let nodesWithOutgoingEdges : gset string := list_to_set (Edge.source <$> edges graph) in
  let leafNodes := filter (fun n => Node.id n ∉ nodesWithOutgoingEdges) (nodes graph) in
  collectPatterns fuel graph leafNodes ∅.

(** ** Vocabulary for the cache *)

(** A cold evaluation of the node (from the empty cache) returns [result]. *)
Definition evaluatesTo (graph : PatternFlowGraph) (nodeId : string)
    (result : option Pattern.t) : Prop :=
  ∃ fuel cache', evaluate fuel graph nodeId ∅ = Some (result, cache').

(** Every entry of the cache is what a cold evaluation of its node
    returns on the graph. *)
Definition coherent (graph : PatternFlowGraph) (cache : Cache) : Prop :=
  ∀ nodeId cached, cache !! nodeId = Some cached → evaluatesTo graph nodeId cached.

(** The edges into a node id. *)
Definition incomingTo (graph : PatternFlowGraph) (nodeId : string) : list Edge.t :=
  filter (fun e => Edge.target e = nodeId) (edges graph).

(** Two graphs that differ only at [nodeId] and downstream of it: every
    other node id names the same node, with the same incoming edges, in
    both. *)
Definition agreeAway (graph graph' : PatternFlowGraph) (nodeId : string) : Prop :=
  ∀ k, ¬ downstreamOrSelf graph nodeId k →
       findNode graph' k = findNode graph k ∧ incomingTo graph' k = incomingTo graph k.

(** What an evaluation may do to the cache: keep every entry and add
    entries for nodes of the graph. *)
Definition grownFrom (graph : PatternFlowGraph) (cache cache' : Cache) : Prop :=
  cache ⊆ cache'
  ∧ ∀ k, is_Some (cache' !! k) → is_Some (cache !! k) ∨ is_Some (findNode graph k).

(** A pattern that [getAllPatterns] lists for a node id: the result of a
    cold evaluation of the node, with at least one note. *)
Definition listedPattern (graph : PatternFlowGraph) (k : string) (p : Pattern.t) : Prop :=
  evaluatesTo graph k (Some p) ∧ Pattern.notes p ≠ [].

(** ** MIDI output ([src/engine/midi.ts])

    The selected output port is modelled by the messages it has been
    sent, each with its optional timestamp; [None] is no port selected.
    [a | b] and [a & b] are [Z.lor] and [Z.land]: on the low bits kept
    here they agree with the 32-bit operators of JavaScript for every
    integer argument. *)

Definition MIDIMessage : Type := list Z * option Z.

Definition MIDIOutput : Type := list MIDIMessage.

(** [send]: without a selected output it warns and sends nothing. *)
Definition send (message : list Z) (timestamp : option Z) (selectedOutput : option MIDIOutput)
    : option MIDIOutput :=
  match selectedOutput with
  | None => None
  | Some sent => Some (sent ++ [(message, timestamp)])
  end.

Definition sendNoteOn (channel note velocity : Z) (timestamp : option Z)
    (selectedOutput : option MIDIOutput) : option MIDIOutput :=
  let status := Z.lor 0x90 (Z.land channel 0x0f) in
  send [status; Z.land note 0x7f; Z.land velocity 0x7f] timestamp selectedOutput.

Definition sendNoteOff (channel note velocity : Z) (timestamp : option Z)
    (selectedOutput : option MIDIOutput) : option MIDIOutput :=
  let status := Z.lor 0x80 (Z.land channel 0x0f) in
  send [status; Z.land note 0x7f; Z.land velocity 0x7f] timestamp selectedOutput.

Definition sendProgramChange (channel program : Z) (timestamp : option Z)
    (selectedOutput : option MIDIOutput) : option MIDIOutput :=
  let status := Z.lor 0xc0 (Z.land channel 0x0f) in
  send [status; Z.land program 0x7f] timestamp selectedOutput.

Definition sendControlChange (channel controller value : Z) (timestamp : option Z)
    (selectedOutput : option MIDIOutput) : option MIDIOutput :=
  let status := Z.lor 0xb0 (Z.land channel 0x0f) in
  send [status; Z.land controller 0x7f; Z.land value 0x7f] timestamp selectedOutput.

Definition allNotesOff (channel : Z) (selectedOutput : option MIDIOutput)
    : option MIDIOutput :=
  sendControlChange channel 123 0 None selectedOutput.

(** [panic]: the two nested [for] loops over the channels 0..15 and the
    notes 0..127. *)
Definition panic (selectedOutput : option MIDIOutput) : option MIDIOutput :=
  foldl (fun out channel =>
           foldl (fun out note => sendNoteOff channel note 0 None out)
                 (allNotesOff channel out) (seqZ 0 128))
        selectedOutput (seqZ 0 16).

(** ** Vocabulary for MIDI messages *)

(** The messages [panic] sends on one channel. *)
Definition panicMessages (channel : Z) : list MIDIMessage :=
  ([0xb0 + channel; 123; 0], None)
  :: map (fun note => ([0x80 + channel; note; 0], None)) (seqZ 0 128).

(** ** Rendering the timeline ([src/engine/timelineRenderer.ts]) *)

Module TimelineItem.
Record t : Type := mk {
  id : string;
  time : Fraction;
  channel : Z;
  nodeId : string;
}.
End TimelineItem.

Module Timeline.
Record t : Type := mk {
  canvas : list (Fraction * Z * Pattern.t);
}.
End Timeline.

Module PlaybackConfig.
Record t : Type := mk {
  tempo : Z;
  ppq : Z;
  startTime : Fraction;
  endTime : option Fraction;
  defaultPrograms : gmap Z Z;
}.
End PlaybackConfig.

(** [array[index]] for a number index; [None] is [undefined]. *)
Definition arrayAt {A} (array : list A) (index : Z) : option A :=
  if decide (0 ≤ index) then array !! Z.to_nat index else None.

(** [isChannelActive] is only used under [!]: an [undefined] read of
    [channelSolo] counts as [false], and [!channelMuted[channel]] of an
    [undefined] read is [true]. *)
Definition isChannelActive (channelMuted channelSolo : list bool) (channel : Z) : bool :=
  let hasSolo := existsb (fun s => s) channelSolo in
  if hasSolo then default false (arrayAt channelSolo channel)
  else negb (default false (arrayAt channelMuted channel)).

(** The first [items.forEach]: the canvas of the patterns on the active
    channels. *)
Fixpoint buildCanvas (fuel : nat) (graph : PatternFlowGraph) (channelMuted channelSolo : list bool)
    (items : list TimelineItem.t) (canvas : list (Fraction * Z * Pattern.t))
    : Eval (list (Fraction * Z * Pattern.t)) :=
  match items with
  | [] => Eval_ret canvas
  | item :: rest =>
      if negb (isChannelActive channelMuted channelSolo (TimelineItem.channel item))
      then buildCanvas fuel graph channelMuted channelSolo rest canvas
      else
        Eval_bind (evaluate fuel graph (TimelineItem.nodeId item)) (fun pattern =>
          match pattern with
          | Some p =>
              buildCanvas fuel graph channelMuted channelSolo rest
                (canvas ++ [(TimelineItem.time item, TimelineItem.channel item, p)])
          | None => buildCanvas fuel graph channelMuted channelSolo rest canvas
          end)
  end.

(** The comparator [(a, b) => a[0].compare(b[0])] of the canvas sort. *)
Definition byCanvasTime (a b : Fraction * Z * Pattern.t) : bool := compare_gt a.1.1 b.1.1.

(** The second [items.forEach]: it evaluates the node of every item
    again, muted channels included, for an end time that is not used. *)
Fixpoint calculateEndTime (fuel : nat) (graph : PatternFlowGraph) (items : list TimelineItem.t)
    (maxTime : Fraction) : Eval Fraction :=
  match items with
  | [] => Eval_ret maxTime
  | item :: rest =>
      Eval_bind (evaluate fuel graph (TimelineItem.nodeId item)) (fun pattern =>
        match pattern with
        | Some p =>
            let endTime := (TimelineItem.time item + default (Q2Qc 0) (Pattern.duration p))%Qc in
            calculateEndTime fuel graph rest
              (if compare_gt endTime maxTime then endTime else maxTime)
        | None => calculateEndTime fuel graph rest maxTime
        end)
  end.

(** [defaultPrograms[channel] = channelPrograms[channel] || 0] for the
    channels 0..15. *)
Definition buildDefaultPrograms (channelPrograms : list Z) : gmap Z Z :=
  foldl (fun defaultPrograms channel =>
           <[channel := default 0 (arrayAt channelPrograms channel)]> defaultPrograms)
        ∅ (seqZ 0 16).

(** [tempo] and [ppq] are [None] when left out; [fuel] is the budget of
    each call of [evaluate]. *)
Definition renderTimelineToMIDI (fuel : nat) (items : list TimelineItem.t)
    (graph : PatternFlowGraph) (channelPrograms : list Z) (channelMuted channelSolo : list bool)
    (tempo ppq : option Z) : Eval (Timeline.t * PlaybackConfig.t) :=
  Eval_bind (buildCanvas fuel graph channelMuted channelSolo items []) (fun canvas =>
    let sorted := Array_sort byCanvasTime canvas in
    Eval_bind (calculateEndTime fuel graph items (Q2Qc 0)) (fun maxTime =>
      let defaultPrograms := buildDefaultPrograms channelPrograms in
      Eval_ret (Timeline.mk sorted,
                PlaybackConfig.mk (default 500000 tempo) (default 480 ppq) (Q2Qc 0) None
                  defaultPrograms))).

(** ** Vocabulary for the timeline *)

(** What an item contributes to the canvas: its time and channel with
    the pattern its node evaluates to, when its channel is active. *)
Definition canvasEntryOf (graph : PatternFlowGraph) (channelMuted channelSolo : list bool)
    (item : TimelineItem.t) (entry : Fraction * Z * Pattern.t) : Prop :=
  isChannelActive channelMuted channelSolo (TimelineItem.channel item) = true
  ∧ evaluatesTo graph (TimelineItem.nodeId item) (Some entry.2)
  ∧ entry.1 = (TimelineItem.time item, TimelineItem.channel item).

(** Two placements of nodes of [exampleGraph]: the concatenation on
    channel 0 and the unconnected modifier on channel 1. *)
Definition exampleItems : list TimelineItem.t :=
  [TimelineItem.mk "i1" (Q2Qc 2) 0 "C"; TimelineItem.mk "i2" (Q2Qc 0) 1 "N"].

(** ** Project files ([src/utils/projectIO.ts], [src/types/project.ts]) *)

(** The numbers [n] and [d] of a stored fraction are doubles. The
    embedding has the integers among them, and [None] for a value that
    is not finite ([Infinity], [-Infinity]). *)
Module SerializedFraction.
Record t : Type := mk {
  n : option Z;
  d : option Z;
}.
End SerializedFraction.

Module SerializedNote.
Record t : Type := mk {
  duration : SerializedFraction.t;
  note : Z;
  velocity : Z;
}.
End SerializedNote.

Module SerializedPattern.
Record t : Type := mk {
  notes : list (SerializedFraction.t * SerializedNote.t);
  duration : option SerializedFraction.t;
  id : option string;
  name : option string;
}.
End SerializedPattern.

Module SerializedTimelineItem.
Record t : Type := mk {
  id : string;
  time : SerializedFraction.t;
  channel : Z;
  nodeId : string;
}.
End SerializedTimelineItem.

(** [Number(b)] for a bigint [b]: the double nearest to [b], a tie going
    to the even significand of 53 bits; [None] when the magnitude rounds
    to [2 ^ 1024] or more, which [Number] turns into an infinity. Below
    [2 ^ 53] in magnitude every integer is a double. *)
Definition Number_of_bigint (b : Z) : option Z :=
  let a := Z.abs b in
  let e := Z.log2 a - 52 in
  if e <=? 0 then Some b
  else
    let q := Z.shiftr a e in
    let r := Z.land a (Z.ones e) in
    let half := Z.shiftl 1 (e - 1) in
    let q' := if (half <? r) || ((r =? half) && Z.odd q) then q + 1 else q in
    let rounded := Z.shiftl q' e in
    if rounded <? 2 ^ 1024 then Some (Z.sgn b * rounded) else None.

(** [{ n: Number(f.n) * Number(f.s), d: Number(f.d) }]: [f.s] is 1 or -1,
    so the product is exact. *)
Definition serializeFraction (f : Fraction) : SerializedFraction.t :=
  SerializedFraction.mk
    ((fun n => n * Fraction_s f) <$> Number_of_bigint (Fraction_n f))
    (Number_of_bigint (Fraction_d f)).

Definition serializeNote (note : Note.t) : SerializedNote.t :=
  SerializedNote.mk (serializeFraction (Note.duration note)) (Note.note note)
    (Note.velocity note).

Definition serializePattern (pattern : Pattern.t) : SerializedPattern.t :=
  SerializedPattern.mk
    (map (fun '(time, note) => (serializeFraction time, serializeNote note))
         (Pattern.notes pattern))
    (serializeFraction <$> Pattern.duration pattern)
    (Pattern.id pattern) (Pattern.name pattern).

Definition serializeTimelineItem (item : TimelineItem.t) : SerializedTimelineItem.t :=
  SerializedTimelineItem.mk (TimelineItem.id item) (serializeFraction (TimelineItem.time item))
    (TimelineItem.channel item) (TimelineItem.nodeId item).

(** [new Fraction(f.n, f.d)]: fraction.js throws on a number that is not
    an integer, which an infinity is not, and on a zero denominator. *)
Definition deserializeFraction (f : SerializedFraction.t) : Exec Fraction :=
  match SerializedFraction.n f, SerializedFraction.d f with
  | Some n, Some d => newFraction n d
  | _, _ => Thrown
  end.

Definition deserializeNote (note : SerializedNote.t) : Exec Note.t :=
  Exec_bind (deserializeFraction (SerializedNote.duration note)) (fun duration =>
    Returned (Note.mk duration (SerializedNote.note note) (SerializedNote.velocity note))).

(** The pattern read from a file has no [bounds] field. *)
Definition deserializePattern (pattern : SerializedPattern.t) : Exec Pattern.t :=
  Exec_bind
    (Exec_map (fun '(time, note) =>
                 Exec_bind (deserializeFraction time) (fun time' =>
                 Exec_bind (deserializeNote note) (fun note' => Returned (time', note'))))
              (SerializedPattern.notes pattern))
    (fun notes =>
       Exec_bind (match SerializedPattern.duration pattern with
                  | Some d => Exec_bind (deserializeFraction d) (fun d' => Returned (Some d'))
                  | None => Returned None
                  end)
         (fun duration =>
            Returned (Pattern.mk notes duration (SerializedPattern.id pattern)
                        (SerializedPattern.name pattern) None))).

Definition deserializeTimelineItem (item : SerializedTimelineItem.t) : Exec TimelineItem.t :=
  Exec_bind (deserializeFraction (SerializedTimelineItem.time item)) (fun time =>
    Returned (TimelineItem.mk (SerializedTimelineItem.id item) time
                (SerializedTimelineItem.channel item) (SerializedTimelineItem.nodeId item))).

(** ** Vocabulary for the project files *)

(** A fraction whose numerator and denominator are below [2 ^ 53], the
    integers that [Number] keeps exact. *)
Definition safeFraction (f : Fraction) : Prop :=
  Fraction_n f < 2 ^ 53 ∧ Fraction_d f < 2 ^ 53.

(** A pattern all of whose fractions are safe: the start time and the
    duration of every note, and the pattern duration when there is one. *)
Definition safePattern (pattern : Pattern.t) : Prop :=
  Forall (fun x => safeFraction x.1 ∧ safeFraction (Note.duration x.2)) (Pattern.notes pattern)
  ∧ (∀ d, Pattern.duration pattern = Some d → safeFraction d).
(** ** Specification-side vocabulary for the pattern algebra *)

(** The notes of a pattern, each start moved later by [t]. *)
Definition shiftNotes (t : Fraction) (notes : list (Fraction * Note.t)) : list (Fraction * Note.t) :=
  map (fun '(startTime, n) => ((t + startTime)%Qc, n)) notes.

(** Sum of the effective durations of a list of patterns. *)
Definition totalDuration (patterns : list Pattern.t) : Fraction :=
  foldr (fun p acc => (effectiveDuration p + acc)%Qc) (Q2Qc 0) patterns.

(** Notes sorted ascending by start time. *)
Definition sortedByStart (notes : list (Fraction * Note.t)) : Prop :=
  StronglySorted (fun a b => (a.1 ≤ b.1)%Qc) notes.

(** The notes [concat] is to produce from time [t] on. *)
Fixpoint concatFrom (t : Fraction) (patterns : list Pattern.t) : list (Fraction * Note.t) :=
  match patterns with
  | [] => []
  | p :: ps => shiftNotes t (Pattern.notes p) ++ concatFrom (t + effectiveDuration p)%Qc ps
  end.


(** What the specification of [trim] keeps of a note that starts inside
    [[0, duration)]: with [trimEnd], a note ending after [duration] is cut
    to end there. *)
Definition trimNote (duration : Fraction) (trimEnd : bool) (x : Fraction * Note.t)
    : Fraction * Note.t :=
  if trimEnd && bool_decide (duration < x.1 + Note.duration x.2)%Qc
  then (x.1, Note.mk (duration - x.1)%Qc (Note.note x.2) (Note.velocity x.2))
  else x.

(** The notes the specification of [trim] keeps: those starting inside
    [[0, duration)]. *)
Definition startsInside (duration : Fraction) (x : Fraction * Note.t) : Prop :=
  (Q2Qc 0 ≤ x.1)%Qc ∧ (x.1 < duration)%Qc.

Global Instance startsInside_dec duration x : Decision (startsInside duration x).
Proof. unfold startsInside. apply _. Defined.

(** The time map of [reverse] on a timed note. *)
Definition mirror (duration : Fraction) (x : Fraction * Note.t) : Fraction * Note.t :=
  ((duration - x.1 - Note.duration x.2)%Qc, x.2).

(** The order of notes that [reverse] applied twice restores: ascending
    start, and among equal starts the longer note first. *)
Definition startThenLongest (a b : Fraction * Note.t) : Prop :=
  (a.1 < b.1)%Qc ∨ (a.1 = b.1 ∧ (Note.duration b.2 ≤ Note.duration a.2)%Qc).

(** ** Example data *)

Definition noteC4 : Note.t := Note.mk (Q2Qc (1 # 4)) 60 100.
Definition noteD4long : Note.t := Note.mk (Q2Qc (1 # 2)) 62 100.

(** Two notes a whole note apart, no explicit duration. *)
Definition twoNotes : Pattern.t :=
  createPatternWithBounds [(Q2Qc 0, noteC4); (Q2Qc 1, noteC4)] None.

(** A chord: two notes at start 0, the shorter one first. *)
Definition chord : Pattern.t :=
  createPatternWithBounds [(Q2Qc 0, noteC4); (Q2Qc 0, noteD4long)] (Some (Q2Qc 1)).

(** The same chord with the longer note first. *)
Definition chordLongestFirst : Pattern.t :=
  createPatternWithBounds [(Q2Qc 0, noteD4long); (Q2Qc 0, noteC4)] (Some (Q2Qc 1)).

(** A sorted pattern whose explicit duration is shorter than its notes. *)
Definition shortWindow : Pattern.t :=
  createPatternWithBounds [(Q2Qc 1, noteC4)] (Some (Q2Qc 0)).

Local Open Scope string_scope.

(** A source [A], its reverse [B], a modifier [N] with nothing connected
    (it evaluates to null) and [C], the concatenation of [A], [N], [B]. *)
Definition exampleGraph : PatternFlowGraph := {|
  nodes := [Node.mk "A" (PatternNodeData twoNotes "source");
            Node.mk "B" (ModifierNodeData "reverse" ∅ None "reversed");
            Node.mk "N" (ModifierNodeData "reverse" ∅ None "unconnected");
            Node.mk "C" (ModifierNodeData "concat" ∅ (Some 3) "joined")];
  edges := [Edge.mk "e1" "A" "B" (Some "pattern");
            Edge.mk "e2" "A" "C" (Some "pos-0");
            Edge.mk "e3" "N" "C" (Some "pos-1");
            Edge.mk "e4" "B" "C" (Some "pos-2")]
|}.

Definition exampleRank (nodeId : string) : nat :=
  if decide (nodeId = "C") then 2 else if decide (nodeId = "B") then 1 else 0.


Local Close Scope string_scope.

(** [exampleGraph] after an edit of node [B]: its modifier is now [trim]. *)
Definition editedGraph : PatternFlowGraph := {|
  nodes := [Node.mk "A" (PatternNodeData twoNotes "source");
            Node.mk "B" (ModifierNodeData "trim" ∅ None "trimmed");
            Node.mk "N" (ModifierNodeData "reverse" ∅ None "unconnected");
            Node.mk "C" (ModifierNodeData "concat" ∅ (Some 3) "joined")];
  edges := edges exampleGraph
|}.


Local Open Scope string_scope.

(** A source [A] and its quantization [Q] on a grid of 0. *)
Definition zeroGridGraph : PatternFlowGraph := {|
  nodes := [Node.mk "A" (PatternNodeData twoNotes "source");
            Node.mk "Q" (ModifierNodeData "quantize" {[ "grid" := PNumber 0 ]} None "snapped")];
  edges := [Edge.mk "e1" "A" "Q" (Some "pattern")]
|}.


Local Close Scope string_scope.
(** * Proofs *)

(** ** Fractions and comparisons *)

Lemma compare_gt_true a b : compare_gt a b = true ↔ (b < a)%Qc.
Proof.
  unfold compare_gt. split.
  - destruct (a ?= b)%Qc eqn:E; try discriminate. intros _.
    by apply Qcgt_alt.
  - intros H. pose proof (proj1 (Qcgt_alt a b) H) as H'.
    unfold Qccompare in *. by rewrite H'.
Qed.

Lemma compare_gt_false a b : compare_gt a b = false ↔ (a ≤ b)%Qc.
Proof.
  rewrite Qcle_ngt, <- compare_gt_true. destruct (compare_gt a b); naive_solver.
Qed.

Lemma compare_lt_true a b : compare_lt a b = true ↔ (a < b)%Qc.
Proof.
  unfold compare_lt. split.
  - destruct (a ?= b)%Qc eqn:E; try discriminate. intros _.
    by apply Qclt_alt.
  - intros H. pose proof (proj1 (Qclt_alt a b) H) as H'.
    unfold Qccompare in *. by rewrite H'.
Qed.

Lemma compare_lt_false a b : compare_lt a b = false ↔ (b ≤ a)%Qc.
Proof.
  rewrite Qcle_ngt, <- compare_lt_true. destruct (compare_lt a b); naive_solver.
Qed.

Lemma compare_ge_true a b : compare_ge a b = true ↔ (b ≤ a)%Qc.
Proof. unfold compare_ge. rewrite negb_true_iff. apply compare_lt_false. Qed.

(** ** concat *)

Lemma concat_inner_loop t acc l :
  foldl (fun acc '(startTime, n) => acc ++ [((t + startTime)%Qc, n)]) acc l
  = acc ++ shiftNotes t l.
Proof.
  revert acc. induction l as [|[s n] l IH]; intros acc; simpl.
  - by rewrite app_nil_r.
  - rewrite IH. by rewrite <- app_assoc.
Qed.

Lemma concat_outer_loop ps acc t :
  foldl (fun '(allNotes, currentTime) pattern =>
           let allNotes' :=
             foldl (fun acc '(startTime, n) => acc ++ [((currentTime + startTime)%Qc, n)])
                   allNotes (Pattern.notes pattern) in
           let patternDuration :=
             default (calculateDuration (Pattern.notes pattern)) (Pattern.duration pattern) in
           (allNotes', (currentTime + patternDuration)%Qc))
        (acc, t) ps
  = (acc ++ concatFrom t ps, (t + totalDuration ps)%Qc).
Proof.
  revert acc t. induction ps as [|p ps IH]; intros acc t; simpl.
  - rewrite app_nil_r. f_equal. ring.
  - rewrite concat_inner_loop, IH. rewrite <- app_assoc. f_equal.
    unfold effectiveDuration. ring.
Qed.

Lemma concatFrom_indexed ps t :
  concatFrom t ps
  = mjoin (imap (fun k p => shiftNotes (t + totalDuration (take k ps))%Qc (Pattern.notes p)) ps).
Proof.
  revert t. induction ps as [|p ps IH]; intros t; [done|].
  simpl. f_equal.
  - f_equal. ring.
  - rewrite IH. f_equal. apply imap_ext. intros k q _. simpl.
    f_equal. ring.
Qed.

Lemma concat_notes ps :
  Pattern.notes (Modifiers.concat ps) = concatFrom (Q2Qc 0) ps.
Proof.
  destruct ps as [|p ps]; [done|].
  unfold Modifiers.concat. rewrite concat_outer_loop. done.
Qed.

Lemma concat_duration p ps :
  Pattern.duration (Modifiers.concat (p :: ps)) = Some (totalDuration (p :: ps)).
Proof.
  unfold Modifiers.concat. rewrite concat_outer_loop. simpl. f_equal. ring.
Qed.

(** C1: [concat] places the notes of pattern [k] after the notes of the
    patterns before it, each start moved by the sum of the effective
    durations of patterns [0..k-1], in source order and with no sort; the
    duration of the output is the sum of the effective durations of the
    inputs (stored in the duration field whenever there is an input), so
    that the effective duration of [concat [A; B]] is the sum of those of
    [A] and [B] and every note of [B] is moved by the effective duration
    of [A]. *)
Theorem concat_offsets_and_duration :
  ∀ patterns : list Pattern.t,
    Pattern.notes (Modifiers.concat patterns)
    = mjoin (imap (fun k p => shiftNotes (totalDuration (take k patterns)) (Pattern.notes p))
                  patterns)
    ∧ effectiveDuration (Modifiers.concat patterns) = totalDuration patterns
    ∧ Pattern.duration (Modifiers.concat patterns)
      = match patterns with [] => None | _ => Some (totalDuration patterns) end
    ∧ ∀ A B : Pattern.t,
        effectiveDuration (Modifiers.concat [A; B])
        = (effectiveDuration A + effectiveDuration B)%Qc
        ∧ Pattern.notes (Modifiers.concat [A; B])
          = Pattern.notes A ++ shiftNotes (effectiveDuration A) (Pattern.notes B).
Proof.
  intros ps. split; [|split; [|split]].
  - rewrite concat_notes, concatFrom_indexed. f_equal. apply imap_ext.
    intros k p _. simpl. f_equal. ring.
  - destruct ps as [|p ps]; [done|].
    unfold effectiveDuration at 1. by rewrite concat_duration.
  - destruct ps as [|p ps]; [done|]. apply concat_duration.
  - intros A B. split.
    + unfold effectiveDuration at 1. rewrite concat_duration. simpl. ring.
    + rewrite concat_notes. simpl. rewrite app_nil_r. f_equal.
      * unfold shiftNotes. rewrite <- (map_id (Pattern.notes A)) at 2.
        apply map_ext. intros [s n]. f_equal. ring.
      * f_equal. ring.
Qed.

(** ** trim *)

Lemma trim_loop (d : Fraction) (b : bool) (l acc : list (Fraction * Note.t)) :
  foldl (fun newNotes '(startTime, n) =>
           if compare_lt startTime (Q2Qc 0) || compare_ge startTime d then newNotes
           else if b then
             let endTime := (startTime + Note.duration n)%Qc in
             if compare_gt endTime d then
               let newDuration := (d - startTime)%Qc in
               if compare_gt newDuration (Q2Qc 0)
               then newNotes ++ [(startTime, Note.mk newDuration (Note.note n) (Note.velocity n))]
               else newNotes
             else newNotes ++ [(startTime, n)]
           else newNotes ++ [(startTime, n)])
        acc l
  = acc ++ map (trimNote d b) (filter (startsInside d) l).
Proof.
  revert acc. induction l as [|[s n] l IH]; intros acc; simpl.
  - by rewrite app_nil_r.
  - rewrite IH. clear IH.
    destruct (compare_lt s (Q2Qc 0)) eqn:E0; simpl.
    { apply compare_lt_true in E0. rewrite filter_cons_False; [done|].
      intros [H _]. simpl in H. by apply Qcle_ngt in H. }
    apply compare_lt_false in E0.
    destruct (compare_ge s d) eqn:E1.
    { apply compare_ge_true in E1. rewrite filter_cons_False; [done|].
      intros [_ H]. simpl in H. by apply Qclt_nge in H. }
    assert (s < d)%Qc as Hsd.
    { apply Qclt_nge. intros H. apply compare_ge_true in H. congruence. }
    rewrite filter_cons_True by done. simpl.
    match goal with |- ?X ++ _ = _ => assert (X = acc ++ [trimNote d b (s, n)]) as -> end;
      [|by rewrite <- app_assoc].
    unfold trimNote. simpl. destruct b; simpl; [|done].
    destruct (compare_gt (s + Note.duration n) d) eqn:E2.
    + apply compare_gt_true in E2. rewrite bool_decide_eq_true_2 by done.
      assert (compare_gt (d - s) (Q2Qc 0) = true) as ->; [|done].
      apply compare_gt_true. apply Qclt_minus_iff in Hsd. exact Hsd.
    + apply compare_gt_false in E2. rewrite bool_decide_eq_false_2; [done|].
      by apply Qcle_ngt.
Qed.

Lemma trim_notes pattern trimEnd :
  Pattern.notes (Modifiers.trim pattern trimEnd)
  = map (trimNote (effectiveDuration pattern) trimEnd)
        (filter (startsInside (effectiveDuration pattern)) (Pattern.notes pattern)).
Proof. unfold Modifiers.trim. simpl. by rewrite trim_loop. Qed.

(** C8: [trim] keeps exactly the notes whose start lies in
    [[0, effective duration)], in their order; with [trimEnd] a kept note
    that ends after the duration gets the note duration
    [duration - start] (which is positive for every kept note, so the
    drop on a non-positive value never removes a note); without [trimEnd]
    kept notes are unchanged; the output duration is the effective
    duration of the input. *)
Theorem trim_keeps_and_clips :
  ∀ (pattern : Pattern.t) (trimEnd : bool),
    let duration := effectiveDuration pattern in
    Pattern.notes (Modifiers.trim pattern trimEnd)
    = map (trimNote duration trimEnd) (filter (startsInside duration) (Pattern.notes pattern))
    ∧ Pattern.duration (Modifiers.trim pattern trimEnd) = Some duration
    ∧ (∀ x, trimNote duration false x = x)
    ∧ (∀ x, (x.1 + Note.duration x.2 ≤ duration)%Qc → trimNote duration true x = x)
    ∧ (∀ x, (duration < x.1 + Note.duration x.2)%Qc →
            trimNote duration true x
            = (x.1, Note.mk (duration - x.1)%Qc (Note.note x.2) (Note.velocity x.2)))
    ∧ (∀ x, x ∈ Pattern.notes (Modifiers.trim pattern true) →
            startsInside duration x ∧ (x.1 + Note.duration x.2 ≤ duration)%Qc).
Proof.
  intros pattern trimEnd duration.
  pose proof (trim_notes pattern) as Hnotes. fold duration in Hnotes.
  split; [apply Hnotes|]. split; [done|]. split; [done|]. split; [|split].
  - intros x Hx. unfold trimNote. simpl.
    rewrite bool_decide_eq_false_2; [done|]. by apply Qcle_ngt.
  - intros x Hx. unfold trimNote. simpl. by rewrite bool_decide_eq_true_2.
  - intros x Hx. rewrite Hnotes in Hx. apply list_elem_of_fmap in Hx as (y & -> & Hy).
    apply list_elem_of_filter in Hy as [[Hy0 Hyd] _].
    unfold trimNote. simpl. case_bool_decide; simpl.
    + split; [done|]. assert (y.1 + (duration - y.1) = duration)%Qc as -> by ring.
      apply Qcle_refl.
    + split; [done|]. by apply Qcle_ngt.
Qed.

(** ** Sorting *)

Ltac qc_to_q :=
  unfold Qclt, Qcle, Qcminus, Qcopp, Qcplus, Qcmult, Q2Qc in *; cbn [this] in *;
  rewrite ?Qred_correct in *.
Ltac qc_lra := qc_to_q; lra.

Section sort_facts.
Context {A : Type} (gt : A → A → bool).

Lemma sort_insert_perm x l : sort_insert gt x l ≡ₚ x :: l.
Proof.
  induction l as [|y l IH]; simpl; [done|].
  destruct (gt x y); [|done]. rewrite IH. apply Permutation_swap.
Qed.

Lemma Array_sort_perm l : Array_sort gt l ≡ₚ l.
Proof.
  induction l as [|x l IH]; simpl; [done|].
  rewrite sort_insert_perm. by rewrite IH.
Qed.

Lemma sort_insert_split x l :
  ∃ a b, l = a ++ b ∧ sort_insert gt x l = a ++ x :: b
         ∧ Forall (fun y => gt x y = true) a.
Proof.
  induction l as [|y l (a & b & -> & E & Ha)]; simpl.
  - by exists [], [].
  - destruct (gt x y) eqn:G.
    + exists (y :: a), b. rewrite E. split; [done|]. split; [done|]. by constructor.
    + exists [], (y :: a ++ b). done.
Qed.

Lemma Array_sort_app_min a x b :
  Forall (fun y => gt y x = true) a →
  Forall (fun y => gt x y = false) b →
  Array_sort gt (a ++ x :: b) = x :: Array_sort gt (a ++ b).
Proof.
  intros Ha Hb. induction Ha as [|y a Hy Ha IH]; simpl.
  - destruct (Array_sort gt b) as [|y l] eqn:E; [done|]. simpl.
    assert (y ∈ b) as Hyb.
    { rewrite <- (Array_sort_perm b), E. left. }
    rewrite Forall_forall in Hb. by rewrite (Hb y Hyb).
  - fold (Array_sort gt (a ++ x :: b)). rewrite IH. simpl. by rewrite Hy.
Qed.
End sort_facts.

Lemma byStartTime_true a b : byStartTime a b = true ↔ (b.1 < a.1)%Qc.
Proof. apply compare_gt_true. Qed.

Lemma byStartTime_false a b : byStartTime a b = false ↔ (a.1 ≤ b.1)%Qc.
Proof. apply compare_gt_false. Qed.

Lemma sort_insert_sorted x l :
  sortedByStart l → sortedByStart (sort_insert byStartTime x l).
Proof.
  unfold sortedByStart. induction 1 as [|y l Hl IH Hy]; simpl.
  - repeat constructor.
  - destruct (byStartTime x y) eqn:G.
    + apply byStartTime_true in G. constructor; [done|].
      rewrite sort_insert_perm. constructor; [|done]. by apply Qclt_le_weak.
    + apply byStartTime_false in G. constructor; [by constructor|].
      constructor; [done|]. eapply Forall_impl; [exact Hy|].
      intros z Hz. simpl in Hz. by etrans.
Qed.

Lemma Array_sort_sorted l : sortedByStart (Array_sort byStartTime l).
Proof.
  induction l as [|x l IH]; simpl; [constructor|]. by apply sort_insert_sorted.
Qed.

(** A map that keeps every start time keeps the notes sorted. *)
Lemma sortedByStart_map (f : Fraction * Note.t → Fraction * Note.t) l :
  (∀ a b, (a.1 ≤ b.1)%Qc → ((f a).1 ≤ (f b).1)%Qc) →
  sortedByStart l → sortedByStart (map f l).
Proof.
  intros Hf. unfold sortedByStart. induction 1 as [|y l Hl IH Hy]; simpl; constructor.
  - done.
  - rewrite Forall_fmap. eapply Forall_impl; [exact Hy|]. intros z Hz. by apply Hf.
Qed.

Lemma sortedByStart_filter (P : Fraction * Note.t → Prop) `{!∀ x, Decision (P x)} l :
  sortedByStart l → sortedByStart (filter P l).
Proof.
  unfold sortedByStart. induction 1 as [|y l Hl IH Hy]; [constructor|].
  destruct (decide (P y)).
  - rewrite filter_cons_True by done. constructor; [done|].
    rewrite Forall_forall in Hy |- *. intros z Hz.
    apply list_elem_of_filter in Hz as [_ Hz]. by apply Hy.
  - by rewrite filter_cons_False.
Qed.

(** ** Output durations *)

Lemma union_duration p ps : is_Some (Pattern.duration (Modifiers.union (p :: ps))).
Proof.
  unfold Modifiers.union. destruct (foldl _ _ _) as [allNotes maxDuration]. by eexists.
Qed.

Lemma union_notes_sorted ps : sortedByStart (Pattern.notes (Modifiers.union ps)).
Proof.
  destruct ps as [|p ps]; [constructor|].
  unfold Modifiers.union. destruct (foldl _ _ _) as [allNotes maxDuration].
  apply Array_sort_sorted.
Qed.

Lemma quantize_returned pattern gridSize Q :
  Modifiers.quantize pattern gridSize = Returned Q →
  ∃ newNotes,
    Q = createPatternWithBounds (Array_sort byStartTime newNotes)
          (Some (default (calculateDuration (Array_sort byStartTime newNotes))
                         (Pattern.duration pattern))).
Proof.
  unfold Modifiers.quantize. destruct (Exec_map _ _) as [newNotes|]; simpl; [|done].
  intros [= <-]. by exists newNotes.
Qed.

(** C10 (amended): every modifier returns a pattern whose duration field
    is set, whatever the duration fields of its inputs: the unary
    modifiers for every input pattern and parameter ([quantize] whenever
    it returns rather than throws), [concat] and [union] whenever they are
    given at least one input pattern. *)
Theorem modifier_output_duration_explicit :
  (∀ p ps, is_Some (Pattern.duration (Modifiers.concat (p :: ps))))
  ∧ (∀ p ps, is_Some (Pattern.duration (Modifiers.union (p :: ps))))
  ∧ (∀ pattern, is_Some (Pattern.duration (Modifiers.reverse pattern)))
  ∧ (∀ pattern pivot, is_Some (Pattern.duration (Modifiers.invert pattern pivot)))
  ∧ (∀ pattern semitones, is_Some (Pattern.duration (Modifiers.transpose pattern semitones)))
  ∧ (∀ pattern factor, is_Some (Pattern.duration (Modifiers.stretch pattern factor)))
  ∧ (∀ pattern factor, is_Some (Pattern.duration (Modifiers.scaleDuration pattern factor)))
  ∧ (∀ pattern duration, is_Some (Pattern.duration (Modifiers.setDuration pattern duration)))
  ∧ (∀ pattern factor, is_Some (Pattern.duration (Modifiers.scaleVelocity pattern factor)))
  ∧ (∀ pattern velocity, is_Some (Pattern.duration (Modifiers.setVelocity pattern velocity)))
  ∧ (∀ pattern trimEnd, is_Some (Pattern.duration (Modifiers.trim pattern trimEnd)))
  ∧ (∀ pattern startTime endTime,
       is_Some (Pattern.duration (Modifiers.view pattern startTime endTime)))
  ∧ (∀ pattern gridSize,
       Modifiers.quantize pattern gridSize = Thrown
       ∨ ∃ Q, Modifiers.quantize pattern gridSize = Returned Q
              ∧ is_Some (Pattern.duration Q)).
Proof.
  repeat split; try (intros; by eexists).
  - intros p ps. rewrite concat_duration. by eexists.
  - apply union_duration.
  - intros pattern gridSize.
    destruct (Modifiers.quantize pattern gridSize) as [Q|] eqn:E; [right|by left].
    exists Q. split; [done|]. apply quantize_returned in E as [newNotes ->]. by eexists.
Qed.

(** C10 fails as stated: called with no pattern, [concat] (and likewise
    [union]) returns the empty pattern, whose duration field is null. *)
Lemma concat_of_nothing_has_null_duration :
  Pattern.duration (Modifiers.concat []) = None
  ∧ Pattern.duration (Modifiers.union []) = None.
Proof. done. Qed.

(** ** Sortedness of the outputs *)

Lemma trimNote_start d b x : (trimNote d b x).1 = x.1.
Proof. unfold trimNote. by destruct (_ && _). Qed.

(** C2 (amended): [union], [reverse] and [quantize] sort their output, for
    every input and parameter; [invert], [transpose], [scaleDuration],
    [setDuration], [scaleVelocity], [setVelocity], [trim] and [view] keep
    the order of the input notes, so their output is sorted whenever the
    input notes are; so does [stretch] for a factor that is not negative;
    [concat] keeps the order of each source and can return notes that are
    not sorted as a whole. *)
Theorem modifier_outputs_sorted :
  (∀ patterns, sortedByStart (Pattern.notes (Modifiers.union patterns)))
  ∧ (∀ pattern, sortedByStart (Pattern.notes (Modifiers.reverse pattern)))
  ∧ (∀ pattern gridSize Q,
       Modifiers.quantize pattern gridSize = Returned Q → sortedByStart (Pattern.notes Q))
  ∧ (∀ pattern, sortedByStart (Pattern.notes pattern) →
       (∀ pivot, sortedByStart (Pattern.notes (Modifiers.invert pattern pivot)))
       ∧ (∀ semitones, sortedByStart (Pattern.notes (Modifiers.transpose pattern semitones)))
       ∧ (∀ factor, sortedByStart (Pattern.notes (Modifiers.scaleDuration pattern factor)))
       ∧ (∀ duration, sortedByStart (Pattern.notes (Modifiers.setDuration pattern duration)))
       ∧ (∀ factor, sortedByStart (Pattern.notes (Modifiers.scaleVelocity pattern factor)))
       ∧ (∀ velocity, sortedByStart (Pattern.notes (Modifiers.setVelocity pattern velocity)))
       ∧ (∀ trimEnd, sortedByStart (Pattern.notes (Modifiers.trim pattern trimEnd)))
       ∧ (∀ startTime endTime,
            sortedByStart (Pattern.notes (Modifiers.view pattern startTime endTime)))
       ∧ (∀ factor, (Q2Qc 0 ≤ toFraction factor)%Qc →
            sortedByStart (Pattern.notes (Modifiers.stretch pattern factor))))
  ∧ (∀ patterns, Pattern.notes (Modifiers.concat patterns) = concatFrom (Q2Qc 0) patterns)
  ∧ (∃ A B, sortedByStart (Pattern.notes A) ∧ sortedByStart (Pattern.notes B)
            ∧ ¬ sortedByStart (Pattern.notes (Modifiers.concat [A; B]))).
Proof.
  split; [apply union_notes_sorted|].
  split; [intros; apply Array_sort_sorted|].
  split.
  { intros pattern gridSize Q E. apply quantize_returned in E as [newNotes ->].
    apply Array_sort_sorted. }
  split.
  { intros pattern Hs.
    repeat split; intros;
      lazymatch goal with
      | |- context [Modifiers.trim] =>
          rewrite trim_notes;
          apply sortedByStart_map; [|by apply sortedByStart_filter];
          intros a b; by rewrite !trimNote_start
      | |- _ => simpl; try (apply sortedByStart_map; [by intros [??] [??]|done])
      end.
    - apply sortedByStart_map; [|done]. intros [a ?] [b ?]. simpl. intros H. qc_lra.
    - apply sortedByStart_map; [|done]. intros [a ?] [b ?]. simpl. intros Hab.
      by apply Qcmult_le_compat_r. }
  split; [apply concat_notes|].
  exists shortWindow, twoNotes. split; [repeat constructor|]. split.
  - repeat constructor. by vm_compute.
  - rewrite concat_notes. simpl. intros H.
    apply StronglySorted_inv in H as [_ H]. apply Forall_inv in H.
    revert H. by vm_compute.
Qed.

(** The order-keeping part of C2 at a concrete pattern. *)
Lemma modifier_outputs_sorted_witness :
  sortedByStart (Pattern.notes twoNotes)
  ∧ sortedByStart (Pattern.notes (Modifiers.stretch twoNotes (inr 2))).
Proof.
  assert (sortedByStart (Pattern.notes twoNotes)) as Hs.
  { repeat constructor. by vm_compute. }
  split; [exact Hs|].
  destruct modifier_outputs_sorted as (_ & _ & _ & H & _).
  apply (H twoNotes Hs). by vm_compute.
Defined.

(** C2 fails as stated: [stretch] with a negative factor returns the notes
    of a sorted pattern in descending order of start, and [invert] passes
    on the order of an input that is not sorted. *)
Lemma stretch_negative_factor_unsorted :
  sortedByStart (Pattern.notes twoNotes)
  ∧ ¬ sortedByStart (Pattern.notes (Modifiers.stretch twoNotes (inr (-1))))
  ∧ ¬ sortedByStart
        (Pattern.notes (Modifiers.invert (Modifiers.concat [shortWindow; twoNotes]) 60)).
Proof.
  split; [repeat constructor; by vm_compute|]. split.
  - simpl. intros H. apply StronglySorted_inv in H as [_ H]. apply Forall_inv in H.
    revert H. by vm_compute.
  - simpl. intros H. apply StronglySorted_inv in H as [_ H]. apply Forall_inv in H.
    revert H. by vm_compute.
Qed.

(** ** reverse *)

Lemma mirror_involutive d x : mirror d (mirror d x) = x.
Proof.
  destruct x as [s n]. unfold mirror. simpl. f_equal. ring.
Qed.

Lemma reverse_notes pattern :
  Pattern.notes (Modifiers.reverse pattern)
  = Array_sort byStartTime (map (mirror (effectiveDuration pattern)) (Pattern.notes pattern)).
Proof.
  unfold Modifiers.reverse. simpl. f_equal. apply map_ext. by intros [s n].
Qed.

Lemma reverse_duration pattern :
  Pattern.duration (Modifiers.reverse pattern) = Some (effectiveDuration pattern).
Proof. done. Qed.

Lemma mirror_twice_sorted d l :
  StronglySorted startThenLongest l →
  Array_sort byStartTime (map (mirror d) (Array_sort byStartTime (map (mirror d) l))) = l.
Proof.
  induction 1 as [|x l Hl IH Hx]; [done|].
  simpl.
  destruct (sort_insert_split byStartTime (mirror d x)
              (Array_sort byStartTime (map (mirror d) l))) as (a & b & Eab & -> & Ha).
  rewrite map_app. simpl. rewrite mirror_involutive.
  assert (∀ y, y ∈ a ++ b → ∃ z, z ∈ l ∧ y = mirror d z) as Hsrc.
  { intros y Hy. rewrite <- Eab, Array_sort_perm in Hy.
    apply list_elem_of_fmap in Hy as (z & -> & Hz). eauto. }
  rewrite Forall_forall in Hx.
  rewrite Array_sort_app_min.
  - f_equal. rewrite <- map_app, <- Eab. exact IH.
  - rewrite Forall_fmap, Forall_forall. intros y Hy. simpl.
    destruct (Hsrc y) as (z & Hz & ->); [set_solver|].
    rewrite mirror_involutive. apply byStartTime_true.
    rewrite Forall_forall in Ha. specialize (Ha _ Hy). apply byStartTime_true in Ha.
    destruct x as [xs xn], z as [zs zn]. unfold mirror in Ha. simpl in *.
    destruct (Hx _ Hz) as [Hlt|[Heq Hle]]; simpl in *; [done|].
    subst zs. exfalso. qc_lra.
  - rewrite Forall_fmap, Forall_forall. intros y Hy. simpl.
    destruct (Hsrc y) as (z & Hz & ->); [set_solver|].
    rewrite mirror_involutive. apply byStartTime_false.
    destruct (Hx _ Hz) as [Hlt|[Heq Hle]]; [by apply Qclt_le_weak|].
    rewrite Heq. apply Qcle_refl.
Qed.

(** C7 (amended): for a pattern with an explicit duration whose notes are
    sorted ascending by start with, among equal starts, the longer note
    first, [reverse] applied twice returns the notes and the duration of
    the pattern (and the pattern itself when it carries no id and no name
    and its bounds are those of its notes); [reverse] maps each start to
    [duration - start - noteDuration], keeps the effective duration as the
    duration and sorts the notes ascending by start, stably. *)
Theorem reverse_twice (pattern : Pattern.t) (d : Fraction) :
  Pattern.duration pattern = Some d →
  StronglySorted startThenLongest (Pattern.notes pattern) →
  Pattern.notes (Modifiers.reverse (Modifiers.reverse pattern)) = Pattern.notes pattern
  ∧ Pattern.duration (Modifiers.reverse (Modifiers.reverse pattern)) = Pattern.duration pattern
  ∧ (Pattern.id pattern = None → Pattern.name pattern = None →
     Pattern.bounds pattern = calculatePatternBounds (Pattern.notes pattern) →
     Modifiers.reverse (Modifiers.reverse pattern) = pattern)
  ∧ Pattern.notes (Modifiers.reverse pattern)
    = Array_sort byStartTime
        (map (fun x => ((d - x.1 - Note.duration x.2)%Qc, x.2)) (Pattern.notes pattern))
  ∧ Pattern.notes (Modifiers.reverse pattern)
    ≡ₚ map (fun x => ((d - x.1 - Note.duration x.2)%Qc, x.2)) (Pattern.notes pattern)
  ∧ sortedByStart (Pattern.notes (Modifiers.reverse pattern))
  ∧ Pattern.duration (Modifiers.reverse pattern) = Some d.
Proof.
  intros Hd Hs.
  assert (effectiveDuration pattern = d) as Hed by (unfold effectiveDuration; by rewrite Hd).
  assert (effectiveDuration (Modifiers.reverse pattern) = d) as Hed' by done.
  assert (Pattern.notes (Modifiers.reverse (Modifiers.reverse pattern)) = Pattern.notes pattern)
    as Hnotes.
  { rewrite reverse_notes, Hed', reverse_notes, Hed. by apply mirror_twice_sorted. }
  assert (Pattern.duration (Modifiers.reverse (Modifiers.reverse pattern))
          = Pattern.duration pattern) as Hdur.
  { rewrite reverse_duration, Hed'. done. }
  split; [done|]. split; [done|]. split.
  { intros Hid Hname Hb.
    transitivity (createPatternWithBounds
                    (Pattern.notes (Modifiers.reverse (Modifiers.reverse pattern)))
                    (Pattern.duration (Modifiers.reverse (Modifiers.reverse pattern))));
      [done|].
    rewrite Hnotes, Hdur. destruct pattern as [ns du i nm bs]. simpl in *.
    unfold createPatternWithBounds. congruence. }
  rewrite reverse_notes, Hed. unfold mirror.
  split; [done|]. split; [apply Array_sort_perm|].
  split; [apply Array_sort_sorted|]. by rewrite reverse_duration, Hed.
Qed.

Lemma reverse_twice_witness :
  Pattern.notes (Modifiers.reverse (Modifiers.reverse chordLongestFirst))
  = Pattern.notes chordLongestFirst.
Proof.
  refine (proj1 (reverse_twice chordLongestFirst (Q2Qc 1) eq_refl _)).
  apply SSorted_cons; [repeat constructor|].
  apply List.Forall_cons; [|apply List.Forall_nil].
  right. split; [done|]. by vm_compute.
Defined.

(** C7 fails as stated: on a chord whose first note is the shorter one,
    [reverse] applied twice returns the two notes in the other order,
    although the duration of the pattern is explicit and its notes are
    sorted by start. *)
Lemma reverse_twice_swaps_chord :
  Pattern.duration chord = Some (Q2Qc 1)
  ∧ sortedByStart (Pattern.notes chord)
  ∧ map (fun x => Note.note x.2) (Pattern.notes chord) = [60; 62]
  ∧ map (fun x => Note.note x.2)
        (Pattern.notes (Modifiers.reverse (Modifiers.reverse chord))) = [62; 60]
  ∧ Modifiers.reverse (Modifiers.reverse chord) ≠ chord.
Proof.
  split; [done|]. split; [repeat constructor; by vm_compute|].
  split; [done|]. split; [by vm_compute|].
  intros H.
  apply (f_equal (fun p => map (fun x => Note.note x.2) (Pattern.notes p))) in H.
  vm_compute in H. discriminate.
Qed.

(** ** The evaluator *)

Lemma findNode_id graph nodeId node : findNode graph nodeId = Some node → Node.id node = nodeId.
Proof.
  unfold findNode. intros H. apply find_some in H as [_ H]. by apply bool_decide_eq_true in H.
Qed.

(** ** The registry *)

Lemma registry_lookup_registered (l : list ModifierDefinition.t)
    (registry : gmap string ModifierDefinition.t) t m :
  foldl (fun registry def => registerModifier def registry) registry l !! t = Some m →
  m ∈ l ∨ registry !! t = Some m.
Proof.
  revert registry. induction l as [|d l IH]; intros registry H; simpl in H; [by right|].
  apply IH in H as [H|H]; [left; by right|].
  unfold registerModifier in H.
  destruct (decide (ModifierDefinition.name d = t)) as [<-|Hne].
  - rewrite lookup_insert_eq in H. simplify_eq. left. by left.
  - rewrite lookup_insert_ne in H by done. by right.
Qed.

Lemma getModifier_registered t m : getModifier t = Some m → m ∈ registeredModifiers.
Proof.
  unfold getModifier, modifierRegistry. intros H.
  apply registry_lookup_registered in H as [H|H]; [done|]. by rewrite lookup_empty in H.
Qed.

Ltac each_registered H :=
  unfold registeredModifiers in H;
  repeat (apply elem_of_cons in H as [->|H]); [..|by apply elem_of_nil in H].


(** A registered modifier takes either the keyword input [pattern] or one
    positional input. *)
Lemma registered_inputs m :
  m ∈ registeredModifiers →
  ModifierDefinition.inputs m = [patternInput]
  ∨ ModifierDefinition.inputs m = [PositionalInput 2 (Some "Patterns"%string)].
Proof. intros H. each_registered H; simpl; auto. Qed.

(** ** The evaluator: termination on acyclic graphs *)

Lemma keywordEdge_incoming incoming key edge :
  keywordEdge incoming key = Some edge → edge ∈ incoming.
Proof.
  unfold keywordEdge. intros H. apply find_some in H as [H _]. by apply list_elem_of_In.
Qed.

Lemma positionalEdges_incoming incoming edge :
  edge ∈ positionalEdges incoming → edge ∈ incoming.
Proof.
  unfold positionalEdges. rewrite Array_sort_perm. intros H.
  by apply list_elem_of_filter in H as [_ ?].
Qed.

Lemma incomingEdgesOf_spec graph node edge :
  edge ∈ incomingEdgesOf graph node ↔ edge ∈ edges graph ∧ Edge.target edge = Node.id node.
Proof. unfold incomingEdgesOf. rewrite list_elem_of_filter. tauto. Qed.

Lemma Eval_map_terminates {A B} (f : A → Eval B) l cache :
  (∀ x c, x ∈ l → is_Some (f x c)) → is_Some (Eval_map f l cache).
Proof.
  revert cache. induction l as [|x l IH]; intros cache H; simpl; [by eexists|].
  unfold Eval_bind. destruct (H x cache) as [[y c1] ->]; [by left|].
  destruct (IH c1) as [[ys c2] ->]; [|by eexists].
  intros z c Hz. apply H. by right.
Qed.

Lemma getModifierInputs_loop_terminates evaluate_rec graph incoming inputDefs result cache :
  (∀ e c, e ∈ incoming → is_Some (evaluate_rec graph (Edge.source e) c)) →
  is_Some (getModifierInputs_loop evaluate_rec graph incoming inputDefs result cache).
Proof.
  intros H. revert result cache.
  induction inputDefs as [|[key label required|minCount label] rest IH]; intros result cache; simpl.
  - by eexists.
  - destruct (keywordEdge incoming key) as [edge|] eqn:E; [|apply IH].
    unfold Eval_bind.
    destruct (H edge cache) as [[pattern c1] ->]; [by eapply keywordEdge_incoming|].
    destruct pattern; apply IH.
  - unfold Eval_bind.
    destruct (Eval_map_terminates (fun e => evaluate_rec graph (Edge.source e))
                (positionalEdges incoming) cache) as [[results c1] ->]; [|apply IH].
    intros e c He. apply H. by apply positionalEdges_incoming.
Qed.

(** Termination needs the rank to grow only along the edges of a set of
    node ids that is closed under taking the source of an edge: the node
    evaluated and all that is upstream of it. *)
Section upstream_terminates.
Context (graph : PatternFlowGraph) (rank : string → nat) (P : string → Prop).
Hypothesis P_ranked :
  ∀ e, e ∈ edges graph → P (Edge.target e) →
       P (Edge.source e) ∧ (rank (Edge.source e) < rank (Edge.target e))%nat.

Lemma evaluate_terminates_on fuel nodeId cache :
  P nodeId → (rank nodeId < fuel)%nat → is_Some (evaluate fuel graph nodeId cache).
Proof.
  revert nodeId cache. induction fuel as [|fuel IH]; intros nodeId cache HP Hlt; [lia|].
  simpl. unfold evaluate_body.
  destruct (findNode graph nodeId) as [node|] eqn:Hnode; [|by eexists].
  destruct (cache !! nodeId); [by eexists|].
  assert (is_Some (evaluateNode (evaluate fuel) graph node cache)) as [[p c1] ->]; [|by eexists].
  unfold evaluateNode, evaluateModifier. destruct (Node.data node); [by eexists|].
  destruct (getModifier modifierType) as [modifier|]; [|by eexists].
  unfold Eval_bind, getModifierInputs.
  destruct (getModifierInputs_loop_terminates (evaluate fuel) graph (incomingEdgesOf graph node)
              (ModifierDefinition.inputs modifier) (ModifierInputs.mk None None) cache)
    as [[inputs c1] ->].
  - intros e c He. apply incomingEdgesOf_spec in He as [He Ht].
    rewrite (findNode_id _ _ _ Hnode) in Ht.
    destruct (P_ranked e He) as [HPs Hlts]; [by rewrite Ht|].
    apply IH; [done|]. rewrite Ht in Hlts. lia.
  - destruct (inputsMeetRequirements _ _); by eexists.
Qed.
End upstream_terminates.

Lemma evaluate_terminates graph rank :
  ranked graph rank →
  ∀ fuel nodeId cache, (rank nodeId < fuel)%nat → is_Some (evaluate fuel graph nodeId cache).
Proof.
  intros Hr fuel nodeId cache Hlt.
  apply (evaluate_terminates_on graph rank (fun _ => True)); [|done..].
  intros e He _. split; [done|]. by apply Hr.
Qed.

(** ** The example graphs *)

Lemma exampleGraph_ranked : ranked exampleGraph exampleRank.
Proof.
  intros e He. unfold exampleGraph in He. simpl in He.
  repeat (apply elem_of_cons in He as [->|He]); try (vm_compute; lia).
  by apply elem_of_nil in He.
Qed.



(** ** The value of a node: budget and totality *)

Lemma mapM_mono {A B} (f g : A → option B) l ys :
  (∀ x y, x ∈ l → f x = Some y → g x = Some y) →
  mapM f l = Some ys → mapM g l = Some ys.
Proof.
  revert ys. induction l as [|x l IH]; intros ys H; simpl; [done|].
  destruct (f x) as [y|] eqn:Ef; simpl; [|done].
  destruct (mapM f l) as [ys'|] eqn:El; simpl; [|done].
  intros [= <-]. rewrite (H x y); [|by left|done]. simpl.
  rewrite (IH ys'); [done| |done]. intros z w Hz. apply H. by right.
Qed.

Lemma valueInputs_loop_mono (vr vr' : string → option (option Pattern.t)) incoming defs result
    inputs :
  (∀ e v, e ∈ incoming → vr (Edge.source e) = Some v → vr' (Edge.source e) = Some v) →
  valueInputs_loop vr incoming defs result = Some inputs →
  valueInputs_loop vr' incoming defs result = Some inputs.
Proof.
  intros H. revert result.
  induction defs as [|[key label required|minCount label] rest IH]; intros result; simpl.
  - done.
  - destruct (keywordEdge incoming key) as [edge|] eqn:E; [|apply IH].
    destruct (vr (Edge.source edge)) as [v|] eqn:Ev; [|done].
    rewrite (H edge v) by (done || by eapply keywordEdge_incoming).
    destruct v; apply IH.
  - destruct (mapM _ _) as [results|] eqn:Em; [|done].
    erewrite mapM_mono; [apply IH| |exact Em].
    intros e v He. apply H. by apply positionalEdges_incoming.
Qed.

Lemma value_S fuel graph cache nodeId v :
  value fuel graph cache nodeId = Some v → value (S fuel) graph cache nodeId = Some v.
Proof.
  revert nodeId v. induction fuel as [|fuel IH]; intros nodeId v; [done|].
  intros H. simpl in *. unfold value_body in *.
  destruct (findNode graph nodeId) as [node|]; [|done].
  destruct (cache !! nodeId); [done|].
  unfold valueNode in *. destruct (Node.data node); [done|].
  destruct (getModifier modifierType) as [modifier|]; [|done].
  destruct (valueInputs_loop (value fuel graph cache) _ _ _) as [inputs|] eqn:E; [|done].
  erewrite valueInputs_loop_mono; [exact H| |exact E].
  intros e w _. apply IH.
Qed.

Lemma value_mono fuel fuel' graph cache nodeId v :
  (fuel ≤ fuel')%nat →
  value fuel graph cache nodeId = Some v → value fuel' graph cache nodeId = Some v.
Proof.
  induction 1 as [|fuel' _ IH]; [done|]. intros H. by apply value_S, IH.
Qed.

Lemma mapM_total {A B} (f : A → option B) l :
  (∀ x, x ∈ l → is_Some (f x)) → is_Some (mapM f l).
Proof.
  induction l as [|x l IH]; intros H; simpl; [by eexists|].
  destruct (H x) as [y ->]; [by left|]. simpl.
  destruct IH as [ys ->]; [|by eexists]. intros z Hz. apply H. by right.
Qed.

Lemma valueInputs_loop_total (vr : string → option (option Pattern.t)) incoming defs result :
  (∀ e, e ∈ incoming → is_Some (vr (Edge.source e))) →
  is_Some (valueInputs_loop vr incoming defs result).
Proof.
  intros H. revert result.
  induction defs as [|[key label required|minCount label] rest IH]; intros result; simpl.
  - by eexists.
  - destruct (keywordEdge incoming key) as [edge|] eqn:E; [|apply IH].
    destruct (H edge) as [[v|] ->]; [by eapply keywordEdge_incoming|apply IH..].
  - destruct (mapM_total (fun e => vr (Edge.source e)) (positionalEdges incoming))
      as [results ->]; [|apply IH].
    intros e He. apply H. by apply positionalEdges_incoming.
Qed.

Lemma value_total graph rank :
  ranked graph rank →
  ∀ fuel cache nodeId, (rank nodeId < fuel)%nat → is_Some (value fuel graph cache nodeId).
Proof.
  intros Hr fuel. induction fuel as [|fuel IH]; intros cache nodeId Hlt; [lia|].
  simpl. unfold value_body.
  destruct (findNode graph nodeId) as [node|] eqn:Hnode; [|by eexists].
  destruct (cache !! nodeId); [by eexists|].
  unfold valueNode. destruct (Node.data node); [by eexists|].
  destruct (getModifier modifierType) as [modifier|]; [|by eexists].
  destruct (valueInputs_loop_total (value fuel graph cache) (incomingEdgesOf graph node)
              (ModifierDefinition.inputs modifier) (ModifierInputs.mk None None))
    as [inputs ->].
  - intros e He. apply IH. apply incomingEdgesOf_spec in He as [He Ht].
    apply Hr in He. rewrite Ht, (findNode_id _ _ _ Hnode) in He. lia.
  - destruct (inputsMeetRequirements _ _); by eexists.
Qed.

(** ** [evaluate] computes the value of the node *)

Lemma Eval_map_value (Ext : Cache → Prop) (ev : string → Eval (option Pattern.t))
    (vr : string → option (option Pattern.t)) (l : list Edge.t) :
  (∀ e c1 v c2, e ∈ l → Ext c1 → ev (Edge.source e) c1 = Some (v, c2) →
                vr (Edge.source e) = Some v ∧ Ext c2) →
  ∀ c1 results c2,
    Ext c1 → Eval_map (fun e => ev (Edge.source e)) l c1 = Some (results, c2) →
    mapM (fun e => vr (Edge.source e)) l = Some results ∧ Ext c2.
Proof.
  induction l as [|x l IH]; intros H c1 results c2 Hc1; simpl.
  - unfold Eval_ret. by intros [= <- <-].
  - unfold Eval_bind, Eval_ret.
    destruct (ev (Edge.source x) c1) as [[v c1']|] eqn:Ex; [|done].
    destruct (H x c1 v c1') as [-> Hc1']; [by left|done..|].
    destruct (Eval_map _ l c1') as [[vs c1'']|] eqn:El; [|done].
    intros [= <- <-]. simpl.
    destruct (IH (fun e c v c' He => H e c v c' (list_elem_of_further _ _ _ He)) c1' vs c1'')
      as [-> Hc2]; done.
Qed.

Lemma getModifierInputs_loop_value (Ext : Cache → Prop) evaluate_rec
    (vr : string → option (option Pattern.t)) graph incoming defs :
  (∀ e c1 v c2, e ∈ incoming → Ext c1 → evaluate_rec graph (Edge.source e) c1 = Some (v, c2) →
                vr (Edge.source e) = Some v ∧ Ext c2) →
  ∀ result c1 inputs c2,
    Ext c1 →
    getModifierInputs_loop evaluate_rec graph incoming defs result c1 = Some (inputs, c2) →
    valueInputs_loop vr incoming defs result = Some inputs ∧ Ext c2.
Proof.
  intros H.
  induction defs as [|[key label required|minCount label] rest IH];
    intros result c1 inputs c2 Hc1; simpl.
  - unfold Eval_ret. by intros [= <- <-].
  - destruct (keywordEdge incoming key) as [edge|] eqn:E; [|by apply IH].
    unfold Eval_bind.
    destruct (evaluate_rec graph (Edge.source edge) c1) as [[v c1']|] eqn:Ev; [|done].
    destruct (H edge c1 v c1') as [-> Hc1']; [by eapply keywordEdge_incoming|done..|].
    destruct v; by apply IH.
  - unfold Eval_bind.
    destruct (Eval_map _ _ c1) as [[results c1']|] eqn:Em; [|done].
    destruct (Eval_map_value Ext (evaluate_rec graph) vr (positionalEdges incoming)) with
      (c1 := c1) (results := results) (c2 := c1') as [-> Hc1']; [|done..|by apply IH].
    intros e c v c' He. apply H. by apply positionalEdges_incoming.
Qed.

Lemma extends_refl graph rank cache : extends graph rank cache cache.
Proof. split; [done|]. intros ?? H1 H2. congruence. Qed.

Lemma extends_insert graph rank base cache nodeId v :
  extends graph rank base cache →
  base !! nodeId = None →
  (∀ fuel, (rank nodeId < fuel)%nat → value fuel graph base nodeId = Some v) →
  extends graph rank base (<[nodeId := v]> cache).
Proof.
  intros [Hsub Hval] Hb Hv. split.
  - apply map_subseteq_spec. intros Y w HY.
    destruct (decide (nodeId = Y)) as [->|Hne]; [congruence|].
    rewrite lookup_insert_ne by done. by eapply lookup_weaken.
  - intros Y w HY. destruct (decide (nodeId = Y)) as [->|Hne].
    + rewrite lookup_insert_eq. intros [= <-]. exact Hv.
    + rewrite lookup_insert_ne by done. by apply Hval.
Qed.

Section upstream_value.
Context (graph : PatternFlowGraph) (rank : string → nat) (P : string → Prop).
Hypothesis P_ranked :
  ∀ e, e ∈ edges graph → P (Edge.target e) →
       P (Edge.source e) ∧ (rank (Edge.source e) < rank (Edge.target e))%nat.

Lemma evaluate_value_on base :
  ∀ fuel nodeId cache v cache',
    P nodeId →
    extends graph rank base cache →
    evaluate fuel graph nodeId cache = Some (v, cache') →
    (∀ F, (rank nodeId < F)%nat → value F graph base nodeId = Some v)
    ∧ extends graph rank base cache'.
Proof.
  intros fuel. induction fuel as [|fuel IH]; intros nodeId cache v cache' HP Hext; [done|].
  simpl. unfold evaluate_body.
  destruct (findNode graph nodeId) as [node|] eqn:Hnode.
  2:{ intros [= <- <-]. split; [|done]. intros [|F] HF; [lia|].
      simpl. unfold value_body. by rewrite Hnode. }
  destruct (cache !! nodeId) as [cached|] eqn:Hc.
  { intros [= <- <-]. split; [|done]. destruct Hext as [Hsub Hval].
    destruct (base !! nodeId) as [w|] eqn:Hb.
    - intros [|F] HF; [lia|]. simpl. unfold value_body. rewrite Hnode, Hb.
      eapply lookup_weaken in Hb; [|exact Hsub]. congruence.
    - by apply Hval. }
  assert (base !! nodeId = None) as Hb.
  { destruct Hext as [Hsub _]. destruct (base !! nodeId) as [w|] eqn:Hb; [|done].
    eapply lookup_weaken in Hb; [|exact Hsub]. congruence. }
  destruct (evaluateNode (evaluate fuel) graph node cache) as [[pattern c1]|] eqn:En; [|done].
  intros [= <- <-].
  assert ((∀ F, (rank nodeId < F)%nat → value F graph base nodeId = Some pattern)
          ∧ extends graph rank base c1) as (Hv & Hc1).
  2:{ split; [done|]. by apply extends_insert. }
  assert (∀ F, value (S F) graph base nodeId = valueNode (value F graph base) graph node)
    as Hstep.
  { intros F. simpl. unfold value_body. by rewrite Hnode, Hb. }
  unfold evaluateNode, evaluateModifier in En.
  destruct (Node.data node) as [p name|modifierType params count name] eqn:Hdata.
  { injection En as <- <-. split; [|done].
    intros [|F] HF; [lia|]. rewrite Hstep. unfold valueNode. by rewrite Hdata. }
  destruct (getModifier modifierType) as [modifier|] eqn:Hm.
  2:{ injection En as <- <-. split; [|done].
      intros [|F] HF; [lia|]. rewrite Hstep. unfold valueNode. by rewrite Hdata, Hm. }
  unfold Eval_bind, getModifierInputs in En.
  destruct (getModifierInputs_loop _ _ _ _ _ cache) as [[inputs c2]|] eqn:Hin; [|done].
  assert (∀ F, (rank nodeId ≤ F)%nat →
            valueInputs_loop (value F graph base) (incomingEdgesOf graph node)
              (ModifierDefinition.inputs modifier) (ModifierInputs.mk None None) = Some inputs
            ∧ extends graph rank base c2) as Hloop.
  { intros F HF.
    apply (getModifierInputs_loop_value (extends graph rank base) (evaluate fuel)
             (value F graph base) graph (incomingEdgesOf graph node)
             (ModifierDefinition.inputs modifier)) with (c1 := cache); [|done..].
    intros e c w c' He Hce Hev.
    apply incomingEdgesOf_spec in He as [He Ht].
    rewrite (findNode_id _ _ _ Hnode) in Ht.
    destruct (P_ranked e He) as [HPs Hlts]; [by rewrite Ht|]. rewrite Ht in Hlts.
    destruct (IH _ _ _ _ HPs Hce Hev) as [Hw Hc'].
    split; [apply Hw; lia|done]. }
  assert (extends graph rank base c2) as Hc2 by (by destruct (Hloop (rank nodeId))).
  assert (∀ F, (rank nodeId < F)%nat →
            value F graph base nodeId
            = Some (if inputsMeetRequirements (ModifierDefinition.inputs modifier) inputs
                    then applyModifier modifierType params inputs else None)) as Hval.
  { intros [|F] HF; [lia|]. rewrite Hstep. unfold valueNode. rewrite Hdata, Hm.
    destruct (Hloop F) as [-> _]; [lia|]. by destruct (inputsMeetRequirements _ _). }
  destruct (inputsMeetRequirements _ _); injection En as <- <-; done.
Qed.
End upstream_value.

Lemma evaluate_value graph rank base :
  ranked graph rank →
  ∀ fuel nodeId cache v cache',
    extends graph rank base cache →
    evaluate fuel graph nodeId cache = Some (v, cache') →
    (∀ F, (rank nodeId < F)%nat → value F graph base nodeId = Some v)
    ∧ extends graph rank base cache'.
Proof.
  intros Hr fuel nodeId cache v cache'.
  apply (evaluate_value_on graph rank (fun _ => True)); [|done].
  intros e He _. split; [done|]. by apply Hr.
Qed.

(** ** Sorting with and without one element *)

Section sort_omit.
Context {A : Type} (gt : A → A → bool) (P : A → Prop).
Hypothesis gt_asym : ∀ x y, P x → P y → gt x y = true → gt y x = false.
Hypothesis le_trans :
  ∀ x y z, P x → P y → P z → gt x y = false → gt y z = false → gt x z = false.

Let le (x y : A) : Prop := gt x y = false.

Lemma sort_insert_sorted_on x l :
  P x → Forall P l → StronglySorted le l → StronglySorted le (sort_insert gt x l).
Proof.
  intros Hx HP Hs. induction Hs as [|y l Hl IH Hy]; simpl.
  - repeat constructor.
  - apply Forall_cons in HP as [HPy HPl].
    destruct (gt x y) eqn:G.
    + constructor; [by apply IH|].
      rewrite sort_insert_perm. constructor; [|done]. by apply gt_asym.
    + constructor; [by constructor|]. constructor; [done|].
      rewrite Forall_forall in Hy, HPl |- *. intros z Hz.
      apply (le_trans x y z); [done|done|by apply HPl|done|by apply Hy].
Qed.

Lemma Array_sort_sorted_on l : Forall P l → StronglySorted le (Array_sort gt l).
Proof.
  induction l as [|x l IH]; intros HP; simpl; [constructor|].
  apply Forall_cons in HP as [Hx HP]. apply sort_insert_sorted_on; auto.
  by rewrite Array_sort_perm.
Qed.

Lemma sort_insert_omit x a e b :
  P x → Forall P (a ++ e :: b) → StronglySorted le (a ++ e :: b) →
  ∃ a' b', sort_insert gt x (a ++ e :: b) = a' ++ e :: b'
           ∧ sort_insert gt x (a ++ b) = a' ++ b'.
Proof.
  intros Hx. induction a as [|y a IH]; simpl; intros HP Hs.
  - apply Forall_cons in HP as [He HP].
    apply StronglySorted_inv in Hs as [Hs Heb].
    destruct (gt x e) eqn:G.
    + by exists [], (sort_insert gt x b).
    + exists [x], b. split; [done|].
      destruct b as [|z b]; [done|]. simpl.
      apply Forall_cons in Heb as [Hez _]. apply Forall_cons in HP as [Hz _].
      by rewrite (le_trans x e z).
  - apply Forall_cons in HP as [Hy HP].
    apply StronglySorted_inv in Hs as [Hs _].
    destruct (gt x y) eqn:G.
    + destruct (IH HP Hs) as (a' & b' & -> & ->). by exists (y :: a'), b'.
    + by exists (x :: y :: a), b.
Qed.

Lemma Array_sort_omit l1 e l2 :
  Forall P (l1 ++ e :: l2) →
  ∃ a b, Array_sort gt (l1 ++ e :: l2) = a ++ e :: b ∧ Array_sort gt (l1 ++ l2) = a ++ b.
Proof.
  induction l1 as [|x l1 IH]; simpl; intros HP.
  - destruct (sort_insert_split gt e (Array_sort gt l2)) as (a & b & -> & -> & _).
    by exists a, b.
  - apply Forall_cons in HP as [Hx HP].
    destruct (IH HP) as (a & b & Ea & Eb).
    fold (Array_sort gt (l1 ++ e :: l2)). fold (Array_sort gt (l1 ++ l2)).
    rewrite Ea, Eb. apply sort_insert_omit; [done|..].
    + rewrite <- Ea. by rewrite Array_sort_perm.
    + rewrite <- Ea. by apply Array_sort_sorted_on.
Qed.
End sort_omit.

Lemma elem_of_filter_around {A} (Q : A → Prop) `{!∀ x, Decision (Q x)} (i1 i2 : list A) e x :
  x ∈ filter Q i1 ++ e :: filter Q i2 → x ∈ i1 ++ e :: i2 ∧ (x = e ∨ Q x).
Proof.
  rewrite !elem_of_app, !elem_of_cons, !list_elem_of_filter. tauto.
Qed.

Lemma positionalEdges_omit i1 e i2 :
  isPositionalEdge e = true →
  (∀ e', e' ∈ i1 ++ e :: i2 → isPositionalEdge e' = true → is_Some (positionalIndex e')) →
  ∃ a b, positionalEdges (i1 ++ e :: i2) = a ++ e :: b ∧ positionalEdges (i1 ++ i2) = a ++ b.
Proof.
  intros He Hwf. unfold positionalEdges.
  rewrite !filter_app, filter_cons_True by done.
  apply (Array_sort_omit byPositionalIndex (fun e' => is_Some (positionalIndex e'))).
  - intros x y [ix Hx] [iy Hy]. unfold byPositionalIndex. rewrite Hx, Hy.
    rewrite bool_decide_eq_true, bool_decide_eq_false. lia.
  - intros x y z [ix Hx] [iy Hy] [iz Hz]. unfold byPositionalIndex. rewrite Hx, Hy, Hz.
    rewrite !bool_decide_eq_false. lia.
  - rewrite Forall_forall. intros x Hx.
    apply elem_of_filter_around in Hx as [Hin [->|Hpos]]; by apply Hwf.
Qed.

(** ** Omitting a positional edge whose source is null *)

Lemma mapM_omit_null {A B} (f : A → option (option B)) a e b :
  f e = Some None →
  omap id <$> mapM f (a ++ e :: b) = omap id <$> mapM f (a ++ b).
Proof.
  intros He. induction a as [|x a IH]; simpl.
  - rewrite He. simpl. destruct (mapM f b); done.
  - destruct (f x) as [y|]; simpl; [|done].
    destruct (mapM f (a ++ e :: b)) as [r1|], (mapM f (a ++ b)) as [r2|];
      simpl in *; try done.
    injection IH as IH.
    change (Some (omap id ([y] ++ r1)) = Some (omap id ([y] ++ r2))).
    by rewrite !omap_app, IH.
Qed.

Lemma keywordEdge_omit i1 e i2 key :
  Edge.targetHandle e ≠ Some key →
  keywordEdge (i1 ++ e :: i2) key = keywordEdge (i1 ++ i2) key.
Proof.
  intros Hne. unfold keywordEdge. induction i1 as [|x i1 IH]; simpl.
  - by rewrite bool_decide_eq_false_2.
  - by rewrite IH.
Qed.

Lemma valueInputs_loop_omit (vr : string → option (option Pattern.t)) i1 e i2 defs result :
  isPositionalEdge e = true →
  (∀ key label required, KeywordInput key label required ∈ defs →
                         Edge.targetHandle e ≠ Some key) →
  (∀ e', e' ∈ i1 ++ e :: i2 → isPositionalEdge e' = true → is_Some (positionalIndex e')) →
  vr (Edge.source e) = Some None →
  valueInputs_loop vr (i1 ++ e :: i2) defs result = valueInputs_loop vr (i1 ++ i2) defs result.
Proof.
  intros He Hkey Hwf Hnull. revert result.
  induction defs as [|[key label required|minCount label] rest IH]; intros result; simpl.
  - done.
  - rewrite keywordEdge_omit by (eapply Hkey; by left).
    assert (∀ r, valueInputs_loop vr (i1 ++ e :: i2) rest r
                 = valueInputs_loop vr (i1 ++ i2) rest r) as IH'.
    { apply IH. intros ??? H. eapply Hkey. by right. }
    destruct (keywordEdge (i1 ++ i2) key) as [edge|]; [|apply IH'].
    destruct (vr (Edge.source edge)) as [[?|]|]; [apply IH'..|done].
  - destruct (positionalEdges_omit i1 e i2 He Hwf) as (a & b & -> & ->).
    pose proof (mapM_omit_null (fun e => vr (Edge.source e)) a e b Hnull) as Hm.
    assert (∀ r, valueInputs_loop vr (i1 ++ e :: i2) rest r
                 = valueInputs_loop vr (i1 ++ i2) rest r) as IH'.
    { apply IH. intros ??? H. eapply Hkey. by right. }
    destruct (mapM _ (a ++ e :: b)) as [r1|], (mapM _ (a ++ b)) as [r2|]; simpl in Hm;
      try done.
    injection Hm as ->. apply IH'.
Qed.

Lemma mapM_ext_in {A B} (f g : A → option B) l :
  (∀ x, x ∈ l → f x = g x) → mapM f l = mapM g l.
Proof.
  induction l as [|x l IH]; intros H; simpl; [done|].
  rewrite (H x) by by left. rewrite IH; [done|]. intros z Hz. apply H. by right.
Qed.

Lemma valueInputs_loop_ext (vr vr' : string → option (option Pattern.t)) incoming defs result :
  (∀ e, e ∈ incoming → vr (Edge.source e) = vr' (Edge.source e)) →
  valueInputs_loop vr incoming defs result = valueInputs_loop vr' incoming defs result.
Proof.
  intros H. revert result.
  induction defs as [|[key label required|minCount label] rest IH]; intros result; simpl.
  - done.
  - destruct (keywordEdge incoming key) as [edge|] eqn:E; [|apply IH].
    rewrite (H edge) by (by eapply keywordEdge_incoming).
    destruct (vr' (Edge.source edge)) as [[?|]|]; [apply IH..|done].
  - rewrite (mapM_ext_in (fun e => vr (Edge.source e)) (fun e => vr' (Edge.source e))).
    + destruct (mapM _ _); [apply IH|done].
    + intros e He. apply H. by apply positionalEdges_incoming.
Qed.

Lemma ranked_omitEdge ns before e after rank :
  ranked {| nodes := ns; edges := before ++ e :: after |} rank →
  ranked (omitEdge ns before after) rank.
Proof.
  intros Hr e' He'. apply Hr. simpl in *.
  rewrite elem_of_app in He'. rewrite elem_of_app, elem_of_cons. tauto.
Qed.

Lemma value_omit_upstream ns before e after rank cache :
  ranked {| nodes := ns; edges := before ++ e :: after |} rank →
  ∀ fuel nodeId,
    (rank nodeId < rank (Edge.target e))%nat →
    value fuel {| nodes := ns; edges := before ++ e :: after |} cache nodeId
    = value fuel (omitEdge ns before after) cache nodeId.
Proof.
  intros Hr fuel. induction fuel as [|fuel IH]; intros nodeId Hlt; [done|].
  simpl. unfold value_body.
  change (findNode (omitEdge ns before after) nodeId)
    with (findNode {| nodes := ns; edges := before ++ e :: after |} nodeId).
  destruct (findNode _ nodeId) as [node|] eqn:Hnode; [|done].
  destruct (cache !! nodeId); [done|].
  unfold valueNode. destruct (Node.data node); [done|].
  destruct (getModifier modifierType) as [modifier|]; [|done].
  assert (incomingEdgesOf (omitEdge ns before after) node
          = incomingEdgesOf {| nodes := ns; edges := before ++ e :: after |} node) as ->.
  { unfold incomingEdgesOf. simpl. rewrite !filter_app, filter_cons_False; [done|].
    rewrite (findNode_id _ _ _ Hnode). intros Ht. rewrite Ht in Hlt. lia. }
  erewrite valueInputs_loop_ext; [done|].
  intros e' He'. apply IH. apply incomingEdgesOf_spec in He' as [He' Ht].
  apply Hr in He'. rewrite Ht, (findNode_id _ _ _ Hnode) in He'. lia.
Qed.

Lemma keyword_is_not_positional m key label required e :
  m ∈ registeredModifiers →
  KeywordInput key label required ∈ ModifierDefinition.inputs m →
  isPositionalEdge e = true →
  Edge.targetHandle e ≠ Some key.
Proof.
  intros Hm Hk He Heq.
  destruct (registered_inputs m Hm) as [Hi|Hi]; rewrite Hi in Hk.
  - apply list_elem_of_singleton in Hk. unfold patternInput in Hk. injection Hk as -> _ _.
    unfold isPositionalEdge in He. rewrite Heq in He. done.
  - apply list_elem_of_singleton in Hk. done.
Qed.

Lemma value_omit_null_edge ns before e after rank cache fuel :
  ranked {| nodes := ns; edges := before ++ e :: after |} rank →
  isPositionalEdge e = true →
  (∀ e', e' ∈ before ++ e :: after → Edge.target e' = Edge.target e →
         isPositionalEdge e' = true → is_Some (positionalIndex e')) →
  value fuel {| nodes := ns; edges := before ++ e :: after |} cache (Edge.source e)
  = Some None →
  value (S fuel) {| nodes := ns; edges := before ++ e :: after |} cache (Edge.target e)
  = value (S fuel) (omitEdge ns before after) cache (Edge.target e).
Proof.
  intros Hr He Hwf Hnull. simpl. unfold value_body.
  change (findNode (omitEdge ns before after) (Edge.target e))
    with (findNode {| nodes := ns; edges := before ++ e :: after |} (Edge.target e)).
  destruct (findNode _ (Edge.target e)) as [node|] eqn:Hnode; [|done].
  destruct (cache !! Edge.target e); [done|].
  unfold valueNode. destruct (Node.data node); [done|].
  destruct (getModifier modifierType) as [modifier|] eqn:Hm; [|done].
  pose proof (findNode_id _ _ _ Hnode) as Hid.
  assert (incomingEdgesOf {| nodes := ns; edges := before ++ e :: after |} node
          = filter (fun e' => Edge.target e' = Node.id node) before
            ++ e :: filter (fun e' => Edge.target e' = Node.id node) after) as ->.
  { unfold incomingEdgesOf. simpl. by rewrite filter_app, filter_cons_True. }
  assert (incomingEdgesOf (omitEdge ns before after) node
          = filter (fun e' => Edge.target e' = Node.id node) before
            ++ filter (fun e' => Edge.target e' = Node.id node) after) as ->.
  { unfold incomingEdgesOf. simpl. by rewrite filter_app. }
  rewrite (valueInputs_loop_omit (value fuel _ cache)); try done.
  - erewrite valueInputs_loop_ext; [done|].
    intros e' He'. apply (value_omit_upstream ns before e after rank cache Hr).
    assert (e' ∈ before ++ e :: after ∧ Edge.target e' = Edge.target e) as [Hin Ht].
    { rewrite <- Hid. revert He'.
      rewrite !elem_of_app, !elem_of_cons, !list_elem_of_filter. tauto. }
    apply Hr in Hin. by rewrite Ht in Hin.
  - intros key label required Hk. eapply keyword_is_not_positional; [|done..].
    by eapply getModifier_registered.
  - intros e' He'.
    apply elem_of_filter_around in He' as [Hin [->|Ht]]; apply Hwf; try done.
    by rewrite <- Hid.
Qed.

Lemma value_positional_modifier fuel graph cache nodeId node modifierType params count name
    modifier minCount label values :
  findNode graph nodeId = Some node →
  cache !! nodeId = None →
  Node.data node = ModifierNodeData modifierType params count name →
  getModifier modifierType = Some modifier →
  PositionalInput minCount label ∈ ModifierDefinition.inputs modifier →
  positionalValues fuel graph cache node = Some values →
  value (S fuel) graph cache nodeId
  = Some (if Z.of_nat (length (omap id values)) <? minCount then None
          else applyModifier modifierType params
                 (ModifierInputs.mk None (Some (omap id values)))).
Proof.
  intros Hnode Hc Hdata Hm Hpos Hv. simpl. unfold value_body, valueNode.
  rewrite Hnode, Hc, Hdata, Hm.
  destruct (registered_inputs modifier (getModifier_registered _ _ Hm)) as [Hi|Hi];
    rewrite Hi in Hpos |- *; apply list_elem_of_singleton in Hpos; [done|].
  injection Hpos as -> ->. simpl. unfold positionalValues in Hv. rewrite Hv. simpl.
  by destruct (_ <? 2).
Qed.

(** C5: on a graph without cycles whose positional handles carry an index,
    when the source of a positional edge into a node evaluates to null,
    evaluating the node returns the same result as on the graph without
    that edge; and for a modifier with a positional input the nulls are
    removed from the sequence of upstream values before the count is
    compared with [minCount] and before the transform is applied. *)
Theorem null_positional_input_is_omitted (ns : list Node.t) (before after : list Edge.t)
    (e : Edge.t) (rank : string → nat) (cache cache0 : Cache) (fuel fuel0 : nat) :
  let graph := {| nodes := ns; edges := before ++ e :: after |} in
  ranked graph rank →
  isPositionalEdge e = true →
  (∀ e', e' ∈ edges graph → Edge.target e' = Edge.target e →
         isPositionalEdge e' = true → is_Some (positionalIndex e')) →
  evaluate fuel0 graph (Edge.source e) cache = Some (None, cache0) →
  (rank (Edge.target e) ≤ fuel)%nat →
  ∃ result cache1 cache2,
    evaluate (S fuel) graph (Edge.target e) cache = Some (result, cache1)
    ∧ evaluate (S fuel) (omitEdge ns before after) (Edge.target e) cache = Some (result, cache2)
    ∧ ∀ node modifierType params count name modifier minCount label,
        findNode graph (Edge.target e) = Some node →
        cache !! Edge.target e = None →
        Node.data node = ModifierNodeData modifierType params count name →
        getModifier modifierType = Some modifier →
        PositionalInput minCount label ∈ ModifierDefinition.inputs modifier →
        ∃ values,
          positionalValues fuel graph cache node = Some values
          ∧ result = if Z.of_nat (length (omap id values)) <? minCount then None
                     else applyModifier modifierType params
                            (ModifierInputs.mk None (Some (omap id values))).
Proof.
  intros graph Hr He Hwf Hnull Hfuel.
  pose proof (ranked_omitEdge _ _ _ _ _ Hr) as Hr'.
  destruct (evaluate_terminates graph rank Hr (S fuel) (Edge.target e) cache)
    as [[result cache1] H1]; [lia|].
  destruct (evaluate_terminates _ rank Hr' (S fuel) (Edge.target e) cache)
    as [[result' cache2] H2]; [lia|].
  destruct (evaluate_value graph rank cache Hr _ _ _ _ _ (extends_refl _ _ _) H1) as [V1 _].
  destruct (evaluate_value _ rank cache Hr' _ _ _ _ _ (extends_refl _ _ _) H2) as [V2 _].
  destruct (evaluate_value graph rank cache Hr _ _ _ _ _ (extends_refl _ _ _) Hnull) as [V0 _].
  assert (rank (Edge.source e) < rank (Edge.target e))%nat as Hlt.
  { apply Hr. simpl. rewrite elem_of_app, elem_of_cons. auto. }
  assert (value (S fuel) graph cache (Edge.target e) = Some result) as V1' by (apply V1; lia).
  assert (value (S fuel) (omitEdge ns before after) cache (Edge.target e) = Some result')
    as V2' by (apply V2; lia).
  assert (value fuel graph cache (Edge.source e) = Some None) as V0' by (apply V0; lia).
  assert (result' = result) as ->.
  { unfold graph in V1'.
    rewrite (value_omit_null_edge ns before e after rank cache fuel Hr He Hwf V0') in V1'.
    congruence. }
  exists result, cache1, cache2. split; [done|]. split; [done|].
  intros node modifierType params count name modifier minCount label Hnode Hc Hdata Hm Hpos.
  destruct (mapM_total (fun e' => value fuel graph cache (Edge.source e'))
              (positionalEdges (incomingEdgesOf graph node))) as [values Hv].
  { intros e' He'. apply (value_total graph rank Hr).
    apply positionalEdges_incoming, incomingEdgesOf_spec in He' as [He' Ht].
    apply Hr in He'. rewrite Ht, (findNode_id _ _ _ Hnode) in He'. lia. }
  exists values. split; [done|].
  pose proof (value_positional_modifier fuel graph cache _ _ _ _ _ _ _ _ _ _
                Hnode Hc Hdata Hm Hpos Hv) as Hval.
  rewrite V1' in Hval. by injection Hval.
Qed.

Lemma null_positional_input_is_omitted_witness :
  ∃ result cache1 cache2,
    evaluate 3 exampleGraph "C" ∅ = Some (result, cache1)
    ∧ evaluate 3
        (omitEdge (nodes exampleGraph)
           [Edge.mk "e1" "A" "B" (Some "pattern"%string); Edge.mk "e2" "A" "C" (Some "pos-0"%string)]
           [Edge.mk "e4" "B" "C" (Some "pos-2"%string)])
        "C" ∅ = Some (result, cache2).
Proof.
  destruct (null_positional_input_is_omitted (nodes exampleGraph)
              [Edge.mk "e1" "A" "B" (Some "pattern"%string);
               Edge.mk "e2" "A" "C" (Some "pos-0"%string)]
              [Edge.mk "e4" "B" "C" (Some "pos-2"%string)]
              (Edge.mk "e3" "N" "C" (Some "pos-1"%string))
              exampleRank ∅ {[ "N"%string := None ]} 2 1)
    as (result & cache1 & cache2 & H1 & H2 & _).
  - exact exampleGraph_ranked.
  - done.
  - intros e' He' Ht Hp. simpl in He'.
    repeat (apply elem_of_cons in He' as [->|He']); [..|by apply elem_of_nil in He'];
      first [by vm_compute in Hp|eexists; vm_compute; reflexivity].
  - by vm_compute.
  - vm_compute. lia.
  - by exists result, cache1, cache2.
Defined.

(** ** Cache invalidation *)

Lemma enqueueTargets_eq visited out downstream queue :
  enqueueTargets visited out downstream queue
  = (list_to_set (newTargets visited out) ∪ downstream, queue ++ newTargets visited out).
Proof.
  unfold enqueueTargets, newTargets. revert downstream queue.
  induction out as [|e out IH]; intros downstream queue; cbn [foldl].
  - simpl. rewrite app_nil_r. f_equal. set_solver.
  - rewrite fmap_cons. destruct (decide (Edge.target e ∈ visited)) as [Hv|Hv].
    + rewrite filter_cons_False by (intros H; by apply H). apply IH.
    + rewrite filter_cons_True by done. rewrite IH, <- app_assoc. simpl.
      f_equal. set_solver.
Qed.

Lemma elem_of_newTargets visited out x :
  x ∈ newTargets visited out ↔ x ∉ visited ∧ ∃ e, e ∈ out ∧ Edge.target e = x.
Proof.
  unfold newTargets. rewrite list_elem_of_filter, list_elem_of_fmap. naive_solver.
Qed.

Lemma length_newTargets visited out : (length (newTargets visited out) ≤ length out)%nat.
Proof.
  unfold newTargets. etrans; [apply length_filter|]. by rewrite length_fmap.
Qed.

Lemma pendingEdges_visit graph visited current :
  current ∉ visited →
  (length (pendingEdges graph ({[current]} ∪ visited))
   + length (filter (fun e => Edge.source e = current) (edges graph))
   = length (pendingEdges graph visited))%nat.
Proof.
  intros Hc. unfold pendingEdges. induction (edges graph) as [|e l IH]; [done|].
  destruct (decide (Edge.source e = current)) as [He|He].
  - rewrite (filter_cons_True (fun e => Edge.source e = current)) by done.
    rewrite (filter_cons_True (fun e => Edge.source e ∉ visited)) by (by rewrite He).
    rewrite filter_cons_False by set_solver. simpl. lia.
  - rewrite (filter_cons_False (fun e => Edge.source e = current)) by done.
    destruct (decide (Edge.source e ∈ visited)) as [Hv|Hv].
    + rewrite !filter_cons_False by set_solver. done.
    + rewrite !filter_cons_True by set_solver. simpl. lia.
Qed.

Lemma bfsInvariant_skip graph nodeId downstream current rest visited :
  current ∈ visited →
  bfsInvariant graph nodeId downstream (current :: rest) visited →
  bfsInvariant graph nodeId downstream rest visited.
Proof.
  intros Hc (I1 & I2 & I3 & I4 & I5). repeat split; try done.
  - intros x Hx. apply I1. by right.
  - intros x y Hx Hxy. destruct (I4 x y Hx Hxy) as [?|H]; [by left|].
    apply elem_of_cons in H as [->|?]; auto.
  - destruct I5 as [?|H]; [by left|]. apply elem_of_cons in H as [->|?]; auto.
Qed.

Lemma bfsInvariant_visit graph nodeId downstream current rest visited :
  current ∉ visited →
  bfsInvariant graph nodeId downstream (current :: rest) visited →
  let visited' := {[current]} ∪ visited in
  let added := newTargets visited' (filter (fun e => Edge.source e = current) (edges graph)) in
  bfsInvariant graph nodeId (list_to_set added ∪ downstream) (rest ++ added) visited'.
Proof.
  intros Hc (I1 & I2 & I3 & I4 & I5) visited' added.
  assert (∀ x, x ∈ added ↔ x ∉ visited' ∧ edgeTo graph current x) as Hadded.
  { intros x. unfold added. rewrite elem_of_newTargets. unfold edgeTo.
    split; intros [Hx (e & He & Ht)]; (split; [done|]); exists e.
    - apply list_elem_of_filter in He as [??]. done.
    - split; [|tauto]. apply list_elem_of_filter. tauto. }
  assert (current = nodeId ∨ tc (edgeTo graph) nodeId current) as Hcur.
  { destruct (I1 current) as [?|?]; [by left|by left|right; by apply I3]. }
  repeat split.
  - intros x Hx. apply elem_of_app in Hx as [Hx|Hx].
    + destruct (I1 x) as [?|?]; [by right|by left|]. right. set_solver.
    + right. set_solver.
  - intros x Hx. apply elem_of_union in Hx as [Hx|Hx].
    + apply elem_of_singleton in Hx as ->. destruct (I1 current) as [?|?]; [by left|by left|].
      right. set_solver.
    + destruct (I2 x Hx) as [?|?]; [by left|]. right. set_solver.
  - intros x Hx. apply elem_of_union in Hx as [Hx|Hx]; [|by apply I3].
    apply elem_of_list_to_set, Hadded in Hx as [_ Hx].
    destruct Hcur as [->|Hcur]; [by apply tc_once|]. eapply tc_r; done.
  - intros x y Hx Hxy. apply elem_of_union in Hx as [Hx|Hx].
    + apply elem_of_singleton in Hx as ->.
      destruct (decide (y ∈ visited')); [by left|]. right.
      apply elem_of_app. right. by apply Hadded.
    + destruct (I4 x y Hx Hxy) as [?|H]; [left; set_solver|].
      apply elem_of_cons in H as [->|?]; [left; set_solver|].
      right. apply elem_of_app. by left.
  - destruct I5 as [?|H]; [left; set_solver|].
    apply elem_of_cons in H as [->|?]; [left; set_solver|].
    right. apply elem_of_app. by left.
Qed.

Lemma bfsInvariant_done graph nodeId downstream visited :
  bfsInvariant graph nodeId downstream [] visited →
  ∀ k, downstreamOrSelf graph nodeId k ↔ k = nodeId ∨ k ∈ downstream.
Proof.
  intros (I1 & I2 & I3 & I4 & I5) k. split.
  - assert (nodeId ∈ visited) as Hn by (destruct I5 as [?|H]; [done|by apply elem_of_nil in H]).
    intros Hk. apply I2. unfold downstreamOrSelf in Hk.
    revert k Hk. apply (rtc_ind_r (fun k => k ∈ visited)); [done|].
    intros y z _ Hyz IHk.
    destruct (I4 y z IHk Hyz) as [?|H]; [done|by apply elem_of_nil in H].
  - intros [->|Hk]; [apply rtc_refl|]. by apply tc_rtc, I3.
Qed.

Lemma getDownstreamNodes_loop_correct graph nodeId fuel downstream queue visited :
  bfsInvariant graph nodeId downstream queue visited →
  (length queue + length (pendingEdges graph visited) ≤ fuel)%nat →
  ∃ result,
    getDownstreamNodes_loop fuel graph downstream queue visited = Some result
    ∧ ∀ k, downstreamOrSelf graph nodeId k ↔ k = nodeId ∨ k ∈ result.
Proof.
  revert downstream queue visited.
  induction fuel as [|fuel IH]; intros downstream queue visited Hinv Hfuel;
    (destruct queue as [|current rest];
     [exists downstream; split; [done|by eapply bfsInvariant_done]|]).
  - simpl in Hfuel. lia.
  - simpl. destruct (decide (current ∈ visited)) as [Hc|Hc].
    + apply IH; [by eapply bfsInvariant_skip|simpl in Hfuel; lia].
    + rewrite enqueueTargets_eq. apply IH; [by apply bfsInvariant_visit|].
      pose proof (pendingEdges_visit graph visited current Hc).
      pose proof (length_newTargets ({[current]} ∪ visited)
                    (filter (fun e => Edge.source e = current) (edges graph))).
      rewrite length_app. simpl in Hfuel. lia.
Qed.

Lemma delete_all_lookup (l : list string) (c : Cache) k :
  foldl (fun c x => delete x c) c l !! k = if decide (k ∈ l) then None else c !! k.
Proof.
  revert c. induction l as [|x l IH]; intros c; simpl; [done|].
  rewrite IH. destruct (decide (k ∈ l)) as [Hl|Hl].
  - rewrite decide_True by (by right). done.
  - destruct (decide (x = k)) as [->|Hne].
    + rewrite decide_True by (by left). apply lookup_delete_eq.
    + rewrite decide_False by (intros H; apply elem_of_cons in H as [?|?]; congruence).
      by apply lookup_delete_ne.
Qed.

(** C4: [invalidateNode] ends within one iteration per edge plus one, and
    leaves a cache without the entry of [nodeId] and without the entry of
    any node reachable from it along the edges; every other entry is as
    before. *)
Theorem invalidateNode_evicts_downstream (graph : PatternFlowGraph) (nodeId : string)
    (cache : Cache) (fuel : nat) :
  (length (edges graph) < fuel)%nat →
  ∃ cache',
    invalidateNode fuel graph nodeId cache = Some cache'
    ∧ (∀ k, downstreamOrSelf graph nodeId k → cache' !! k = None)
    ∧ (∀ k, ¬ downstreamOrSelf graph nodeId k → cache' !! k = cache !! k).
Proof.
  intros Hfuel. unfold invalidateNode, getDownstreamNodes.
  destruct (getDownstreamNodes_loop_correct graph nodeId fuel ∅ [nodeId] ∅)
    as (result & -> & Hres).
  - repeat split; try set_solver.
  - assert (length (pendingEdges graph ∅) ≤ length (edges graph))%nat by apply length_filter.
    simpl. lia.
  - eexists. split; [done|]. split; intros k Hk; rewrite delete_all_lookup.
    + apply Hres in Hk as [->|Hk].
      * case_decide; [done|]. apply lookup_delete_eq.
      * rewrite decide_True; [done|]. by apply elem_of_elements.
    + assert (k ≠ nodeId ∧ k ∉ result) as [Hne Hnot].
      { split; intros H; apply Hk, Hres; auto. }
      rewrite decide_False by (by rewrite elem_of_elements).
      by apply lookup_delete_ne.
Qed.

Lemma invalidateNode_evicts_downstream_witness :
  ∃ cache',
    invalidateNode 5 exampleGraph "A" {[ "A"%string := None ]} = Some cache'
    ∧ (∀ k, downstreamOrSelf exampleGraph "A" k → cache' !! k = None)
    ∧ (∀ k, ¬ downstreamOrSelf exampleGraph "A" k →
            cache' !! k = ({[ "A"%string := None ]} : Cache) !! k).
Proof.
  apply (invalidateNode_evicts_downstream exampleGraph "A" {[ "A"%string := None ]} 5).
  simpl. lia.
Defined.

(** ** Cycle detection: lists and walks *)

Lemma indexOf_drop path x :
  x ∈ path → ∃ i rest, indexOf path x = Some i ∧ drop i path = x :: rest.
Proof.
  induction path as [|y path IH]; intros Hx; [by apply elem_of_nil in Hx|].
  simpl. destruct (decide (y = x)) as [->|Hne].
  - by exists 0%nat, path.
  - apply elem_of_cons in Hx as [?|Hx]; [congruence|].
    destruct (IH Hx) as (i & rest & -> & Hd). by exists (S i), rest.
Qed.

Lemma walk_tail graph x l : walk graph (x :: l) → walk graph l.
Proof. destruct l as [|y l]; [done|]. by intros [_ ?]. Qed.

Lemma walk_drop graph i l : walk graph l → walk graph (drop i l).
Proof.
  revert l. induction i as [|i IH]; intros l Hl; [done|].
  destruct l as [|x l]; [done|]. simpl. apply IH. by eapply walk_tail.
Qed.

Lemma walk_snoc graph l y :
  walk graph l → (∀ p, last l = Some p → edgeTo graph p y) → walk graph (l ++ [y]).
Proof.
  induction l as [|x l IH]; intros Hl Hlast; [done|].
  destruct l as [|x' l].
  - simpl. split; [|done]. by apply Hlast.
  - destruct Hl as [Hxx' Hl]. split; [done|]. apply IH; [done|].
    intros p Hp. apply Hlast. by rewrite last_cons_cons.
Qed.

Lemma walk_tc graph x l y : walk graph (x :: l ++ [y]) → tc (edgeTo graph) x y.
Proof.
  revert x. induction l as [|z l IH]; intros x.
  - intros [H _]. by apply tc_once.
  - intros [H Hl]. eapply tc_l; [done|]. by apply IH.
Qed.

Lemma last_drop_cons {A} i (l : list A) x rest : drop i l = x :: rest → last l = last (x :: rest).
Proof.
  intros H. rewrite <- (take_drop i l), H, last_app.
  destruct (last (x :: rest)) eqn:E; [done|].
  rewrite last_cons in E. by destruct (last rest).
Qed.

Lemma NoDup_drop_of {A} i (l : list A) : NoDup l → NoDup (drop i l).
Proof.
  intros H. rewrite <- (take_drop i l) in H. by apply NoDup_app in H as (_ & _ & ?).
Qed.

Lemma cycleWitness_not_acyclic graph l : cycleWitness graph l → ¬ acyclic graph.
Proof.
  intros (first & rest & -> & _ & Hw) Hac. apply (Hac first). by eapply walk_tc.
Qed.

(** The witness a back edge produces. *)
Lemma back_edge_witness graph path nodeId target :
  NoDup path → walk graph path → last path = Some nodeId →
  edgeTo graph nodeId target → target ∈ path →
  cycleWitness graph (sliceFrom path (indexOf path target) ++ [target]).
Proof.
  intros Hnd Hw Hlast Hedge Hin.
  destruct (indexOf_drop path target Hin) as (i & rest & -> & Hd). simpl. rewrite Hd.
  exists target, rest. split; [done|]. split.
  - rewrite <- Hd. by apply NoDup_drop_of.
  - change (walk graph ((target :: rest) ++ [target])). apply walk_snoc.
    + rewrite <- Hd. by apply walk_drop.
    + intros p Hp. rewrite <- (last_drop_cons i path target rest Hd), Hlast in Hp.
      by injection Hp as <-.
Qed.

(** ** Cycle detection: the depth-first search *)

Lemma finished_closed_rtc graph st x y :
  finishedAcyclic graph st → x ∈ finished st → rtc (edgeTo graph) x y → y ∈ finished st.
Proof.
  intros [Hcl _] Hx Hxy. induction Hxy as [|x y z Hxy _ IH]; [done|].
  apply IH. by eapply Hcl.
Qed.

Lemma elem_of_finished st x :
  x ∈ finished st ↔ x ∈ DfsState.visited st ∧ x ∉ DfsState.recursionStack st.
Proof. unfold finished. apply elem_of_difference. Qed.

Lemma tc_first {A} (R : relation A) x z : tc R x z → ∃ y, R x y ∧ rtc R y z.
Proof.
  intros H. destruct H as [x z H|x y z H Htc].
  - exists z. split; [done|apply rtc_refl].
  - exists y. split; [done|by apply tc_rtc].
Qed.

Lemma finishedAcyclic_leave graph nodeId st :
  finishedAcyclic graph st →
  nodeId ∈ DfsState.visited st →
  nodeId ∈ DfsState.recursionStack st →
  (∀ y, edgeTo graph nodeId y → y ∈ finished st) →
  finishedAcyclic graph
    (DfsState.mk (DfsState.visited st) (DfsState.recursionStack st ∖ {[nodeId]})
       (DfsState.cycles st)).
Proof.
  intros Hfa Hv Hs Hsucc.
  assert (∀ x, x ∈ finished (DfsState.mk (DfsState.visited st)
                               (DfsState.recursionStack st ∖ {[nodeId]}) (DfsState.cycles st))
               ↔ x ∈ finished st ∨ x = nodeId) as Hfin.
  { intros x. rewrite !elem_of_finished. simpl.
    rewrite elem_of_difference, elem_of_singleton.
    destruct (decide (x = nodeId)) as [->|?]; [tauto|].
    destruct (decide (x ∈ DfsState.recursionStack st)); tauto. }
  split.
  - intros x y Hx Hxy. apply Hfin. left. apply Hfin in Hx as [Hx| ->].
    + destruct Hfa as [Hcl _]. by eapply Hcl.
    + by apply Hsucc.
  - intros x Hx Htc. apply Hfin in Hx as [Hx| ->].
    + destruct Hfa as [_ Hac]. by eapply Hac.
    + apply tc_first in Htc as (y & Hy & Hrtc).
      assert (nodeId ∈ finished st) as Hn.
      { eapply finished_closed_rtc; [done| |exact Hrtc]. by apply Hsucc. }
      apply elem_of_finished in Hn as [_ Hn]. done.
Qed.

Section dfs_edges_spec.
Context (graph : PatternFlowGraph) (fuel : nat) (nodeId : string) (path : list string).
Context (dfs_rec : string → list string → DfsState.t → option (bool * DfsState.t)).
Hypothesis dfs_rec_spec :
  ∀ target st,
    target ∉ DfsState.visited st → target ∈ allIds graph →
    pathIsStack graph path st →
    (∀ p, last path = Some p → edgeTo graph p target) →
    finishedAcyclic graph st →
    (size (allIds graph ∖ DfsState.visited st) ≤ fuel)%nat →
    ∃ r, dfs_rec target path st = Some r ∧ dfsResult graph target st r.
Hypothesis path_last : last path = Some nodeId.

Lemma dfs_edges_spec out st :
  (∀ e, e ∈ out → e ∈ edges graph ∧ Edge.source e = nodeId) →
  pathIsStack graph path st →
  finishedAcyclic graph st →
  (size (allIds graph ∖ DfsState.visited st) ≤ fuel)%nat →
  (∀ y, edgeTo graph nodeId y → (∃ e, e ∈ out ∧ Edge.target e = y) ∨ y ∈ finished st) →
  ∃ found st',
    dfs_edges dfs_rec nodeId path out st = Some (found, st')
    ∧ if found then
        ∃ c, DfsState.cycles st' = DfsState.cycles st ++ c ∧ cycleWitness graph c
      else
        DfsState.visited st ⊆ DfsState.visited st'
        ∧ DfsState.recursionStack st' = DfsState.recursionStack st ∖ {[nodeId]}
        ∧ DfsState.cycles st' = DfsState.cycles st
        ∧ finishedAcyclic graph st'.
Proof.
  revert st. induction out as [|e rest IH]; intros st Hout Hps Hfa Hsize Hsucc.
  - simpl. eexists false, _. split; [done|]. simpl.
    split; [done|]. split; [done|]. split; [done|].
    destruct Hps as (Hnd & Hw & Hstack & Hsv).
    assert (nodeId ∈ DfsState.recursionStack st) as Hn.
    { apply Hstack. apply last_Some_elem_of. exact path_last. }
    apply finishedAcyclic_leave; [done|by apply Hsv|done|].
    intros y Hy. destruct (Hsucc y Hy) as [(e & He & Ht)|?]; [by apply elem_of_nil in He|done].
  - destruct (Hout e) as [He Hsrc]; [by left|].
    assert (edgeTo graph nodeId (Edge.target e)) as Hedge by (by exists e).
    assert (∀ e', e' ∈ rest → e' ∈ edges graph ∧ Edge.source e' = nodeId) as Hout'.
    { intros e' He'. apply Hout. by right. }
    simpl. destruct (decide (Edge.target e ∉ DfsState.visited st)) as [Hv|Hv].
    + destruct (dfs_rec_spec (Edge.target e) st) as ([found st'] & -> & Hr); try done.
      { unfold allIds. rewrite elem_of_list_to_set, elem_of_app, !list_elem_of_fmap. eauto. }
      { intros p Hp. rewrite path_last in Hp. by injection Hp as <-. }
      destruct found.
      { exists true, st'. done. }
      destruct Hr as (Hvis & Hin & Hst & Hcy & Hfa').
      destruct Hps as (Hnd & Hw & Hstack & Hsv).
      destruct (IH st') as (found & st'' & -> & Hres); try done.
      { repeat split; try done.
        - intros Hx. apply Hstack. by rewrite <- Hst.
        - intros Hx. rewrite Hst. by apply Hstack.
        - rewrite Hst. set_solver. }
      { etrans; [|exact Hsize]. apply subseteq_size. set_solver. }
      { intros y Hy. destruct (Hsucc y Hy) as [(e' & He' & Ht)|Hf].
        - apply elem_of_cons in He' as [->|He']; [|left; eauto].
          right. apply elem_of_finished. rewrite Hst, <- Ht. split; [done|].
          intros Hs. apply Hv. by apply Hsv.
        - right. apply elem_of_finished in Hf as [??]. apply elem_of_finished.
          rewrite Hst. split; [by apply Hvis|done]. }
      exists found, st''. split; [done|]. destruct found.
      * destruct Hres as (c & Hc & Hcw). exists c. by rewrite Hc, Hcy.
      * destruct Hres as (Hvis' & Hst' & Hcy' & Hfa'').
        split; [by etrans|]. split; [by rewrite Hst', Hst|]. split; [by rewrite Hcy'|done].
    + destruct (decide (Edge.target e ∈ DfsState.recursionStack st)) as [Hs|Hs].
      * eexists true, _. split; [done|]. simpl. eexists. split; [done|].
        destruct Hps as (Hnd & Hw & Hstack & Hsv).
        apply (back_edge_witness graph path nodeId); try done. by apply Hstack.
      * apply IH; try done.
        intros y Hy. destruct (Hsucc y Hy) as [(e' & He' & Ht)|Hf]; [|by right].
        apply elem_of_cons in He' as [->|He']; [|left; eauto].
        right. apply elem_of_finished. rewrite <- Ht. split; [|done].
        by apply dec_stable.
Qed.
End dfs_edges_spec.

Lemma dfs_spec graph fuel :
  ∀ nodeId path st,
    nodeId ∉ DfsState.visited st → nodeId ∈ allIds graph →
    pathIsStack graph path st →
    (∀ p, last path = Some p → edgeTo graph p nodeId) →
    finishedAcyclic graph st →
    (size (allIds graph ∖ DfsState.visited st) ≤ fuel)%nat →
    ∃ r, dfs fuel graph nodeId path st = Some r ∧ dfsResult graph nodeId st r.
Proof.
  induction fuel as [|fuel IH]; intros nodeId path st Hv Hid Hps Hlast Hfa Hsize.
  { assert (size (allIds graph ∖ DfsState.visited st) = 0)%nat as Hz by lia.
    apply size_empty_iff in Hz. set_solver. }
  destruct Hps as (Hnd & Hw & Hstack & Hsv).
  assert (nodeId ∉ DfsState.recursionStack st) as Hns by set_solver.
  simpl. unfold dfs_body.
  set (st1 := DfsState.mk ({[nodeId]} ∪ DfsState.visited st)
                ({[nodeId]} ∪ DfsState.recursionStack st) (DfsState.cycles st)).
  destruct (dfs_edges_spec graph fuel nodeId (path ++ [nodeId]) (dfs fuel graph))
    with (out := filter (fun e => Edge.source e = nodeId) (edges graph)) (st := st1)
    as (found & st' & -> & Hres).
  - intros target st0. apply IH.
  - apply last_snoc.
  - intros e He. apply list_elem_of_filter in He. tauto.
  - repeat split.
    + apply NoDup_app. split; [done|]. split; [|apply NoDup_singleton].
      intros x Hx Hx'. apply list_elem_of_singleton in Hx' as ->. by apply Hns, Hstack.
    + by apply walk_snoc.
    + simpl. rewrite elem_of_union, elem_of_singleton, elem_of_app, list_elem_of_singleton.
      rewrite Hstack. tauto.
    + simpl. rewrite elem_of_union, elem_of_singleton, elem_of_app, list_elem_of_singleton.
      rewrite Hstack. tauto.
    + simpl. set_solver.
  - assert (finished st1 = finished st) as Hfin; [|by (destruct Hfa; split; rewrite Hfin)].
    unfold finished, st1. simpl. set_solver.
  - assert (allIds graph ∖ DfsState.visited st1 ⊂ allIds graph ∖ DfsState.visited st) as Hsub.
    { unfold st1. simpl. set_solver. }
    apply subset_size in Hsub. lia.
  - intros y (e & He & Hsrc & Ht). left. exists e. split; [|done].
    apply list_elem_of_filter. done.
  - exists (found, st'). split; [done|]. unfold dfsResult. destruct found; [done|].
    destruct Hres as (Hvis & Hst & Hcy & Hfa'). simpl in *.
    split; [set_solver|]. split; [set_solver|]. split; [|done].
    rewrite Hst. set_solver.
Qed.

Lemma detectCycles_loop_spec graph fuel ns st :
  (size (allIds graph) ≤ fuel)%nat →
  (∀ node, node ∈ ns → Node.id node ∈ allIds graph) →
  DfsState.recursionStack st = ∅ →
  DfsState.cycles st = [] →
  finishedAcyclic graph st →
  ∃ result,
    detectCycles_loop fuel graph ns st = Some result
    ∧ match result with
      | Some l => cycleWitness graph l
      | None =>
          ∃ st', DfsState.visited st ⊆ DfsState.visited st'
                 ∧ (∀ node, node ∈ ns → Node.id node ∈ DfsState.visited st')
                 ∧ DfsState.recursionStack st' = ∅
                 ∧ finishedAcyclic graph st'
      end.
Proof.
  intros Hfuel. revert st. induction ns as [|node rest IH]; intros st Hids Hstack Hcycles Hfa.
  - exists None. split; [done|]. exists st. split; [done|]. split; [|done].
    intros node Hn. by apply elem_of_nil in Hn.
  - assert (∀ n, n ∈ rest → Node.id n ∈ allIds graph) as Hids' by (intros; apply Hids; by right).
    simpl. destruct (decide (Node.id node ∉ DfsState.visited st)) as [Hv|Hv].
    + destruct (dfs_spec graph fuel (Node.id node) [] st) as ([found st'] & -> & Hr); try done.
      { apply Hids. by left. }
      { split; [apply NoDup_nil_2|]. split; [done|]. rewrite Hstack. split; set_solver. }
      { etrans; [|exact Hfuel]. apply subseteq_size. set_solver. }
      destruct found.
      { destruct Hr as (c & Hc & Hcw). exists (Some (DfsState.cycles st')).
        split; [done|]. by rewrite Hc, Hcycles. }
      destruct Hr as (Hvis & Hin & Hst & Hcy & Hfa').
      destruct (IH st') as (result & -> & Hres); try congruence; [done|].
      exists result. split; [done|]. destruct result as [l|]; [done|].
      destruct Hres as (st'' & Hvis' & Hall & Hst' & Hfa'').
      exists st''. split; [by etrans|]. split; [|done].
      intros n Hn. apply elem_of_cons in Hn as [->|Hn]; [by apply Hvis'|by apply Hall].
    + destruct (IH st) as (result & -> & Hres); try done.
      exists result. split; [done|]. destruct result as [l|]; [done|].
      destruct Hres as (st'' & Hvis' & Hall & Hst' & Hfa'').
      exists st''. split; [done|]. split; [|done].
      intros n Hn. apply elem_of_cons in Hn as [->|Hn]; [|by apply Hall].
      apply Hvis'. by apply dec_stable.
Qed.

Lemma size_allIds graph :
  (size (allIds graph) ≤ length (nodes graph) + length (edges graph))%nat.
Proof.
  unfold allIds.
  assert (∀ l : list string, size (list_to_set l : gset string) ≤ length l)%nat as H.
  { induction l as [|x l IH]; [rewrite list_to_set_nil, size_empty; simpl; lia|].
    rewrite list_to_set_cons, size_union_alt, size_singleton. simpl.
    assert (size (list_to_set l ∖ {[x]} : gset string) ≤ size (list_to_set l : gset string))%nat
      by (apply subseteq_size; set_solver). lia. }
  etrans; [apply H|]. by rewrite length_app, !length_fmap.
Qed.

(** C9 (amended): on a graph whose edges start at nodes of the graph,
    [detectCycles] ends within one nested call per node id, returns null
    exactly when the graph has no cycle, and otherwise returns a cyclic
    witness: the nodes of the search path from the node met again up to
    the current node, all distinct and joined by edges, closed by the node
    met again. *)
Theorem detectCycles_finds_cycle (graph : PatternFlowGraph) (fuel : nat) :
  edgesFromNodes graph →
  (length (nodes graph) + length (edges graph) ≤ fuel)%nat →
  ∃ result,
    detectCycles fuel graph = Some result
    ∧ (result = None ↔ acyclic graph)
    ∧ (∀ l, result = Some l → cycleWitness graph l).
Proof.
  intros Hwf Hfuel. unfold detectCycles.
  assert (size (allIds graph) ≤ fuel)%nat as Hsize by (etrans; [apply size_allIds|done]).
  assert (∀ node, node ∈ nodes graph → Node.id node ∈ allIds graph) as Hids.
  { intros node Hn. unfold allIds.
    rewrite elem_of_list_to_set, elem_of_app, list_elem_of_fmap. left. eauto. }
  assert (finishedAcyclic graph (DfsState.mk ∅ ∅ [])) as Hfa.
  { split; intros x; unfold finished; simpl; set_solver. }
  destruct (detectCycles_loop_spec graph fuel (nodes graph) (DfsState.mk ∅ ∅ [])
              Hsize Hids eq_refl eq_refl Hfa) as (result & Heq & Hres).
  exists result. split; [exact Heq|]. clear Heq. destruct result as [l|].
  - split; [|by intros ? [= <-]]. split; [done|].
    intros Hac. by apply cycleWitness_not_acyclic in Hres.
  - split; [|done]. split; [intros _|done].
    destruct Hres as (st' & _ & Hall & Hst & Hcl & Hac).
    intros x Hx. apply (Hac x); [|done].
    pose proof (tc_first _ _ _ Hx) as (y & (e & He & Hsrc & Ht) & Hrtc).
    destruct (Hwf e He) as (node & Hn & Hid).
    apply elem_of_finished. rewrite Hst. split; [|set_solver].
    rewrite <- Hsrc, <- Hid. by apply Hall.
Qed.

Lemma twoCycle_edgesFromNodes : edgesFromNodes twoCycle.
Proof.
  intros e He. unfold twoCycle in He. simpl in He.
  apply elem_of_cons in He as [->|He].
  { exists (Node.mk "A" (ModifierNodeData "reverse" ∅ None "a")). split; [by left|done]. }
  apply elem_of_cons in He as [->|He]; [|by apply elem_of_nil in He].
  exists (Node.mk "B" (ModifierNodeData "reverse" ∅ None "b")). split; [|done].
  right. by left.
Qed.

Lemma detectCycles_finds_cycle_witness :
  ∃ result,
    detectCycles 4 twoCycle = Some result
    ∧ (result = None ↔ acyclic twoCycle)
    ∧ (∀ l, result = Some l → cycleWitness twoCycle l).
Proof.
  apply (detectCycles_finds_cycle twoCycle 4).
  - exact twoCycle_edgesFromNodes.
  - simpl. lia.
Defined.

(** The example of the specification: on the edges A→B→A the witness is
    A, B, A. *)
Lemma detectCycles_twoCycle : detectCycles 4 twoCycle = Some (Some ["A"; "B"; "A"]%string).
Proof. by vm_compute. Qed.

(** C9 fails as stated: the search starts from the nodes of the graph
    only, so a cycle on ids that are the source of edges but no node of
    the graph is not found. *)
Lemma detectCycles_misses_dangling_cycle :
  (∀ fuel, detectCycles fuel danglingCycle = Some None) ∧ ¬ acyclic danglingCycle.
Proof.
  split; [done|]. intros Hac. apply (Hac "X"%string). apply tc_once.
  eexists. split; [by left|done].
Qed.
(** * Properties of the pattern functions *)

Lemma latestEnd_spec l acc :
  (acc ≤ latestEnd acc l)%Qc
  ∧ (∀ x, x ∈ l → (x.1 + Note.duration x.2 ≤ latestEnd acc l)%Qc)
  ∧ (latestEnd acc l = acc
     ∨ ∃ x, x ∈ l ∧ latestEnd acc l = (x.1 + Note.duration x.2)%Qc).
Proof.
  revert acc. induction l as [|[t n] l IH]; intros acc.
  { split; [apply Qcle_refl|]. split; [|by left]. intros x Hx. by apply elem_of_nil in Hx. }
  unfold latestEnd. cbn [foldl]. fold (latestEnd (if compare_gt (t + Note.duration n) acc
                                                  then (t + Note.duration n)%Qc else acc) l).
  destruct (IH (if compare_gt (t + Note.duration n) acc
                then (t + Note.duration n)%Qc else acc)) as (H1 & H2 & H3).
  destruct (compare_gt (t + Note.duration n) acc) eqn:E.
  - apply compare_gt_true in E. split; [|split].
    + eapply Qcle_trans; [apply Qclt_le_weak, E|apply H1].
    + intros x [->|Hx]%elem_of_cons; [apply H1|by apply H2].
    + right. destruct H3 as [->|(x & Hx & ->)].
      * exists (t, n). split; [apply list_elem_of_here|done].
      * exists x. split; [by apply list_elem_of_further|done].
  - apply compare_gt_false in E. split; [done|split].
    + intros x [->|Hx]%elem_of_cons; [by eapply Qcle_trans|by apply H2].
    + destruct H3 as [->|(x & Hx & ->)]; [by left|].
      right. exists x. split; [by apply list_elem_of_further|done].
Qed.

Lemma calculateDuration_latestEnd notes : calculateDuration notes = latestEnd (Q2Qc 0) notes.
Proof. by destruct notes. Qed.

(** X1: [calculateDuration] returns the latest end time of the notes,
    and never less than zero: it is at least 0 and at least the end
    (start plus duration) of every note, and it is 0 or the end of one of
    the notes. [getRealEndTime] computes the same value. *)
Theorem calculateDuration_latest_end (notes : list (Fraction * Note.t)) :
  (Q2Qc 0 ≤ calculateDuration notes)%Qc
  ∧ (∀ x, x ∈ notes → (x.1 + Note.duration x.2 ≤ calculateDuration notes)%Qc)
  ∧ (calculateDuration notes = Q2Qc 0
     ∨ ∃ x, x ∈ notes ∧ calculateDuration notes = (x.1 + Note.duration x.2)%Qc)
  ∧ ∀ pattern, getRealEndTime pattern = calculateDuration (Pattern.notes pattern).
Proof.
  rewrite calculateDuration_latestEnd.
  destruct (latestEnd_spec notes (Q2Qc 0)) as (H1 & H2 & H3).
  repeat split; try done.
Qed.

(** The loop of [getRealStartTime]. *)
Lemma earliestStart_spec (l : list (Fraction * Note.t)) acc :
  let r := foldl (fun minTime '(startTime, _) =>
                    if compare_lt startTime minTime then startTime else minTime) acc l in
  (r ≤ acc)%Qc ∧ (∀ x, x ∈ l → (r ≤ x.1)%Qc) ∧ (r = acc ∨ ∃ x, x ∈ l ∧ r = x.1).
Proof.
  revert acc. induction l as [|[t n] l IH]; intros acc; cbn [foldl].
  { split; [apply Qcle_refl|]. split; [|by left]. intros x Hx. by apply elem_of_nil in Hx. }
  destruct (IH (if compare_lt t acc then t else acc)) as (H1 & H2 & H3).
  destruct (compare_lt t acc) eqn:E.
  - apply compare_lt_true in E. split; [|split].
    + eapply Qcle_trans; [apply H1|by apply Qclt_le_weak].
    + intros x [->|Hx]%elem_of_cons; [apply H1|by apply H2].
    + right. destruct H3 as [->|(x & Hx & ->)].
      * exists (t, n). split; [apply list_elem_of_here|done].
      * exists x. split; [by apply list_elem_of_further|done].
  - apply compare_lt_false in E. split; [done|split].
    + intros x [->|Hx]%elem_of_cons; [by eapply Qcle_trans|by apply H2].
    + destruct H3 as [->|(x & Hx & ->)]; [by left|].
      right. exists x. split; [by apply list_elem_of_further|done].
Qed.

(** X2: [getRealStartTime] returns the earliest start time of the notes
    (which may be negative) and 0 for a pattern without notes; with
    [getRealEndTime] it encloses every note: realStart <= start, and
    start + duration <= realEnd. *)
Theorem getRealStartTime_earliest_start (pattern : Pattern.t) :
  (Pattern.notes pattern = [] → getRealStartTime pattern = Q2Qc 0
                                ∧ getRealEndTime pattern = Q2Qc 0)
  ∧ (Pattern.notes pattern ≠ [] →
     ∃ x, x ∈ Pattern.notes pattern ∧ getRealStartTime pattern = x.1)
  ∧ (∀ x, x ∈ Pattern.notes pattern →
       (getRealStartTime pattern ≤ x.1)%Qc
       ∧ (x.1 + Note.duration x.2 ≤ getRealEndTime pattern)%Qc).
Proof.
  unfold getRealStartTime, getRealEndTime.
  destruct (Pattern.notes pattern) as [|[t0 n0] l] eqn:E.
  { split; [done|]. split; [done|]. intros x Hx. by apply elem_of_nil in Hx. }
  destruct (earliestStart_spec ((t0, n0) :: l) t0) as (H1 & H2 & H3).
  destruct (latestEnd_spec ((t0, n0) :: l) (Q2Qc 0)) as (G1 & G2 & G3).
  split; [done|]. split.
  - intros _. destruct H3 as [H3|H3]; [|done].
    exists (t0, n0). split; [apply list_elem_of_here|done].
  - intros x Hx. split; [by apply H2|by apply G2].
Qed.

Lemma boundsLoop_pitch (l : list (Fraction * Note.t)) (b0 : PatternBounds.t) :
  (PatternBounds.minPitch (boundsLoop b0 l) ≤ PatternBounds.minPitch b0
   ∧ PatternBounds.maxPitch b0 ≤ PatternBounds.maxPitch (boundsLoop b0 l))
  ∧ (∀ x, x ∈ l →
       PatternBounds.minPitch (boundsLoop b0 l) ≤ Note.note x.2
       ≤ PatternBounds.maxPitch (boundsLoop b0 l))
  ∧ (PatternBounds.minPitch (boundsLoop b0 l) = PatternBounds.minPitch b0
     ∨ ∃ x, x ∈ l ∧ PatternBounds.minPitch (boundsLoop b0 l) = Note.note x.2)
  ∧ (PatternBounds.maxPitch (boundsLoop b0 l) = PatternBounds.maxPitch b0
     ∨ ∃ x, x ∈ l ∧ PatternBounds.maxPitch (boundsLoop b0 l) = Note.note x.2).
Proof.
  revert b0. induction l as [|[t n] l IH]; intros b0.
  { split; [split; reflexivity|].
    split; [intros x Hx; by apply elem_of_nil in Hx|]. split; by left. }
  change (boundsLoop b0 ((t, n) :: l)) with (boundsLoop (boundsStep b0 (t, n)) l).
  destruct (IH (boundsStep b0 (t, n))) as ((A1 & A2) & B & C & D).
  set (b1 := boundsStep b0 (t, n)) in *.
  assert (PatternBounds.minPitch b1 = Z.min (PatternBounds.minPitch b0) (Note.note n)
          ∧ PatternBounds.maxPitch b1 = Z.max (PatternBounds.maxPitch b0) (Note.note n))
    as (P1 & P2) by done.
  split; [|split; [|split]].
  - lia.
  - intros x [->|Hx]%elem_of_cons; [cbn [fst snd]; lia|by apply B].
  - destruct C as [C|(x & Hx & C)].
    + rewrite C, P1. destruct (Z.min_spec (PatternBounds.minPitch b0) (Note.note n))
        as [[_ ->]|[_ ->]]; [by left|].
      right. exists (t, n). split; [apply list_elem_of_here|done].
    + right. exists x. split; [by apply list_elem_of_further|done].
  - destruct D as [D|(x & Hx & D)].
    + rewrite D, P2. destruct (Z.max_spec (PatternBounds.maxPitch b0) (Note.note n))
        as [[_ ->]|[_ ->]]; [|by left].
      right. exists (t, n). split; [apply list_elem_of_here|done].
    + right. exists x. split; [by apply list_elem_of_further|done].
Qed.

Lemma calculatePatternBounds_boundsLoop t0 n0 l :
  calculatePatternBounds ((t0, n0) :: l)
  = Some (boundsLoop (PatternBounds.mk 127 0 t0 (t0 + Note.duration n0)%Qc) ((t0, n0) :: l)).
Proof. reflexivity. Qed.

(** X3: [calculatePatternBounds] returns no bounds exactly for an empty
    note list; otherwise every pitch lies between [minPitch] and
    [maxPitch], [minPitch] is 127 or the pitch of a note and [maxPitch]
    is 0 or the pitch of a note, so [minPitch <= 127] and
    [0 <= maxPitch] whatever the pitches are: the bounds of pitches
    above 127 or below 0 still reach to 127 or 0. *)
Theorem calculatePatternBounds_pitch_range (notes : list (Fraction * Note.t)) :
  (calculatePatternBounds notes = None ↔ notes = [])
  ∧ ∀ b, calculatePatternBounds notes = Some b →
      (∀ x, x ∈ notes →
         PatternBounds.minPitch b ≤ Note.note x.2 ≤ PatternBounds.maxPitch b)
      ∧ (PatternBounds.minPitch b = 127
         ∨ ∃ x, x ∈ notes ∧ PatternBounds.minPitch b = Note.note x.2)
      ∧ (PatternBounds.maxPitch b = 0
         ∨ ∃ x, x ∈ notes ∧ PatternBounds.maxPitch b = Note.note x.2)
      ∧ PatternBounds.minPitch b ≤ 127 ∧ 0 ≤ PatternBounds.maxPitch b.
Proof.
  split.
  { destruct notes as [|[t0 n0] l]; [done|]. split; intros; discriminate. }
  intros b Hb. destruct notes as [|[t0 n0] l]; [discriminate|].
  rewrite calculatePatternBounds_boundsLoop in Hb. injection Hb as <-.
  destruct (boundsLoop_pitch ((t0, n0) :: l)
              (PatternBounds.mk 127 0 t0 (t0 + Note.duration n0)%Qc))
    as ((A1 & A2) & B & C & D).
  cbn [PatternBounds.minPitch PatternBounds.maxPitch] in A1, A2, C, D.
  split; [exact B|]. split; [exact C|]. split; [exact D|]. split; [exact A1|exact A2].
Qed.

(** A stable sort leaves a sorted list as it is. *)
Lemma sort_insert_least x l :
  Forall (fun y => (x.1 ≤ y.1)%Qc) l → sort_insert byStartTime x l = x :: l.
Proof.
  destruct l as [|y l]; [done|]. intros [H _]%Forall_cons. cbn.
  by rewrite (proj2 (byStartTime_false x y) H).
Qed.

Lemma Array_sort_sorted_id l : sortedByStart l → Array_sort byStartTime l = l.
Proof.
  induction 1 as [|x l Hl IH Hx]; [done|].
  change (Array_sort byStartTime (x :: l))
    with (sort_insert byStartTime x (Array_sort byStartTime l)).
  rewrite IH. by apply sort_insert_least.
Qed.

(** Where the sort of [addNote] puts the new note in sorted notes: after
    the notes that start no later, before those that start later. *)
Lemma sort_snoc_split (x : Fraction * Note.t) l :
  sortedByStart l →
  ∃ a b, l = a ++ b
         ∧ Array_sort byStartTime (l ++ [x]) = a ++ x :: b
         ∧ Forall (fun y => (y.1 ≤ x.1)%Qc) a
         ∧ Forall (fun y => (x.1 < y.1)%Qc) b.
Proof.
  induction 1 as [|y l Hl IH Hy].
  { exists [], []. by repeat split. }
  destruct IH as (a & b & -> & E & Ha & Hb).
  change (Array_sort byStartTime ((y :: a ++ b) ++ [x]))
    with (sort_insert byStartTime y (Array_sort byStartTime ((a ++ b) ++ [x]))).
  rewrite E. apply Forall_app in Hy as [Hya Hyb].
  destruct a as [|z a].
  - cbn [app sort_insert]. destruct (byStartTime y x) eqn:Eyx.
    + apply byStartTime_true in Eyx. exists [], (y :: b).
      split; [done|]. split; [|split; [done|by constructor]].
      cbn [app]. f_equal. by apply sort_insert_least.
    + apply byStartTime_false in Eyx. exists [y], b.
      split; [done|]. split; [done|]. split; [by repeat constructor|done].
  - exists (y :: z :: a), b. split; [done|]. split.
    + cbn [app sort_insert]. apply Forall_cons in Hya as [Hyz _].
      by rewrite (proj2 (byStartTime_false y z) Hyz).
    + split; [|done]. constructor; [|done].
      apply Forall_cons in Hya as [Hyz _]. apply Forall_cons in Ha as [Hz _].
      by eapply Qcle_trans.
Qed.

(** X4: [addNote] returns notes sorted ascending by start time that are
    the notes of the pattern plus the new note (whatever the order of the
    input notes); on sorted notes the new note goes after the notes that
    start at the same time or earlier and before those that start later,
    the others keeping their order. The duration field of the result is
    never null (an explicit duration is kept, a null one becomes the
    latest end of the new notes), id and name are kept and the bounds are
    those of the new notes. *)
Theorem addNote_inserts_sorted (pattern : Pattern.t) (startTime : Fraction + Z)
    (note : Note.t) :
  let time := toFraction startTime in
  let result := addNote pattern startTime note in
  sortedByStart (Pattern.notes result)
  ∧ Pattern.notes result ≡ₚ (time, note) :: Pattern.notes pattern
  ∧ (sortedByStart (Pattern.notes pattern) →
     ∃ a b, Pattern.notes pattern = a ++ b
            ∧ Pattern.notes result = a ++ (time, note) :: b
            ∧ Forall (fun y => (y.1 ≤ time)%Qc) a
            ∧ Forall (fun y => (time < y.1)%Qc) b)
  ∧ (∀ d, Pattern.duration pattern = Some d → Pattern.duration result = Some d)
  ∧ (Pattern.duration pattern = None →
     Pattern.duration result = Some (calculateDuration (Pattern.notes result)))
  ∧ Pattern.id result = Pattern.id pattern
  ∧ Pattern.name result = Pattern.name pattern
  ∧ Pattern.bounds result = calculatePatternBounds (Pattern.notes result).
Proof.
  intros time result. subst result. unfold addNote. cbn.
  split; [apply Array_sort_sorted|]. split.
  { rewrite Array_sort_perm. by rewrite Permutation_app_comm. }
  split; [apply sort_snoc_split|].
  split; [by intros d ->|]. split; [by intros ->|done].
Qed.

Lemma filterIndex_from {A} (noteIndex : Z) (l : list A) (k : nat) :
  snd <$> filter (fun ix => Z.of_nat ix.1 ≠ noteIndex) (imap (fun j => pair (k + j)%nat) l)
  = if decide (Z.of_nat k ≤ noteIndex) then delete (Z.to_nat (noteIndex - Z.of_nat k)) l else l.
Proof.
  revert k. induction l as [|x l IH]; intros k.
  { by destruct (decide _). }
  rewrite imap_cons. rewrite filter_cons. cbn [fst].
  rewrite (imap_ext _ (fun j => pair (S k + j)%nat) l)
    by (intros; cbn; f_equal; lia).
  rewrite Nat.add_0_r. destruct (decide (Z.of_nat k ≠ noteIndex)) as [Hne|Heq].
  - rewrite fmap_cons, IH. cbn [snd].
    destruct (decide (Z.of_nat k ≤ noteIndex)) as [Hle|Hgt].
    + rewrite decide_True by lia.
      replace (Z.to_nat (noteIndex - Z.of_nat k))
        with (S (Z.to_nat (noteIndex - Z.of_nat (S k)))) by lia.
      done.
    + by rewrite decide_False by lia.
  - apply dec_stable in Heq. rewrite IH.
    rewrite decide_False by lia. rewrite decide_True by lia.
    by replace (Z.to_nat (noteIndex - Z.of_nat k)) with O by lia.
Qed.

Lemma filterIndex_delete {A} (noteIndex : Z) (l : list A) :
  filterIndex noteIndex l
  = if decide (0 ≤ noteIndex) then delete (Z.to_nat noteIndex) l else l.
Proof.
  unfold filterIndex. rewrite (imap_ext _ (fun j => pair (0 + j)%nat) l) by done.
  rewrite filterIndex_from. by rewrite Z.sub_0_r.
Qed.

Lemma sortedByStart_delete i l : sortedByStart l → sortedByStart (delete i l).
Proof.
  intros H. revert i. induction H as [|x l Hl IH Hx]; intros [|i]; cbn; try done.
  - constructor.
  - constructor.
  - constructor; [apply IH|]. apply Forall_forall. intros y Hy%list_elem_of_delete_inv.
    by eapply Forall_forall in Hx.
Qed.

(** X5: [removeNote] with a note index removes the note at that position
    and nothing else, whatever [startTime] is (an index that is negative
    or beyond the last note removes nothing); without an index it removes
    exactly the notes that start at [startTime]. In both cases the notes
    that remain keep their order, so sorted notes stay sorted, and the
    duration field of the result is never null. *)
Theorem removeNote_removes (pattern : Pattern.t) (startTime : Fraction) :
  (∀ idx, Pattern.notes (removeNote pattern startTime (Some idx))
          = if decide (0 ≤ idx) then delete (Z.to_nat idx) (Pattern.notes pattern)
            else Pattern.notes pattern)
  ∧ (∀ idx, 0 ≤ idx < Z.of_nat (length (Pattern.notes pattern)) →
       S (length (Pattern.notes (removeNote pattern startTime (Some idx))))
       = length (Pattern.notes pattern))
  ∧ (∀ idx, Z.of_nat (length (Pattern.notes pattern)) ≤ idx →
       Pattern.notes (removeNote pattern startTime (Some idx)) = Pattern.notes pattern)
  ∧ (∀ x, x ∈ Pattern.notes (removeNote pattern startTime None)
          ↔ x ∈ Pattern.notes pattern ∧ x.1 ≠ startTime)
  ∧ Pattern.notes (removeNote pattern startTime None)
    `sublist_of` Pattern.notes pattern
  ∧ (∀ noteIndex, sortedByStart (Pattern.notes pattern) →
       sortedByStart (Pattern.notes (removeNote pattern startTime noteIndex)))
  ∧ (∀ noteIndex, is_Some (Pattern.duration (removeNote pattern startTime noteIndex))).
Proof.
  assert (∀ idx, Pattern.notes (removeNote pattern startTime (Some idx))
                 = if decide (0 ≤ idx) then delete (Z.to_nat idx) (Pattern.notes pattern)
                   else Pattern.notes pattern) as Hidx.
  { intros idx. cbn. apply filterIndex_delete. }
  split; [exact Hidx|]. split; [|split; [|split; [|split; [|split]]]].
  - intros idx Hi. rewrite Hidx, decide_True by lia.
    rewrite length_delete by (apply lookup_lt_is_Some; lia). lia.
  - intros idx Hi. rewrite Hidx, decide_True by lia.
    rewrite delete_take_drop, take_ge, drop_ge by lia. apply app_nil_r.
  - intros x. cbn. rewrite list_elem_of_filter. tauto.
  - cbn. apply sublist_filter.
  - intros [idx|] Hs.
    + rewrite Hidx. destruct (decide _); [by apply sortedByStart_delete|done].
    + cbn. by apply sortedByStart_filter.
  - intros noteIndex. cbn. by eexists.
Qed.

(** X6: adding a note and then removing the notes at its start time gives
    back the notes of the pattern, in their order, when the notes are
    sorted and none of them starts at that time; the whole pattern comes
    back when, moreover, its duration is explicit and its bounds are those
    of its notes. A null duration does not come back: [addNote] has
    replaced it by the latest end of the notes including the new one. *)
Theorem removeNote_addNote (pattern : Pattern.t) (startTime : Fraction + Z) (note : Note.t) :
  sortedByStart (Pattern.notes pattern) →
  (∀ x, x ∈ Pattern.notes pattern → x.1 ≠ toFraction startTime) →
  Pattern.notes (removeNote (addNote pattern startTime note) (toFraction startTime) None)
  = Pattern.notes pattern
  ∧ (is_Some (Pattern.duration pattern) →
     Pattern.bounds pattern = calculatePatternBounds (Pattern.notes pattern) →
     removeNote (addNote pattern startTime note) (toFraction startTime) None = pattern)
  ∧ (Pattern.duration pattern = None →
     Pattern.duration
       (removeNote (addNote pattern startTime note) (toFraction startTime) None)
     = Some (calculateDuration (Pattern.notes (addNote pattern startTime note)))).
Proof.
  intros Hs Hfresh.
  assert (Pattern.notes
            (removeNote (addNote pattern startTime note) (toFraction startTime) None)
          = Pattern.notes pattern) as Hnotes.
  { cbn.
    destruct (sort_snoc_split (toFraction startTime, note) _ Hs) as (a & b & E & -> & _ & _).
    rewrite filter_app, filter_cons_False by (cbn; tauto).
    rewrite <- filter_app, <- E.
    clear E. induction (Pattern.notes pattern) as [|y l IH]; [done|].
    rewrite filter_cons_True by (apply Hfresh, list_elem_of_here).
    f_equal. apply IH. { by apply StronglySorted_inv in Hs as [? _]. }
    intros x Hx. by apply Hfresh, list_elem_of_further. }
  split; [exact Hnotes|]. split.
  - intros [d Hd] Hb. destruct pattern as [notes duration id name bounds].
    unfold removeNote, addNote in *.
    cbn [Pattern.notes Pattern.duration Pattern.id Pattern.name Pattern.bounds] in *.
    subst duration bounds. rewrite Hnotes. done.
  - intros Hd. cbn. by rewrite Hd.
Qed.

Lemma removeNote_addNote_witness :
  Pattern.notes (removeNote (addNote twoNotes (inl (Q2Qc (1 # 2))) noteD4long)
                   (Q2Qc (1 # 2)) None)
  = Pattern.notes twoNotes.
Proof.
  refine (proj1 (removeNote_addNote twoNotes (inl (Q2Qc (1 # 2))) noteD4long _ _)).
  - repeat constructor; by vm_compute.
  - intros x Hx. vm_compute in Hx.
    repeat (apply elem_of_cons in Hx as [->|Hx]); [by vm_compute..|].
    by apply elem_of_nil in Hx.
Defined.

Lemma copyFraction_abs f : copyFraction f = Returned (Fraction_abs f).
Proof.
  unfold copyFraction, newFraction, Fraction_n, Fraction_d.
  rewrite decide_False by done. f_equal. apply Qc_is_canon.
  unfold Fraction_abs. destruct (compare_lt f (Q2Qc 0)) eqn:E.
  - apply compare_lt_true in E. destruct f as [[n d] Hc].
    unfold Qclt in E. cbn [this Q2Qc] in E. unfold Qlt in E.
    change (Qnum (Qred 0)) with 0 in E. change (QDen (Qred 0)) with 1 in E.
    unfold Qcopp, Q2Qc. cbn [this]. rewrite !Qred_correct.
    cbn [Qnum Qden] in *. change (Z.sgn (Z.pos d)) with 1.
    change (Z.to_pos (Z.abs (Z.pos d))) with d.
    unfold Qeq, Qopp. cbn [Qnum Qden]. lia.
  - apply compare_lt_false in E. destruct f as [[n d] Hc].
    unfold Qcle in E. cbn [this Q2Qc] in E. unfold Qle in E.
    change (Qnum (Qred 0)) with 0 in E. change (QDen (Qred 0)) with 1 in E.
    unfold Q2Qc. cbn [this]. rewrite !Qred_correct.
    cbn [Qnum Qden] in *. change (Z.sgn (Z.pos d)) with 1.
    change (Z.to_pos (Z.abs (Z.pos d))) with d.
    unfold Qeq. cbn [Qnum Qden]. lia.
Qed.

Lemma Fraction_abs_nonneg f : (Q2Qc 0 ≤ f)%Qc → Fraction_abs f = f.
Proof.
  intros H. unfold Fraction_abs. by rewrite (proj2 (compare_lt_false f (Q2Qc 0)) H).
Qed.

(** X7: [clonePattern] always returns, and it copies every fraction from
    its fields [n] and [d] without the sign [s]: each start time, note
    duration and the pattern duration of the clone is the absolute value
    of the original (pitches, velocities, id, name and bounds are kept).
    The clone therefore equals the pattern when no start time, note
    duration or pattern duration is negative, and a negative start time
    comes back positive. *)
Theorem clonePattern_drops_signs (pattern : Pattern.t) :
  (∃ clone,
     clonePattern pattern = Returned clone
     ∧ Pattern.notes clone
       = map (fun x => (Fraction_abs x.1,
                        Note.mk (Fraction_abs (Note.duration x.2)) (Note.note x.2)
                          (Note.velocity x.2)))
             (Pattern.notes pattern)
     ∧ Pattern.duration clone = Fraction_abs <$> Pattern.duration pattern
     ∧ Pattern.id clone = Pattern.id pattern
     ∧ Pattern.name clone = Pattern.name pattern
     ∧ Pattern.bounds clone = Pattern.bounds pattern)
  ∧ ((∀ x, x ∈ Pattern.notes pattern → (Q2Qc 0 ≤ x.1)%Qc ∧ (Q2Qc 0 ≤ Note.duration x.2)%Qc) →
     (∀ d, Pattern.duration pattern = Some d → (Q2Qc 0 ≤ d)%Qc) →
     clonePattern pattern = Returned pattern)
  ∧ (∀ f, (f < Q2Qc 0)%Qc → copyFraction f = Returned (- f)%Qc).
Proof.
  assert (∀ l, Exec_map (fun '(time, n) =>
                 Exec_bind (copyFraction time) (fun time' =>
                 Exec_bind (copyFraction (Note.duration n)) (fun duration' =>
                 Returned (time', Note.mk duration' (Note.note n) (Note.velocity n))))) l
               = Returned (map (fun x => (Fraction_abs x.1,
                                          Note.mk (Fraction_abs (Note.duration x.2))
                                            (Note.note x.2) (Note.velocity x.2))) l)) as Hmap.
  { induction l as [|[t n] l IH]; [done|].
    cbn [Exec_map]. rewrite IH, !copyFraction_abs. done. }
  assert (clonePattern pattern
          = Returned (Pattern.mk
                        (map (fun x => (Fraction_abs x.1,
                                        Note.mk (Fraction_abs (Note.duration x.2))
                                          (Note.note x.2) (Note.velocity x.2)))
                             (Pattern.notes pattern))
                        (Fraction_abs <$> Pattern.duration pattern)
                        (Pattern.id pattern) (Pattern.name pattern) (Pattern.bounds pattern)))
    as Hclone.
  { unfold clonePattern. rewrite Hmap. cbn [Exec_bind].
    destruct (Pattern.duration pattern) as [d|]; [|done].
    by rewrite copyFraction_abs. }
  split; [|split].
  - eexists. split; [exact Hclone|]. done.
  - intros Hn Hd. rewrite Hclone. f_equal.
    destruct pattern as [notes duration id name bounds]. cbn in *. f_equal.
    + clear Hclone Hmap Hd. induction notes as [|[t n] l IH]; [done|]. cbn [map fst snd].
      destruct (Hn (t, n)) as [H1 H2]; [apply list_elem_of_here|]. cbn in H1, H2.
      rewrite !Fraction_abs_nonneg by done. destruct n as [dn p v]. cbn. f_equal.
      apply IH. intros x Hx. by apply Hn, list_elem_of_further.
    + destruct duration as [d|]; [|done]. cbn. f_equal. by apply Fraction_abs_nonneg, Hd.
  - intros f Hf. rewrite copyFraction_abs. unfold Fraction_abs.
    by rewrite (proj2 (compare_lt_true f (Q2Qc 0)) Hf).
Qed.
(** * Laws of the modifiers *)

Lemma latestEnd_timing l l' acc : timing l = timing l' → latestEnd acc l = latestEnd acc l'.
Proof.
  revert l' acc. induction l as [|[t n] l IH]; intros [|[t' n'] l'] acc H; try done.
  injection H as -> Hd H. unfold latestEnd. cbn [foldl]. rewrite Hd. by apply IH.
Qed.

Lemma calculateDuration_timing l l' :
  timing l = timing l' → calculateDuration l = calculateDuration l'.
Proof. intros H. rewrite !calculateDuration_latestEnd. by apply latestEnd_timing. Qed.

Lemma timing_map (f : Fraction * Note.t → Fraction * Note.t) l :
  (∀ x, (f x).1 = x.1 ∧ Note.duration (f x).2 = Note.duration x.2) →
  timing (map f l) = timing l.
Proof.
  intros Hf. unfold timing. rewrite map_map. apply map_ext. intros x.
  destruct (Hf x) as [-> ->]. done.
Qed.

Lemma clamp127_range x : 0 ≤ clamp127 x ≤ 127.
Proof. unfold clamp127. lia. Qed.

Lemma clamp127_id x : 0 ≤ x ≤ 127 → clamp127 x = x.
Proof. unfold clamp127. lia. Qed.

(** X8: called with an integer argument on a pattern whose pitches are
    integers, [invert], [transpose] and [setVelocity] never leave the
    MIDI range: every pitch in the output of [invert] and [transpose]
    and every velocity in the output of [setVelocity] lies in 0..127,
    also when the input has values out of range, for every integer
    pivot, number of semitones and velocity; [setVelocity] gives every
    note the argument clamped to 0..127. *)
Theorem integer_arguments_stay_in_midi_range (pattern : Pattern.t) :
  (∀ (pivot : Z) x, x ∈ Pattern.notes (Modifiers.invert pattern pivot) →
                    0 ≤ Note.note x.2 ≤ 127)
  ∧ (∀ (semitones : Z) x, x ∈ Pattern.notes (Modifiers.transpose pattern semitones) →
                          0 ≤ Note.note x.2 ≤ 127)
  ∧ (∀ (velocity : Z) x, x ∈ Pattern.notes (Modifiers.setVelocity pattern velocity) →
                         Note.velocity x.2 = Z.max 0 (Z.min 127 velocity)
                         ∧ 0 ≤ Note.velocity x.2 ≤ 127).
Proof.
  split; [|split]; intros ? x Hx; cbn in Hx;
    apply list_elem_of_fmap in Hx as ([t n] & -> & _); cbn [snd Note.note Note.velocity];
    [apply clamp127_range..|].
  split; [done|apply clamp127_range].
Qed.

(** X9: [invert], [transpose], [scaleVelocity] and [setVelocity] change no
    timing: the output has the same start time and note duration at every
    position, and its effective duration is the effective duration of the
    input (also when the duration field of the input is null). *)
Theorem pitch_and_velocity_modifiers_keep_timing (pattern : Pattern.t) :
  (∀ pivot,
     timing (Pattern.notes (Modifiers.invert pattern pivot)) = timing (Pattern.notes pattern)
     ∧ effectiveDuration (Modifiers.invert pattern pivot) = effectiveDuration pattern)
  ∧ (∀ semitones,
       timing (Pattern.notes (Modifiers.transpose pattern semitones))
       = timing (Pattern.notes pattern)
       ∧ effectiveDuration (Modifiers.transpose pattern semitones)
         = effectiveDuration pattern)
  ∧ (∀ factor,
       timing (Pattern.notes (Modifiers.scaleVelocity pattern factor))
       = timing (Pattern.notes pattern)
       ∧ effectiveDuration (Modifiers.scaleVelocity pattern factor)
         = effectiveDuration pattern)
  ∧ (∀ velocity,
       timing (Pattern.notes (Modifiers.setVelocity pattern velocity))
       = timing (Pattern.notes pattern)
       ∧ effectiveDuration (Modifiers.setVelocity pattern velocity)
         = effectiveDuration pattern).
Proof.
  split; [|split; [|split]]; intros ?; split.
  all: match goal with
       | |- timing _ = _ => cbn; apply timing_map; by intros [t n]
       | |- effectiveDuration _ = _ =>
           unfold effectiveDuration; cbn;
           destruct (Pattern.duration pattern); [done|]; cbn;
           apply calculateDuration_timing, timing_map; by intros [t n]
       end.
Qed.

Lemma createPatternWithBounds_eq notes notes' duration duration' :
  notes = notes' → duration = duration' →
  createPatternWithBounds notes duration = createPatternWithBounds notes' duration'.
Proof. by intros -> ->. Qed.

(** X10: transposing twice is transposing by the sum, as long as the first
    step clamps nothing: when every pitch plus [a] lies in 0..127,
    [transpose (transpose P a) b] is the same pattern as
    [transpose P (a + b)], for every [b]. *)
Theorem transpose_twice (pattern : Pattern.t) (a b : Z) :
  (∀ x, x ∈ Pattern.notes pattern → 0 ≤ Note.note x.2 + a ≤ 127) →
  Modifiers.transpose (Modifiers.transpose pattern a) b
  = Modifiers.transpose pattern (a + b).
Proof.
  intros Hrange. unfold Modifiers.transpose at 1 3.
  apply createPatternWithBounds_eq.
  - cbn [Modifiers.transpose createPatternWithBounds Pattern.notes].
    rewrite map_map. apply map_ext_in. intros [t n] Hin. f_equal. f_equal. cbn.
    apply list_elem_of_In in Hin. specialize (Hrange _ Hin). cbn in Hrange.
    unfold clamp127. lia.
  - f_equal.
    cbn [Modifiers.transpose createPatternWithBounds Pattern.notes Pattern.duration default].
    destruct (Pattern.duration pattern); [done|]. cbn [default].
    apply calculateDuration_timing. rewrite !timing_map; [done|by intros [t n]..].
Qed.

Lemma transpose_twice_witness :
  Modifiers.transpose (Modifiers.transpose twoNotes 2) 100 = Modifiers.transpose twoNotes 102.
Proof.
  apply (transpose_twice twoNotes 2 100).
  intros x Hx. vm_compute in Hx.
  repeat (apply elem_of_cons in Hx as [->|Hx]); [by vm_compute..|].
  by apply elem_of_nil in Hx.
Defined.

(** X11: inverting twice around the same pivot gives back the notes, as
    long as nothing is clamped: when every pitch [p] and its mirror image
    [2 * pivot - p] lie in 0..127, [invert (invert P pivot) pivot] has the
    notes of [P], and its duration field holds the effective duration of
    [P]. *)
Theorem invert_twice (pattern : Pattern.t) (pivot : Z) :
  (∀ x, x ∈ Pattern.notes pattern →
        0 ≤ Note.note x.2 ≤ 127 ∧ 0 ≤ 2 * pivot - Note.note x.2 ≤ 127) →
  Pattern.notes (Modifiers.invert (Modifiers.invert pattern pivot) pivot)
  = Pattern.notes pattern
  ∧ Pattern.duration (Modifiers.invert (Modifiers.invert pattern pivot) pivot)
    = Some (effectiveDuration pattern).
Proof.
  intros Hrange. split.
  - cbn. rewrite map_map. rewrite <- (map_id (Pattern.notes pattern)) at 2.
    apply map_ext_in. intros [t [d p v]] Hin. cbn.
    apply list_elem_of_In in Hin. specialize (Hrange _ Hin). cbn in Hrange.
    do 2 f_equal. unfold clamp127. lia.
  - unfold effectiveDuration. cbn. f_equal.
    destruct (Pattern.duration pattern); [done|]. cbn.
    apply calculateDuration_timing. apply timing_map. by intros [t n].
Qed.

Lemma invert_twice_witness :
  Pattern.notes (Modifiers.invert (Modifiers.invert twoNotes 64) 64) = Pattern.notes twoNotes.
Proof.
  apply (invert_twice twoNotes 64).
  intros x Hx. vm_compute in Hx.
  repeat (apply elem_of_cons in Hx as [->|Hx]); [by vm_compute..|].
  by apply elem_of_nil in Hx.
Defined.

Lemma Qc_of_Z_1 : Qc_of_Z 1 = Q2Qc 1.
Proof. by apply Qc_is_canon. Qed.

(** X12: stretching twice is stretching by the product of the factors,
    for every pattern and factors (zero and negative ones included); the
    effective duration is multiplied by the factor, and a stretch by 1
    gives back the notes and the effective duration. *)
Theorem stretch_twice (pattern : Pattern.t) (f g : Fraction + Z) :
  Modifiers.stretch (Modifiers.stretch pattern f) g
  = Modifiers.stretch pattern (inl (toFraction f * toFraction g)%Qc)
  ∧ effectiveDuration (Modifiers.stretch pattern f)
    = (effectiveDuration pattern * toFraction f)%Qc
  ∧ Pattern.notes (Modifiers.stretch pattern (inr 1)) = Pattern.notes pattern
  ∧ Pattern.duration (Modifiers.stretch pattern (inr 1)) = Some (effectiveDuration pattern).
Proof.
  split; [|split; [done|split]].
  - unfold Modifiers.stretch at 1 3. apply createPatternWithBounds_eq.
    + cbn [Modifiers.stretch createPatternWithBounds Pattern.notes toFraction].
      rewrite map_map. apply map_ext. intros [t [d p v]]. cbn. f_equal; [ring|].
      f_equal. ring.
    + cbn [Modifiers.stretch createPatternWithBounds Pattern.duration default toFraction].
      unfold id. f_equal. ring.
  - cbn. rewrite <- (map_id (Pattern.notes pattern)) at 2. apply map_ext.
    intros [t [d p v]]. cbn. rewrite Qc_of_Z_1.
    f_equal; [ring|]. f_equal. ring.
  - cbn. f_equal. rewrite Qc_of_Z_1. unfold effectiveDuration. ring.
Qed.

Lemma Exec_map_cons {A B} (f : A → Exec B) x l :
  Exec_map f (x :: l)
  = Exec_bind (f x) (fun y => Exec_bind (Exec_map f l) (fun ys => Returned (y :: ys))).
Proof. reflexivity. Qed.

Lemma quantize_loop_returns grid l :
  grid ≠ Q2Qc 0 →
  Exec_map (fun '(startTime, n) =>
              Exec_bind (Fraction_div startTime grid) (fun q =>
                let gridPos := Fraction_round q in
                let quantizedTime := (grid * gridPos)%Qc in
                Returned (quantizedTime, n))) l
  = Returned (map (quantizeNote grid) l).
Proof.
  intros Hg. induction l as [|[t n] l IH]; [done|].
  rewrite Exec_map_cons, IH. unfold Fraction_div. by rewrite decide_False by done.
Qed.

Lemma quantize_spec pattern gridSize :
  let grid := toFraction gridSize in
  let sorted := Array_sort byStartTime (map (quantizeNote grid) (Pattern.notes pattern)) in
  (grid = Q2Qc 0 ∧ Pattern.notes pattern ≠ [] ∧ Modifiers.quantize pattern gridSize = Thrown)
  ∨ ((grid ≠ Q2Qc 0 ∨ Pattern.notes pattern = [])
     ∧ Modifiers.quantize pattern gridSize
       = Returned (createPatternWithBounds sorted
                     (Some (default (calculateDuration sorted) (Pattern.duration pattern))))).
Proof.
  intros grid sorted. destruct (decide (grid = Q2Qc 0)) as [Hz|Hnz].
  - destruct (Pattern.notes pattern) as [|[t n] l] eqn:E.
    + right. split; [by right|]. unfold Modifiers.quantize. subst sorted. by rewrite E.
    + left. split; [done|]. split; [done|]. unfold Modifiers.quantize. rewrite E.
      rewrite Exec_map_cons. fold grid. unfold Fraction_div. by rewrite decide_True by done.
  - right. split; [by left|]. unfold Modifiers.quantize. fold grid.
    by rewrite quantize_loop_returns by done.
Qed.

Lemma Fraction_round_integer k : Fraction_round (Qc_of_Z k) = Qc_of_Z k.
Proof.
  unfold Fraction_round. f_equal.
  assert (this (Qc_of_Z k + Q2Qc (1 # 2))%Qc == (2 * k + 1) # 2)%Q as H.
  { unfold Qcplus, Qc_of_Z, Q2Qc. cbn [this]. rewrite !Qred_correct.
    unfold Qeq, Qplus, inject_Z. cbn [Qnum Qden]. lia. }
  rewrite H. cbn [Qfloor]. symmetry. apply (Z.div_unique _ _ _ 1); lia.
Qed.

Lemma quantizeNote_fixed grid k n :
  grid ≠ Q2Qc 0 →
  quantizeNote grid ((grid * Qc_of_Z k)%Qc, n) = ((grid * Qc_of_Z k)%Qc, n).
Proof.
  intros Hg. unfold quantizeNote. cbn [fst snd]. f_equal.
  replace (grid * Qc_of_Z k / grid)%Qc with (Qc_of_Z k) by (field; done).
  by rewrite Fraction_round_integer.
Qed.

(** X13: [quantize] throws exactly when the grid is zero and the pattern
    has a note (fraction.js refuses the division by zero; a pattern
    without notes is returned as it is, with its duration made
    explicit). When it returns, the output has as many notes as the
    input, sorted by start, every start is an integer multiple of the
    grid, and the note records (pitch, velocity, duration) are those of
    the input. *)
Theorem quantize_throws_on_zero_grid (pattern : Pattern.t) (gridSize : Fraction + Z) :
  (Modifiers.quantize pattern gridSize = Thrown
   ↔ toFraction gridSize = Q2Qc 0 ∧ Pattern.notes pattern ≠ [])
  ∧ ∀ Q, Modifiers.quantize pattern gridSize = Returned Q →
      length (Pattern.notes Q) = length (Pattern.notes pattern)
      ∧ sortedByStart (Pattern.notes Q)
      ∧ (∀ x, x ∈ Pattern.notes Q → ∃ k : Z, x.1 = (toFraction gridSize * Qc_of_Z k)%Qc)
      ∧ map snd (Pattern.notes Q) ≡ₚ map snd (Pattern.notes pattern).
Proof.
  destruct (quantize_spec pattern gridSize) as [(Hz & Hne & E)|(Hc & E)].
  - split; [by rewrite E|]. intros Q HQ. by rewrite E in HQ.
  - split.
    { rewrite E. split; [done|]. intros [Hz Hne]. by destruct Hc. }
    intros Q HQ. rewrite E in HQ. injection HQ as <-.
    cbn [createPatternWithBounds Pattern.notes].
    split; [|split; [|split]].
    + by rewrite (Permutation_length (Array_sort_perm _ _)), length_map.
    + apply Array_sort_sorted.
    + intros x Hx. rewrite Array_sort_perm in Hx.
      apply list_elem_of_fmap in Hx as (y & -> & _). unfold quantizeNote, Fraction_round.
      by eexists.
    + rewrite Array_sort_perm. rewrite map_map. done.
Qed.

(** X14: [quantize] is idempotent: a pattern it returns is returned
    unchanged (notes, duration and bounds) when quantized again on the
    same grid. *)
Theorem quantize_idempotent (pattern : Pattern.t) (gridSize : Fraction + Z) (Q : Pattern.t) :
  Modifiers.quantize pattern gridSize = Returned Q →
  Modifiers.quantize Q gridSize = Returned Q.
Proof.
  intros HQ.
  destruct (quantize_spec pattern gridSize) as [(_ & _ & E)|(Hc & E)]; [by rewrite E in HQ|].
  rewrite E in HQ. injection HQ as <-.
  set (grid := toFraction gridSize) in *.
  set (sorted := Array_sort byStartTime (map (quantizeNote grid) (Pattern.notes pattern))).
  destruct (quantize_spec (createPatternWithBounds sorted
              (Some (default (calculateDuration sorted) (Pattern.duration pattern)))) gridSize)
    as [(Hz & Hne & _)|(_ & E2)].
  { exfalso. destruct Hc as [Hc|Hc]; [done|]. apply Hne. subst sorted.
    cbn [createPatternWithBounds Pattern.notes]. by rewrite Hc. }
  rewrite E2. fold grid. cbn [createPatternWithBounds Pattern.notes Pattern.duration default].
  assert (Array_sort byStartTime (map (quantizeNote grid) sorted) = sorted) as ->; [|done].
  assert (map (quantizeNote grid) sorted = sorted) as ->.
  { destruct Hc as [Hg|Hempty].
    - rewrite <- (map_id sorted) at 2. apply map_ext_in. intros x Hx.
      apply list_elem_of_In in Hx. subst sorted. rewrite Array_sort_perm in Hx.
      apply list_elem_of_fmap in Hx as ([t n] & -> & _). unfold quantizeNote at 2.
      cbn [fst snd]. unfold Fraction_round at 1. by apply quantizeNote_fixed.
    - subst sorted. by rewrite Hempty. }
  apply Array_sort_sorted_id. subst sorted. apply Array_sort_sorted.
Qed.

Lemma quantize_idempotent_witness :
  ∃ Q, Modifiers.quantize twoNotes (inl (Q2Qc (1 # 3))) = Returned Q
       ∧ Modifiers.quantize Q (inl (Q2Qc (1 # 3))) = Returned Q.
Proof.
  eexists. split; [reflexivity|].
  apply (quantize_idempotent twoNotes (inl (Q2Qc (1 # 3)))). reflexivity.
Defined.

Lemma union_inner_loop acc (l : list (Fraction * Note.t)) :
  foldl (fun acc '(startTime, n) => acc ++ [(startTime, n)]) acc l = acc ++ l.
Proof.
  revert acc. induction l as [|[t n] l IH]; intros acc; cbn [foldl].
  - by rewrite app_nil_r.
  - rewrite IH. by rewrite <- app_assoc.
Qed.

Lemma union_outer_loop ps acc m :
  foldl (fun '(allNotes, maxDuration) pattern =>
           let allNotes' :=
             foldl (fun acc '(startTime, n) => acc ++ [(startTime, n)])
                   allNotes (Pattern.notes pattern) in
           let patternDuration :=
             default (calculateDuration (Pattern.notes pattern)) (Pattern.duration pattern) in
           (allNotes', if compare_gt patternDuration maxDuration
                       then patternDuration else maxDuration))
        (acc, m) ps
  = (acc ++ mjoin (Pattern.notes <$> ps), longestDuration m ps).
Proof.
  revert acc m. induction ps as [|p ps IH]; intros acc m.
  - cbn. by rewrite app_nil_r.
  - cbn [foldl]. rewrite union_inner_loop. cbn zeta. rewrite IH.
    cbn [fmap list_fmap mjoin list_join]. by rewrite <- app_assoc.
Qed.

Lemma longestDuration_spec ps acc :
  (acc ≤ longestDuration acc ps)%Qc
  ∧ (∀ p, p ∈ ps → (effectiveDuration p ≤ longestDuration acc ps)%Qc)
  ∧ (longestDuration acc ps = acc
     ∨ ∃ p, p ∈ ps ∧ longestDuration acc ps = effectiveDuration p).
Proof.
  revert acc. induction ps as [|q ps IH]; intros acc.
  { split; [apply Qcle_refl|]. split; [|by left]. intros x Hx. by apply elem_of_nil in Hx. }
  unfold longestDuration. cbn [foldl].
  fold (longestDuration (if compare_gt (effectiveDuration q) acc
                         then effectiveDuration q else acc) ps).
  destruct (IH (if compare_gt (effectiveDuration q) acc
                then effectiveDuration q else acc)) as (H1 & H2 & H3).
  destruct (compare_gt (effectiveDuration q) acc) eqn:E.
  - apply compare_gt_true in E. split; [|split].
    + eapply Qcle_trans; [apply Qclt_le_weak, E|apply H1].
    + intros x [->|Hx]%elem_of_cons; [apply H1|by apply H2].
    + right. destruct H3 as [->|(x & Hx & ->)].
      * exists q. split; [apply list_elem_of_here|done].
      * exists x. split; [by apply list_elem_of_further|done].
  - apply compare_gt_false in E. split; [done|split].
    + intros x [->|Hx]%elem_of_cons; [by eapply Qcle_trans|by apply H2].
    + destruct H3 as [->|(x & Hx & ->)]; [by left|].
      right. exists x. split; [by apply list_elem_of_further|done].
Qed.

(** X15: [union] returns the notes of all its inputs: the note lists of
    the inputs, joined in input order and then sorted by start time with
    the stable sort, which is a permutation of all the input notes and is
    the joined list itself when that is already sorted. Given at least
    one input, the duration of the output is the longest effective
    duration of the inputs, and 0 when all of them are negative. *)
Theorem union_merges_inputs (patterns : list Pattern.t) :
  Pattern.notes (Modifiers.union patterns)
  = Array_sort byStartTime (mjoin (Pattern.notes <$> patterns))
  ∧ Pattern.notes (Modifiers.union patterns) ≡ₚ mjoin (Pattern.notes <$> patterns)
  ∧ (sortedByStart (mjoin (Pattern.notes <$> patterns)) →
     Pattern.notes (Modifiers.union patterns) = mjoin (Pattern.notes <$> patterns))
  ∧ (patterns ≠ [] →
     ∃ d, Pattern.duration (Modifiers.union patterns) = Some d
          ∧ (Q2Qc 0 ≤ d)%Qc
          ∧ (∀ p, p ∈ patterns → (effectiveDuration p ≤ d)%Qc)
          ∧ (d = Q2Qc 0 ∨ ∃ p, p ∈ patterns ∧ d = effectiveDuration p)).
Proof.
  assert (Pattern.notes (Modifiers.union patterns)
          = Array_sort byStartTime (mjoin (Pattern.notes <$> patterns))) as Hnotes.
  { destruct patterns as [|p ps]; [done|].
    unfold Modifiers.union. rewrite union_outer_loop. done. }
  split; [exact Hnotes|]. split; [|split].
  - rewrite Hnotes. apply Array_sort_perm.
  - intros Hs. rewrite Hnotes. by apply Array_sort_sorted_id.
  - intros Hne. destruct patterns as [|p ps]; [done|].
    unfold Modifiers.union. rewrite union_outer_loop.
    cbn [createPatternWithBounds Pattern.duration].
    destruct (longestDuration_spec (p :: ps) (Q2Qc 0)) as (H1 & H2 & H3).
    eexists. split; [done|]. split; [done|]. split; done.
Qed.

Lemma filter_all {A} (P : A → Prop) `{!∀ x, Decision (P x)} (l : list A) :
  Forall P l → filter P l = l.
Proof.
  induction 1 as [|x l Hx _ IH]; [done|]. by rewrite filter_cons_True, IH.
Qed.

Lemma trimNote_twice d b b' x :
  startsInside d x → trimNote d b' (trimNote d b x) = trimNote d (b || b') x.
Proof.
  intros [H0 Hd]. destruct b; [|done]. cbn [orb]. unfold trimNote at 2 3. cbn [andb].
  destruct (bool_decide (d < x.1 + Note.duration x.2)%Qc) eqn:E.
  - unfold trimNote. cbn [fst snd Note.duration].
    rewrite (bool_decide_eq_false_2 (d < x.1 + (d - x.1))%Qc).
    + by rewrite andb_false_r.
    + intros H. qc_lra.
  - apply bool_decide_eq_false in E. unfold trimNote. rewrite bool_decide_eq_false_2 by done.
    by rewrite andb_false_r.
Qed.

(** X16: trimming twice is trimming once with [trimEnd] set if either
    call sets it: [trim (trim P b) b'] is the same pattern as
    [trim P (b || b')]; in particular [trim] is idempotent for each value
    of [trimEnd]. *)
Theorem trim_twice (pattern : Pattern.t) (b b' : bool) :
  Modifiers.trim (Modifiers.trim pattern b) b' = Modifiers.trim pattern (b || b')
  ∧ Modifiers.trim (Modifiers.trim pattern b) b = Modifiers.trim pattern b.
Proof.
  assert (∀ c c', Modifiers.trim (Modifiers.trim pattern c) c'
                  = Modifiers.trim pattern (c || c')) as H.
  { intros c c'.
    assert (∀ P t, Modifiers.trim P t
                   = createPatternWithBounds (Pattern.notes (Modifiers.trim P t))
                       (Some (effectiveDuration P))) as Hshape by done.
    assert (effectiveDuration (Modifiers.trim pattern c) = effectiveDuration pattern)
      as Hd by done.
    rewrite (Hshape (Modifiers.trim pattern c) c'), (Hshape pattern (c || c')), Hd.
    apply createPatternWithBounds_eq; [|done].
    rewrite (trim_notes (Modifiers.trim pattern c)), Hd, !trim_notes.
    set (d := effectiveDuration pattern).
    rewrite filter_all.
    - rewrite map_map. apply map_ext_in. intros x Hx%list_elem_of_In.
      apply list_elem_of_filter in Hx as [Hx _]. by apply trimNote_twice.
    - apply Forall_forall. intros y Hy. apply list_elem_of_fmap in Hy as (x & -> & Hx).
      apply list_elem_of_filter in Hx as [Hx _]. unfold startsInside in *.
      by rewrite trimNote_start. }
  split; [apply H|]. rewrite H. by destruct b.
Qed.

Lemma Qc_of_Z_0 : Qc_of_Z 0 = Q2Qc 0.
Proof. by apply Qc_is_canon. Qed.

(** X17: [view] only shifts: it keeps every note record, in order (no
    note is dropped or cut, also outside the window); a second [view]
    without end time composes with the first, the start offsets adding
    up, and a view from 0 without end time gives back the notes and the
    effective duration. *)
Theorem view_twice (pattern : Pattern.t) (a b : Fraction + Z)
    (endTime : option (Fraction + Z)) :
  Modifiers.view (Modifiers.view pattern a endTime) b None
  = Modifiers.view pattern (inl (toFraction a + toFraction b)%Qc) endTime
  ∧ map snd (Pattern.notes (Modifiers.view pattern a endTime))
    = map snd (Pattern.notes pattern)
  ∧ Pattern.notes (Modifiers.view pattern (inr 0) None) = Pattern.notes pattern
  ∧ Pattern.duration (Modifiers.view pattern (inr 0) None)
    = Some (effectiveDuration pattern).
Proof.
  split; [|split; [|split]].
  - unfold Modifiers.view at 1 3. apply createPatternWithBounds_eq.
    + cbn [Modifiers.view createPatternWithBounds Pattern.notes toFraction].
      rewrite map_map. apply map_ext. intros [t n]. f_equal. ring.
    + cbn [Modifiers.view createPatternWithBounds Pattern.duration default toFraction].
      unfold id. f_equal. ring.
  - cbn. rewrite map_map. apply map_ext. by intros [t n].
  - cbn. rewrite Qc_of_Z_0. rewrite <- (map_id (Pattern.notes pattern)) at 2.
    apply map_ext. intros [t n]. f_equal. ring.
  - cbn. rewrite Qc_of_Z_0. unfold effectiveDuration. f_equal. ring.
Qed.

Lemma shiftNotes_zero l : shiftNotes (Q2Qc 0) l = l.
Proof.
  unfold shiftNotes. rewrite <- (map_id l) at 2. apply map_ext. intros [t n]. f_equal. ring.
Qed.

Lemma shiftNotes_shiftNotes s t l : shiftNotes s (shiftNotes t l) = shiftNotes (s + t) l.
Proof.
  unfold shiftNotes. rewrite map_map. apply map_ext. intros [u n]. f_equal. ring.
Qed.

Lemma shiftNotes_concatFrom s t ps :
  shiftNotes s (concatFrom t ps) = concatFrom (s + t) ps.
Proof.
  revert t. induction ps as [|p ps IH]; intros t; [done|].
  cbn [concatFrom]. unfold shiftNotes at 1. rewrite map_app.
  fold (shiftNotes s (shiftNotes t (Pattern.notes p))).
  fold (shiftNotes s (concatFrom (t + effectiveDuration p) ps)).
  rewrite shiftNotes_shiftNotes, IH. do 2 f_equal. ring.
Qed.

Lemma totalDuration_app xs ys :
  totalDuration (xs ++ ys) = (totalDuration xs + totalDuration ys)%Qc.
Proof.
  induction xs as [|x xs IH]; cbn [app].
  - change (totalDuration []) with (Q2Qc 0). ring.
  - change (totalDuration (x :: xs ++ ys))
      with (effectiveDuration x + totalDuration (xs ++ ys))%Qc.
    change (totalDuration (x :: xs)) with (effectiveDuration x + totalDuration xs)%Qc.
    rewrite IH. ring.
Qed.

Lemma concatFrom_app t xs ys :
  concatFrom t (xs ++ ys) = concatFrom t xs ++ concatFrom (t + totalDuration xs) ys.
Proof.
  revert t. induction xs as [|x xs IH]; intros t; cbn [app concatFrom].
  - change (totalDuration []) with (Q2Qc 0). cbn [app]. f_equal. ring.
  - rewrite IH, <- app_assoc. do 3 f_equal.
    change (totalDuration (x :: xs)) with (effectiveDuration x + totalDuration xs)%Qc.
    ring.
Qed.

Lemma concat_shape p ps :
  Modifiers.concat (p :: ps)
  = createPatternWithBounds (concatFrom (Q2Qc 0) (p :: ps)) (Some (totalDuration (p :: ps))).
Proof.
  unfold Modifiers.concat. rewrite concat_outer_loop.
  apply createPatternWithBounds_eq; [done|]. f_equal. ring.
Qed.

(** X18: [concat] is associative: a concatenation used as an input of
    [concat] gives the same pattern as its own inputs put in its place,
    [concat (zs ++ concat (x :: xs) :: ys) = concat (zs ++ x :: xs ++ ys)];
    so [concat [concat [A; B]; C]] and [concat [A; concat [B; C]]] are
    both [concat [A; B; C]]. *)
Theorem concat_flattens (zs : list Pattern.t) (x : Pattern.t) (xs ys : list Pattern.t) :
  Modifiers.concat (zs ++ Modifiers.concat (x :: xs) :: ys)
  = Modifiers.concat (zs ++ (x :: xs) ++ ys)
  ∧ ∀ A B C, Modifiers.concat [Modifiers.concat [A; B]; C] = Modifiers.concat [A; B; C]
             ∧ Modifiers.concat [A; Modifiers.concat [B; C]] = Modifiers.concat [A; B; C].
Proof.
  assert (∀ zs x xs ys,
            Modifiers.concat (zs ++ Modifiers.concat (x :: xs) :: ys)
            = Modifiers.concat (zs ++ (x :: xs) ++ ys)) as H.
  { clear. intros zs x xs ys.
    assert (effectiveDuration (Modifiers.concat (x :: xs)) = totalDuration (x :: xs)) as Hd.
    { unfold effectiveDuration. by rewrite concat_duration. }
    assert (∀ l l', l ≠ [] → l' ≠ [] →
              concatFrom (Q2Qc 0) l = concatFrom (Q2Qc 0) l' →
              totalDuration l = totalDuration l' →
              Modifiers.concat l = Modifiers.concat l') as Heq.
    { intros [|p l] [|p' l'] ? ? E1 E2; try done. rewrite !concat_shape.
      by apply createPatternWithBounds_eq; [|f_equal]. }
    apply Heq.
    - by destruct zs.
    - by destruct zs.
    - rewrite !concatFrom_app. f_equal.
      change (concatFrom (Q2Qc 0 + totalDuration zs) (Modifiers.concat (x :: xs) :: ys))
        with (shiftNotes (Q2Qc 0 + totalDuration zs)
                (Pattern.notes (Modifiers.concat (x :: xs)))
              ++ concatFrom (Q2Qc 0 + totalDuration zs
                             + effectiveDuration (Modifiers.concat (x :: xs))) ys).
      rewrite concat_notes, shiftNotes_concatFrom, Hd. f_equal. f_equal. ring.
    - rewrite !totalDuration_app. f_equal.
      change (totalDuration (Modifiers.concat (x :: xs) :: ys))
        with (effectiveDuration (Modifiers.concat (x :: xs)) + totalDuration ys)%Qc.
      by rewrite Hd. }
  split; [apply H|]. intros A B C. split.
  - apply (H [] A [B] [C]).
  - apply (H [A] B [C] []).
Qed.

(** X19: [reverse] keeps the notes inside the pattern: when every note
    starts at 0 or later and ends by the effective duration, so does
    every note of the output; the output has the note records (pitch,
    velocity, note duration) of the input, and the same effective
    duration. *)
Theorem reverse_stays_in_window (pattern : Pattern.t) :
  (∀ x, x ∈ Pattern.notes pattern → insideWindow (effectiveDuration pattern) x) →
  (∀ x, x ∈ Pattern.notes (Modifiers.reverse pattern) →
        insideWindow (effectiveDuration pattern) x)
  ∧ map snd (Pattern.notes (Modifiers.reverse pattern)) ≡ₚ map snd (Pattern.notes pattern)
  ∧ effectiveDuration (Modifiers.reverse pattern) = effectiveDuration pattern.
Proof.
  intros Hin. rewrite reverse_notes. split; [|split].
  - intros x Hx. rewrite Array_sort_perm in Hx.
    apply list_elem_of_fmap in Hx as (y & -> & Hy).
    destruct (Hin y Hy) as [H0 Hd]. unfold insideWindow, mirror. cbn [fst snd].
    split; qc_lra.
  - rewrite Array_sort_perm, map_map. done.
  - unfold effectiveDuration. by rewrite reverse_duration.
Qed.

Lemma reverse_stays_in_window_witness :
  Forall (insideWindow (effectiveDuration twoNotes))
         (Pattern.notes (Modifiers.reverse twoNotes)).
Proof.
  apply Forall_forall. refine (proj1 (reverse_stays_in_window twoNotes _)).
  intros x Hx. vm_compute in Hx.
  repeat (apply elem_of_cons in Hx as [->|Hx]); [by vm_compute..|].
  by apply elem_of_nil in Hx.
Defined.
(** * The modifier registry *)

Lemma registry_lookup_named (l : list ModifierDefinition.t)
    (registry : gmap string ModifierDefinition.t) :
  (∀ t m, registry !! t = Some m → ModifierDefinition.name m = t) →
  ∀ t m, foldl (fun registry def => registerModifier def registry) registry l !! t = Some m →
         ModifierDefinition.name m = t.
Proof.
  revert registry. induction l as [|d l IH]; intros registry Hr t m H; cbn [foldl] in H.
  { by apply Hr. }
  apply (IH (registerModifier d registry)); [|done].
  intros t' m' H'. unfold registerModifier in H'.
  destruct (decide (ModifierDefinition.name d = t')) as [<-|Hne].
  - rewrite lookup_insert_eq in H'. by injection H' as <-.
  - rewrite lookup_insert_ne in H' by done. by apply Hr.
Qed.

Lemma getModifier_of_registered m :
  m ∈ registeredModifiers → getModifier (ModifierDefinition.name m) = Some m.
Proof.
  intros H. each_registered H;
    unfold getModifier, modifierRegistry, registeredModifiers; cbn [foldl];
    unfold registerModifier;
    repeat (rewrite lookup_insert_ne by (by vm_compute));
    apply lookup_insert_eq.
Qed.

(** X20: the registry finds a modifier exactly under its own name:
    [getModifier name] returns [m] if and only if [m] is one of the
    thirteen registered definitions and [name] is its name (no
    registration has replaced another), and it returns undefined for
    every other name; [hasModifier] agrees with it. *)
Theorem getModifier_finds_registered (name : string) :
  (∀ m, getModifier name = Some m
        ↔ m ∈ registeredModifiers ∧ ModifierDefinition.name m = name)
  ∧ (getModifier name = None ↔ name ∉ (ModifierDefinition.name <$> registeredModifiers))
  ∧ (hasModifier name = true ↔ name ∈ (ModifierDefinition.name <$> registeredModifiers)).
Proof.
  assert (∀ m, getModifier name = Some m
               ↔ m ∈ registeredModifiers ∧ ModifierDefinition.name m = name) as H.
  { intros m. split.
    - intros H. split; [by eapply getModifier_registered|].
      unfold getModifier, modifierRegistry in H.
      eapply registry_lookup_named; [|exact H]. intros t m'. by rewrite lookup_empty.
    - intros [Hm <-]. by apply getModifier_of_registered. }
  assert (is_Some (getModifier name)
          ↔ name ∈ (ModifierDefinition.name <$> registeredModifiers)) as Hs.
  { split.
    - intros [m Hm]. apply H in Hm as [Hm <-]. by apply list_elem_of_fmap_2.
    - intros (m & -> & Hm)%list_elem_of_fmap. exists m. by apply H. }
  split; [exact H|]. split.
  - rewrite <- Hs. rewrite eq_None_not_Some. done.
  - unfold hasModifier. rewrite bool_decide_eq_true. exact Hs.
Qed.

Lemma inputs_keyword_pattern inputs :
  inputsMeetRequirements [patternInput] inputs = true →
  ∃ p, keywordPattern inputs = Returned p.
Proof.
  unfold keywordPattern, patternInput. cbn [inputsMeetRequirements].
  destruct (ModifierInputs.keyword inputs) as [keyword|]; [|done].
  destruct (keyword !! "pattern"%string) as [p|]; [|done]. by eexists.
Qed.

Lemma inputs_positional_patterns inputs :
  inputsMeetRequirements [PositionalInput 2 (Some "Patterns"%string)] inputs = true →
  ∃ ps, positionalPatterns inputs = Returned ps.
Proof.
  unfold positionalPatterns. cbn [inputsMeetRequirements].
  destruct (ModifierInputs.positional inputs) as [ps|]; [by eexists|done].
Qed.

(** X21: the default parameters of every registered modifier are accepted
    by its transform: on inputs that meet the modifier's input
    requirements, [execute] with [getDefaultParams] returns a pattern; it
    neither throws nor returns null (in particular the default grid of
    [quantize] is not zero). *)
Theorem default_params_are_accepted (m : ModifierDefinition.t) (inputs : ModifierInputs.t) :
  m ∈ registeredModifiers →
  inputsMeetRequirements (ModifierDefinition.inputs m) inputs = true →
  ∃ pattern,
    ModifierDefinition.execute m inputs (getDefaultParams m) = Returned (Some pattern).
Proof.
  intros Hm Hin. each_registered Hm;
    cbn [ModifierDefinition.inputs unionModifier concatModifier transposeModifier
         reverseModifier stretchModifier trimModifier quantizeModifier invertModifier
         scaleVelocityModifier setVelocityModifier scaleDurationModifier
         setDurationModifier viewModifier] in Hin;
    first [ apply inputs_keyword_pattern in Hin as [p Hp]
          | apply inputs_positional_patterns in Hin as [ps Hp] ];
    cbn [ModifierDefinition.execute unionModifier concatModifier transposeModifier
         reverseModifier stretchModifier trimModifier quantizeModifier invertModifier
         scaleVelocityModifier setVelocityModifier scaleDurationModifier
         setDurationModifier viewModifier];
    rewrite Hp; cbn [Exec_bind]; try (by eexists).
  - (* quantize *)
    change (fractionParam _ "grid") with (Returned (inl (Q2Qc (1 # 4)) : Fraction + Z)).
    cbn [Exec_bind].
    destruct (quantize_spec p (inl (Q2Qc (1 # 4)))) as [(Hz & _)|(_ & E)].
    + by vm_compute in Hz.
    + rewrite E. cbn [Exec_bind]. by eexists.
Qed.

Lemma default_params_are_accepted_witness :
  ∃ pattern,
    ModifierDefinition.execute reverseModifier
      (ModifierInputs.mk (Some {[ "pattern"%string := twoNotes ]}) None)
      (getDefaultParams reverseModifier) = Returned (Some pattern).
Proof.
  apply (default_params_are_accepted reverseModifier).
  - unfold registeredModifiers. do 3 apply list_elem_of_further. apply list_elem_of_here.
  - reflexivity.
Defined.
(** * The cache of the evaluator *)

Lemma grownFrom_refl graph cache : grownFrom graph cache cache.
Proof. split; [done|]. intros k Hk. by left. Qed.

Lemma grownFrom_trans graph c1 c2 c3 :
  grownFrom graph c1 c2 → grownFrom graph c2 c3 → grownFrom graph c1 c3.
Proof.
  intros [H1 H2] [H3 H4]. split; [by etrans|].
  intros k Hk. destruct (H4 k Hk) as [H|H]; [by apply H2|by right].
Qed.

Lemma Eval_map_grows {A B} (R : Cache → Cache → Prop) (f : A → Eval B) l :
  (∀ c, R c c) → (∀ c1 c2 c3, R c1 c2 → R c2 c3 → R c1 c3) →
  (∀ x c v c', f x c = Some (v, c') → R c c') →
  ∀ c vs c', Eval_map f l c = Some (vs, c') → R c c'.
Proof.
  intros Hrefl Htrans Hf. induction l as [|x l IH]; intros c vs c' H.
  { injection H as <- <-. apply Hrefl. }
  cbn [Eval_map] in H. unfold Eval_bind in H.
  destruct (f x c) as [[v c1]|] eqn:E1; [|done].
  destruct (Eval_map f l c1) as [[vs' c2]|] eqn:E2; [|done].
  injection H as <- <-. eapply Htrans; [by eapply Hf|by eapply IH].
Qed.

Lemma getModifierInputs_loop_grows (R : Cache → Cache → Prop) evaluate_rec graph incoming defs :
  (∀ c, R c c) → (∀ c1 c2 c3, R c1 c2 → R c2 c3 → R c1 c3) →
  (∀ k c v c', evaluate_rec graph k c = Some (v, c') → R c c') →
  ∀ result c inputs c',
    getModifierInputs_loop evaluate_rec graph incoming defs result c = Some (inputs, c') →
    R c c'.
Proof.
  intros Hrefl Htrans Hrec.
  induction defs as [|[key label required|minCount label] rest IH]; intros result c inputs c' H;
    cbn [getModifierInputs_loop] in H.
  - injection H as <- <-. apply Hrefl.
  - destruct (keywordEdge incoming key) as [edge|]; [|by eapply IH].
    unfold Eval_bind in H.
    destruct (evaluate_rec graph (Edge.source edge) c) as [[v c1]|] eqn:E; [|done].
    eapply Htrans; [by eapply Hrec|]. destruct v; by eapply IH.
  - unfold Eval_bind in H.
    destruct (Eval_map _ _ c) as [[vs c1]|] eqn:E; [|done].
    eapply Htrans; [|by eapply IH].
    eapply (Eval_map_grows R); [done..| |exact E]. intros e c0 v c0'. apply Hrec.
Qed.

Lemma evaluate_grows fuel graph nodeId cache v cache' :
  evaluate fuel graph nodeId cache = Some (v, cache') → grownFrom graph cache cache'.
Proof.
  revert nodeId cache v cache'. induction fuel as [|fuel IH]; intros nodeId cache v cache' H;
    [done|].
  cbn [evaluate] in H. unfold evaluate_body in H.
  destruct (findNode graph nodeId) as [node|] eqn:En.
  2: { injection H as <- <-. apply grownFrom_refl. }
  destruct (cache !! nodeId) as [cached|] eqn:Ec.
  { injection H as <- <-. apply grownFrom_refl. }
  destruct (evaluateNode (evaluate fuel) graph node cache) as [[pattern c1]|] eqn:Ee; [|done].
  injection H as <- <-.
  assert (grownFrom graph cache c1) as [H1 H2].
  { unfold evaluateNode, evaluateModifier in Ee.
    destruct (Node.data node) as [p name|modifierType params count name].
    { injection Ee as <- <-. apply grownFrom_refl. }
    destruct (getModifier modifierType) as [modifier|].
    2: { injection Ee as <- <-. apply grownFrom_refl. }
    unfold Eval_bind, getModifierInputs in Ee.
    destruct (getModifierInputs_loop _ _ _ _ _ cache) as [[inputs c2]|] eqn:El; [|done].
    assert (c1 = c2) as -> by (destruct (inputsMeetRequirements _ _); by injection Ee).
    eapply (getModifierInputs_loop_grows (grownFrom graph)); [| | |exact El].
    - apply grownFrom_refl.
    - apply grownFrom_trans.
    - intros k c v c'. apply IH. }
  split.
  - by apply insert_subseteq_r.
  - intros k Hk. destruct (decide (k = nodeId)) as [->|Hne].
    + right. by rewrite En.
    + rewrite lookup_insert_ne in Hk by done. by apply H2.
Qed.

(** X22: [evaluate] only adds to the cache: whenever it returns, every
    entry the cache held before is still there with the same value
    (nothing is evicted or overwritten), and every entry that is new
    belongs to a node of the graph; an unknown node id returns null and
    leaves the cache as it is. *)
Theorem evaluate_only_adds (fuel : nat) (graph : PatternFlowGraph) (nodeId : string)
    (cache : Cache) (result : option Pattern.t) (cache' : Cache) :
  evaluate fuel graph nodeId cache = Some (result, cache') →
  (∀ k cached, cache !! k = Some cached → cache' !! k = Some cached)
  ∧ (∀ k, is_Some (cache' !! k) → is_Some (cache !! k) ∨ is_Some (findNode graph k))
  ∧ (findNode graph nodeId = None → result = None ∧ cache' = cache).
Proof.
  intros H. destruct (evaluate_grows _ _ _ _ _ _ H) as [H1 H2].
  split; [|split; [exact H2|]].
  - intros k cached Hk. by eapply lookup_weaken.
  - intros Hn. destruct fuel as [|fuel]; [done|].
    cbn [evaluate] in H. unfold evaluate_body in H. rewrite Hn in H.
    by injection H as <- <-.
Qed.

Lemma evaluate_only_adds_witness :
  ∃ result cache',
    evaluate 3 exampleGraph "C" {[ "N"%string := None ]} = Some (result, cache')
    ∧ cache' !! "N"%string = Some None.
Proof.
  destruct (evaluate 3 exampleGraph "C" {[ "N"%string := None ]}) as [[result cache']|] eqn:E.
  - exists result, cache'. split; [done|].
    by apply (proj1 (evaluate_only_adds 3 exampleGraph "C" _ result cache' E)).
  - by vm_compute in E.
Defined.

Lemma evaluatesTo_value graph rank nodeId v :
  ranked graph rank →
  evaluatesTo graph nodeId v
  ↔ ∀ F, (rank nodeId < F)%nat → value F graph ∅ nodeId = Some v.
Proof.
  intros Hr. split.
  - intros (fuel & c' & H).
    exact (proj1 (evaluate_value graph rank ∅ Hr fuel nodeId ∅ v c' (extends_refl _ _ _) H)).
  - intros Hv.
    destruct (evaluate_terminates graph rank Hr (S (rank nodeId)) nodeId ∅) as [[v' c'] E];
      [lia|].
    pose proof (proj1 (evaluate_value graph rank ∅ Hr _ _ _ _ _ (extends_refl _ _ _) E)
                  (S (rank nodeId))) as Hv'.
    specialize (Hv' ltac:(lia)). rewrite Hv in Hv' by lia. injection Hv' as ->.
    by exists (S (rank nodeId)), c'.
Qed.

Lemma evaluatesTo_unique graph rank nodeId v v' :
  ranked graph rank → evaluatesTo graph nodeId v → evaluatesTo graph nodeId v' → v = v'.
Proof.
  intros Hr H H'.
  pose proof (proj1 (evaluatesTo_value graph rank nodeId v Hr) H (S (rank nodeId))) as E.
  pose proof (proj1 (evaluatesTo_value graph rank nodeId v' Hr) H' (S (rank nodeId))) as E'.
  rewrite E in E' by lia. specialize (E' ltac:(lia)). by injection E'.
Qed.

Lemma coherent_extends graph rank cache :
  ranked graph rank → coherent graph cache ↔ extends graph rank ∅ cache.
Proof.
  intros Hr. split.
  - intros Hc. split; [apply map_empty_subseteq|].
    intros nodeId cached _ Hk. apply (evaluatesTo_value graph rank); [done|]. by apply Hc.
  - intros [_ He] nodeId cached Hk. apply (evaluatesTo_value graph rank); [done|].
    by apply He.
Qed.

Lemma evaluate_coherent graph rank fuel nodeId cache v cache' :
  ranked graph rank → coherent graph cache →
  evaluate fuel graph nodeId cache = Some (v, cache') →
  evaluatesTo graph nodeId v ∧ coherent graph cache'.
Proof.
  intros Hr Hc H. apply (coherent_extends graph rank) in Hc; [|done].
  destruct (evaluate_value graph rank ∅ Hr fuel nodeId cache v cache' Hc H) as [Hv He].
  split.
  - by apply (evaluatesTo_value graph rank).
  - by apply (coherent_extends graph rank).
Qed.

(** X23: on a graph without cycles the cache is transparent: when every
    cache entry is the result of a cold evaluation of its node (as it is
    for the empty cache), [evaluate] returns what a cold evaluation of the
    node returns, and the cache it leaves has the same property; so any
    sequence of evaluations that starts from an empty cache returns the
    results of cold evaluations. *)
Theorem evaluate_warm_is_cold (graph : PatternFlowGraph) (rank : string → nat)
    (fuel : nat) (nodeId : string) (cache : Cache) (result : option Pattern.t)
    (cache' : Cache) :
  ranked graph rank →
  coherent graph cache →
  evaluate fuel graph nodeId cache = Some (result, cache') →
  evaluatesTo graph nodeId result
  ∧ (∀ cold, evaluatesTo graph nodeId cold → cold = result)
  ∧ coherent graph cache'.
Proof.
  intros Hr Hc H. destruct (evaluate_coherent _ _ _ _ _ _ _ Hr Hc H) as [Hv Hc'].
  split; [done|]. split; [|done]. intros cold Hcold. by eapply evaluatesTo_unique.
Qed.

Lemma coherent_empty graph : coherent graph ∅.
Proof. intros k v Hk. by rewrite lookup_empty in Hk. Qed.

Lemma evaluate_warm_is_cold_witness :
  ∃ result cache',
    evaluate 3 exampleGraph "C" ∅ = Some (result, cache')
    ∧ evaluatesTo exampleGraph "C" result.
Proof.
  destruct (evaluate 3 exampleGraph "C" ∅) as [[result cache']|] eqn:E.
  - exists result, cache'. split; [done|].
    exact (proj1 (evaluate_warm_is_cold exampleGraph exampleRank 3 "C" ∅ result cache'
                    exampleGraph_ranked (coherent_empty _) E)).
  - by vm_compute in E.
Defined.

Lemma invalidateNode_lookup graph nodeId cache fuel :
  (length (edges graph) < fuel)%nat →
  ∃ cache',
    invalidateNode fuel graph nodeId cache = Some cache'
    ∧ (∀ k, downstreamOrSelf graph nodeId k → cache' !! k = None)
    ∧ (∀ k, ¬ downstreamOrSelf graph nodeId k → cache' !! k = cache !! k).
Proof.
  intros Hfuel. unfold invalidateNode, getDownstreamNodes.
  destruct (getDownstreamNodes_loop_correct graph nodeId fuel ∅ [nodeId] ∅)
    as (result & -> & Hres).
  - repeat split; try set_solver.
  - assert (length (pendingEdges graph ∅) ≤ length (edges graph))%nat by apply length_filter.
    simpl. lia.
  - eexists. split; [done|]. split; intros k Hk; rewrite delete_all_lookup.
    + apply Hres in Hk as [->|Hk].
      * case_decide; [done|]. apply lookup_delete_eq.
      * rewrite decide_True; [done|]. by apply elem_of_elements.
    + assert (k ≠ nodeId ∧ k ∉ result) as [Hne Hnot].
      { split; intros H; apply Hk, Hres; auto. }
      rewrite decide_False by (by rewrite elem_of_elements).
      by apply lookup_delete_ne.
Qed.

Lemma value_agreeAway graph graph' nodeId :
  agreeAway graph graph' nodeId →
  ∀ fuel k, ¬ downstreamOrSelf graph nodeId k →
            value fuel graph' ∅ k = value fuel graph ∅ k.
Proof.
  intros Hag. induction fuel as [|fuel IH]; intros k Hk; [done|].
  cbn [value]. unfold value_body. destruct (Hag k Hk) as [Hfind Hinc].
  rewrite Hfind. destruct (findNode graph k) as [node|] eqn:En; [|done].
  rewrite lookup_empty. unfold valueNode.
  destruct (Node.data node) as [p name|modifierType params count name]; [done|].
  destruct (getModifier modifierType) as [modifier|]; [|done].
  apply findNode_id in En.
  assert (incomingEdgesOf graph' node = incomingEdgesOf graph node) as ->.
  { unfold incomingEdgesOf. rewrite En. exact Hinc. }
  rewrite (valueInputs_loop_ext (value fuel graph' ∅) (value fuel graph ∅)); [done|].
  intros e He. apply IH. intros Hs. apply Hk.
  apply incomingEdgesOf_spec in He as [He Ht]. rewrite En in Ht.
  eapply rtc_r; [exact Hs|]. by exists e.
Qed.

(** X24: invalidation makes the cache safe for a changed graph. Let the
    graph change only at [nodeId] and downstream of it (the node's data
    or parameters change, or edges into it are added or removed), both
    graphs being free of cycles, and let [invalidateNode] be called for
    [nodeId] with a graph that has the edges of the old graph (the store
    passes the graph before an edge change, and the graph after a change
    of node data). If every cache entry was the result of a cold
    evaluation on the old graph, then every entry left is the result of
    a cold evaluation on the new graph, and so is whatever [evaluate]
    returns on the new graph from that cache. *)
Theorem invalidateNode_restores_coherence (graph passed graph' : PatternFlowGraph)
    (rank rank' : string → nat) (nodeId : string) (cache cache1 : Cache) (fuel : nat) :
  ranked graph rank →
  ranked graph' rank' →
  edges passed = edges graph →
  agreeAway graph graph' nodeId →
  coherent graph cache →
  (length (edges passed) < fuel)%nat →
  invalidateNode fuel passed nodeId cache = Some cache1 →
  coherent graph' cache1
  ∧ ∀ fuel' k result cache2,
      evaluate fuel' graph' k cache1 = Some (result, cache2) →
      evaluatesTo graph' k result ∧ coherent graph' cache2.
Proof.
  intros Hr Hr' Hedges Hag Hc Hfuel Hinv.
  assert (coherent graph' cache1) as Hc1.
  { destruct (invalidateNode_lookup passed nodeId cache fuel Hfuel) as (c & Hc' & Hdown & Hkeep).
    rewrite Hinv in Hc'. injection Hc' as <-.
    assert (∀ k, downstreamOrSelf passed nodeId k ↔ downstreamOrSelf graph nodeId k) as Hsame.
    { intros k. destruct passed as [ns1 E1], graph as [ns2 E2]. cbn in Hedges. by subst E1. }
    intros k v Hk.
    assert (¬ downstreamOrSelf graph nodeId k) as Hnd.
    { intros Hd. apply Hsame in Hd. by rewrite (Hdown k Hd) in Hk. }
    rewrite Hkeep in Hk by (by rewrite Hsame).
    apply (evaluatesTo_value graph' rank'); [done|]. intros F HF.
    pose proof (proj1 (evaluatesTo_value graph rank k v Hr) (Hc k v Hk)) as Hv.
    destruct (value_total graph' rank' Hr' F ∅ k HF) as [v' Hv'].
    rewrite Hv'. f_equal.
    pose proof (value_mono F (F + S (rank k)) graph' ∅ k v' ltac:(lia) Hv') as Hbig.
    rewrite (value_agreeAway graph graph' nodeId Hag) in Hbig by done.
    rewrite Hv in Hbig by lia. by injection Hbig. }
  split; [exact Hc1|]. intros fuel' k result cache2 He.
  by eapply evaluate_coherent.
Qed.

Lemma editedGraph_agreeAway : agreeAway exampleGraph editedGraph "B".
Proof.
  intros k Hk. assert (k ≠ "B"%string) as Hne by (intros ->; apply Hk, rtc_refl).
  split; [|done]. unfold findNode. cbn [nodes editedGraph exampleGraph List.find Node.id].
  repeat case_bool_decide; congruence.
Qed.

Lemma invalidateNode_restores_coherence_witness :
  ∃ result cache cache1,
    evaluate 3 exampleGraph "C" ∅ = Some (result, cache)
    ∧ invalidateNode 5 editedGraph "B" cache = Some cache1
    ∧ coherent editedGraph cache1.
Proof.
  destruct (evaluate 3 exampleGraph "C" ∅) as [[result cache]|] eqn:E;
    [|by vm_compute in E].
  destruct (invalidateNode_lookup editedGraph "B" cache 5) as (cache1 & Hinv & _);
    [cbn; lia|].
  exists result, cache, cache1. split; [done|]. split; [done|].
  refine (proj1 (invalidateNode_restores_coherence exampleGraph editedGraph editedGraph
                   exampleRank exampleRank "B" cache cache1 5
                   exampleGraph_ranked exampleGraph_ranked eq_refl
                   editedGraph_agreeAway _ _ Hinv)).
  - exact (proj2 (evaluate_coherent exampleGraph exampleRank 3 "C" ∅ result cache
                    exampleGraph_ranked (coherent_empty _) E)).
  - cbn. lia.
Defined.

Lemma findNode_is_Some graph k :
  is_Some (findNode graph k) ↔ ∃ node, node ∈ nodes graph ∧ Node.id node = k.
Proof.
  unfold findNode. split.
  - intros [node H]. apply find_some in H as [Hin Hid]. apply bool_decide_eq_true in Hid.
    exists node. split; [by apply list_elem_of_In|done].
  - intros (node & Hin & Hid).
    destruct (List.find _ (nodes graph)) eqn:E; [by eexists|].
    apply list_elem_of_In in Hin.
    pose proof (find_none _ _ E node Hin) as Hf. cbn in Hf.
    by apply bool_decide_eq_false in Hf.
Qed.

Lemma collectPatterns_spec graph rank fuel :
  ranked graph rank →
  ∀ ns patterns cache,
    (∀ node, node ∈ ns → (rank (Node.id node) < fuel)%nat) →
    coherent graph cache →
    (∀ k p, patterns !! k = Some p → listedPattern graph k p) →
    ∃ patterns' cache',
      collectPatterns fuel graph ns patterns cache = Some (patterns', cache')
      ∧ coherent graph cache'
      ∧ grownFrom graph cache cache'
      ∧ (∀ k p, patterns' !! k = Some p →
                listedPattern graph k p
                ∧ (patterns !! k = Some p ∨ ∃ node, node ∈ ns ∧ Node.id node = k))
      ∧ (∀ k p, patterns !! k = Some p → patterns' !! k = Some p)
      ∧ (∀ node p, node ∈ ns → listedPattern graph (Node.id node) p →
                   patterns' !! Node.id node = Some p).
Proof.
  intros Hr. induction ns as [|node rest IH]; intros patterns cache Hfuel Hc Hinv.
  { exists patterns, cache. split; [done|]. split; [done|]. split; [apply grownFrom_refl|].
    split; [|split; [done|]].
    - intros k p H. split; [by apply Hinv|by left].
    - intros n p Hn. by apply elem_of_nil in Hn. }
  cbn [collectPatterns]. unfold Eval_bind.
  destruct (evaluate_terminates graph rank Hr fuel (Node.id node) cache) as [[v c1] E].
  { apply Hfuel, list_elem_of_here. }
  rewrite E. destruct (evaluate_coherent _ _ _ _ _ _ _ Hr Hc E) as [Hv Hc1].
  pose proof (evaluate_grows _ _ _ _ _ _ E) as Hg1.
  assert (∀ n, n ∈ rest → (rank (Node.id n) < fuel)%nat) as Hfuel'.
  { intros n Hn. by apply Hfuel, list_elem_of_further. }
  set (patterns1 := match v with
                    | Some p => if bool_decide (0 < Z.of_nat (length (Pattern.notes p)))
                                then <[Node.id node := p]> patterns else patterns
                    | None => patterns
                    end).
  assert ((∀ k p, patterns1 !! k = Some p →
                  listedPattern graph k p ∧ (patterns !! k = Some p ∨ Node.id node = k))
          ∧ (∀ k p, patterns !! k = Some p → patterns1 !! k = Some p)
          ∧ (∀ p, listedPattern graph (Node.id node) p →
                  patterns1 !! Node.id node = Some p)) as (A1 & A2 & A3).
  { subst patterns1. destruct v as [q|].
    - destruct (bool_decide (0 < Z.of_nat (length (Pattern.notes q)))) eqn:Eb.
      + apply bool_decide_eq_true in Eb.
        assert (listedPattern graph (Node.id node) q) as Hq.
        { split; [done|]. intros Hq. rewrite Hq in Eb. cbn in Eb. lia. }
        split; [|split].
        * intros k p. destruct (decide (k = Node.id node)) as [->|Hne].
          -- rewrite lookup_insert_eq. intros [= <-]. split; [done|by right].
          -- rewrite lookup_insert_ne by done. intros H. split; [by apply Hinv|by left].
        * intros k p H. destruct (decide (k = Node.id node)) as [->|Hne].
          -- rewrite lookup_insert_eq. f_equal. apply Hinv in H as [H _].
             assert (Some q = Some p) as [= ->] by (by eapply evaluatesTo_unique). done.
          -- by rewrite lookup_insert_ne by done.
        * intros p [Hp _]. rewrite lookup_insert_eq. by eapply evaluatesTo_unique.
      + apply bool_decide_eq_false in Eb. split; [|split; [done|]].
        * intros k p H. split; [by apply Hinv|by left].
        * intros p [Hp Hn]. exfalso.
          assert (Some q = Some p) as [= ->] by (by eapply evaluatesTo_unique).
          destruct (Pattern.notes p); [done|]. cbn in Eb. lia.
    - split; [|split; [done|]].
      + intros k p H. split; [by apply Hinv|by left].
      + intros p [Hp _]. exfalso.
        assert (None = Some p) by (by eapply evaluatesTo_unique). done. }
  destruct (IH patterns1 c1 Hfuel' Hc1) as (patterns' & cache' & Hrun & Hc' & Hg' & B1 & B2 & B3).
  { intros k p H. by apply A1. }
  exists patterns', cache'. split.
  { subst patterns1. destruct v as [p|]; [|done]. by destruct (bool_decide _). }
  split; [done|]. split; [by eapply grownFrom_trans|]. split; [|split].
  - intros k p H. destruct (B1 k p H) as [HL [H1|(n & Hn & Hid)]].
    + split; [done|]. destruct (A1 k p H1) as [_ [H0|H0]]; [by left|].
      right. exists node. split; [apply list_elem_of_here|done].
    + split; [done|]. right. exists n. split; [by apply list_elem_of_further|done].
  - intros k p H. by apply B2, A2.
  - intros n p [->|Hn]%elem_of_cons HL; [by apply B2, A3|by apply B3].
Qed.

(** X25: on a graph without cycles, with a budget above the rank of every
    node and a cache whose entries are results of cold evaluations,
    [getAllPatterns] and [getLeafPatterns] return: [getAllPatterns] maps
    exactly the ids of the nodes whose cold evaluation is a pattern with
    at least one note to that pattern (nodes that evaluate to null or to
    a pattern without notes are left out), and [getLeafPatterns] is its
    restriction to the nodes that are the source of no edge. *)
Theorem getAllPatterns_lists_patterns (graph : PatternFlowGraph) (rank : string → nat)
    (fuel : nat) (cache : Cache) :
  ranked graph rank →
  (∀ node, node ∈ nodes graph → (rank (Node.id node) < fuel)%nat) →
  coherent graph cache →
  ∃ all cache1 leaves cache2,
    getAllPatterns fuel graph cache = Some (all, cache1)
    ∧ getLeafPatterns fuel graph cache = Some (leaves, cache2)
    ∧ (∀ k p, all !! k = Some p
              ↔ is_Some (findNode graph k) ∧ evaluatesTo graph k (Some p)
                ∧ Pattern.notes p ≠ [])
    ∧ (∀ k p, leaves !! k = Some p
              ↔ all !! k = Some p ∧ ∀ e, e ∈ edges graph → Edge.source e ≠ k)
    ∧ coherent graph cache1 ∧ coherent graph cache2.
Proof.
  intros Hr Hfuel Hc.
  destruct (collectPatterns_spec graph rank fuel Hr (nodes graph) ∅ cache Hfuel Hc)
    as (all & cache1 & Hall & Hc1 & _ & A1 & _ & A3).
  { intros k p H. by rewrite lookup_empty in H. }
  set (leafNodes := filter (fun n => Node.id n ∉ (list_to_set (Edge.source <$> edges graph)
                                                   : gset string)) (nodes graph)).
  destruct (collectPatterns_spec graph rank fuel Hr leafNodes ∅ cache) as
    (leaves & cache2 & Hleaves & Hc2 & _ & L1 & _ & L3); [|done|..].
  { intros n Hn. apply list_elem_of_filter in Hn as [_ Hn]. by apply Hfuel. }
  { intros k p H. by rewrite lookup_empty in H. }
  exists all, cache1, leaves, cache2. split; [exact Hall|]. split; [exact Hleaves|].
  assert (∀ k p, all !! k = Some p
                 ↔ is_Some (findNode graph k) ∧ evaluatesTo graph k (Some p)
                   ∧ Pattern.notes p ≠ []) as Hchar.
  { intros k p. rewrite findNode_is_Some. split.
    - intros H. destruct (A1 k p H) as [[He Hn] [H0|H0]]; [by rewrite lookup_empty in H0|].
      done.
    - intros ((n & Hn & <-) & He & Hp). by apply A3. }
  split; [exact Hchar|]. split; [|done].
  intros k p. split.
  - intros H. destruct (L1 k p H) as [[He Hp] [H0|(n & Hn & <-)]];
      [by rewrite lookup_empty in H0|].
    apply list_elem_of_filter in Hn as [Hleaf Hn]. split.
    + by apply A3.
    + intros e He' Hs. apply Hleaf. rewrite elem_of_list_to_set, <- Hs.
      by apply list_elem_of_fmap_2.
  - intros [H Hleaf]. apply Hchar in H as (Hf & He & Hp).
    apply findNode_is_Some in Hf as (n & Hn & <-). apply L3; [|done].
    apply list_elem_of_filter. split; [|done].
    rewrite elem_of_list_to_set. intros (e & Hs & He')%list_elem_of_fmap.
    by apply (Hleaf e).
Qed.

Lemma getAllPatterns_lists_patterns_witness :
  ∃ all cache1 leaves cache2,
    getAllPatterns 3 exampleGraph ∅ = Some (all, cache1)
    ∧ getLeafPatterns 3 exampleGraph ∅ = Some (leaves, cache2)
    ∧ (∀ k p, leaves !! k = Some p
              ↔ all !! k = Some p ∧ ∀ e, e ∈ edges exampleGraph → Edge.source e ≠ k).
Proof.
  destruct (getAllPatterns_lists_patterns exampleGraph exampleRank 3 ∅ exampleGraph_ranked)
    as (all & cache1 & leaves & cache2 & H1 & H2 & _ & H4 & _).
  - intros node Hn. cbn in Hn.
    repeat (apply elem_of_cons in Hn as [->|Hn]); [by vm_compute; lia..|].
    by apply elem_of_nil in Hn.
  - apply coherent_empty.
  - by exists all, cache1, leaves, cache2.
Defined.

(** ** Acyclic graphs have a rank *)

Lemma edgeTo_more_edges ns E E' a b :
  E ⊆ E' →
  edgeTo {| nodes := ns; edges := E |} a b → edgeTo {| nodes := ns; edges := E' |} a b.
Proof. intros Hsub (e & He & Hs & Ht). exists e. split; [by apply Hsub|done]. Qed.

Lemma ranked_acyclic graph rank : ranked graph rank → acyclic graph.
Proof.
  intros Hr x Hx.
  assert (∀ a b, tc (edgeTo graph) a b → (rank a < rank b)%nat) as Hlt.
  { intros a b H. induction H as [a b (e & He & <- & <-)|a b c (e & He & <- & <-) _ IH].
    - by apply Hr.
    - specialize (Hr e He). lia. }
  specialize (Hlt x x Hx). lia.
Qed.

Lemma acyclic_edges_ranked ns E :
  acyclic {| nodes := ns; edges := E |} → ∃ rank, ranked {| nodes := ns; edges := E |} rank.
Proof.
  induction E as [|e E IH]; intros Hac.
  { exists (fun _ => 0%nat). intros e He. by apply elem_of_nil in He. }
  set (G' := {| nodes := ns; edges := E |}).
  set (G := {| nodes := ns; edges := e :: E |}).
  assert (∀ a b, edgeTo G' a b → edgeTo G a b) as Hsub.
  { intros a b. apply edgeTo_more_edges. set_solver. }
  destruct IH as [rank' Hr'].
  { intros x Hx. apply (Hac x).
    by apply (tc_congruence (fun k : string => k) (edgeTo G) x x Hsub). }
  destruct (getDownstreamNodes_loop_correct G' (Edge.target e) (S (length E)) ∅
              [Edge.target e] ∅) as (below & _ & Hbelow).
  { repeat split; try set_solver. }
  { assert (length (pendingEdges G' ∅) ≤ length E)%nat by apply length_filter.
    simpl. lia. }
  set (lift := S (rank' (Edge.source e))).
  exists (fun k => if decide (k = Edge.target e ∨ k ∈ below)
                   then (rank' k + lift)%nat else rank' k).
  intros e0 He0. simpl in He0. apply elem_of_cons in He0 as [->|He0].
  - rewrite (decide_True (P := Edge.target e = Edge.target e ∨ _)) by (by left).
    rewrite decide_False; [unfold lift; lia|].
    intros Hs. apply Hbelow in Hs. apply (Hac (Edge.source e)).
    eapply tc_rtc_r; [apply tc_once; exists e; split; [by left|done]|].
    eapply rtc_subrel; [|exact Hs]. exact Hsub.
  - pose proof (Hr' e0 He0) as Hlt.
    destruct (decide (Edge.source e0 = Edge.target e ∨ Edge.source e0 ∈ below)) as [Hs|Hs].
    + rewrite decide_True; [lia|]. apply Hbelow. apply Hbelow in Hs.
      eapply rtc_r; [exact Hs|]. by exists e0.
    + case_decide; lia.
Qed.

Lemma acyclic_ranked graph : acyclic graph → ∃ rank, ranked graph rank.
Proof. destruct graph as [ns E]. apply acyclic_edges_ranked. Qed.

Lemma detectCycles_null_acyclic graph fuel :
  edgesFromNodes graph →
  (length (nodes graph) + length (edges graph) ≤ fuel)%nat →
  detectCycles fuel graph = Some None → acyclic graph.
Proof.
  intros Hwf Hfuel Hnull. unfold detectCycles in Hnull.
  assert (size (allIds graph) ≤ fuel)%nat as Hsize by (etrans; [apply size_allIds|done]).
  assert (∀ node, node ∈ nodes graph → Node.id node ∈ allIds graph) as Hids.
  { intros node Hn. unfold allIds.
    rewrite elem_of_list_to_set, elem_of_app, list_elem_of_fmap. left. eauto. }
  assert (finishedAcyclic graph (DfsState.mk ∅ ∅ [])) as Hfa.
  { split; intros x; unfold finished; simpl; set_solver. }
  destruct (detectCycles_loop_spec graph fuel (nodes graph) (DfsState.mk ∅ ∅ [])
              Hsize Hids eq_refl eq_refl Hfa) as (result & Heq & Hres).
  assert (Some None = Some result) as [= <-] by exact (eq_trans (eq_sym Hnull) Heq).
  destruct Hres as (st' & _ & Hall & Hst & Hcl & Hac).
  intros x Hx. apply (Hac x); [|done].
  pose proof (tc_first _ _ _ Hx) as (y & (e & He & Hsrc & Ht) & Hrtc).
  destruct (Hwf e He) as (node & Hn & Hid).
  apply elem_of_finished. rewrite Hst. split; [|set_solver].
  rewrite <- Hsrc, <- Hid. by apply Hall.
Qed.

(** X26: [detectCycles] is an adequate guard for [evaluate]: on a graph
    whose edges all start at nodes of the graph, when [detectCycles]
    returns null, [evaluate] returns (its recursion ends) for every node
    id and every cache. *)
Theorem detectCycles_null_evaluate_returns (graph : PatternFlowGraph) (fuel : nat) :
  edgesFromNodes graph →
  (length (nodes graph) + length (edges graph) ≤ fuel)%nat →
  detectCycles fuel graph = Some None →
  ∀ nodeId cache, ∃ budget result cache',
    evaluate budget graph nodeId cache = Some (result, cache').
Proof.
  intros Hwf Hfuel Hnull.
  pose proof (detectCycles_null_acyclic graph fuel Hwf Hfuel Hnull) as Hac.
  destruct (acyclic_ranked graph Hac) as [rank Hr]. intros nodeId cache.
  destruct (evaluate_terminates graph rank Hr (S (rank nodeId)) nodeId cache)
    as [[result cache'] E]; [lia|].
  by exists (S (rank nodeId)), result, cache'.
Qed.

Lemma exampleGraph_edgesFromNodes : edgesFromNodes exampleGraph.
Proof.
  intros e He. cbn in He.
  repeat (apply elem_of_cons in He as [->|He]); [..|by apply elem_of_nil in He];
    cbn [Edge.source].
  - eexists. split; [apply list_elem_of_here|done].
  - eexists. split; [apply list_elem_of_here|done].
  - eexists. split; [do 2 apply list_elem_of_further; apply list_elem_of_here|done].
  - eexists. split; [apply list_elem_of_further, list_elem_of_here|done].
Qed.

Lemma detectCycles_null_evaluate_returns_witness :
  ∃ budget result cache', evaluate budget exampleGraph "C" ∅ = Some (result, cache').
Proof.
  refine (detectCycles_null_evaluate_returns exampleGraph 8
            exampleGraph_edgesFromNodes _ _ "C" ∅).
  - cbn. lia.
  - by vm_compute.
Defined.
(** * MIDI messages *)

Lemma lor_status_channel status channel :
  status ∈ [0x80; 0x90; 0xb0; 0xc0] →
  Z.lor status (Z.land channel 0x0f) = status + channel `mod` 16.
Proof.
  intros Hs. change 0x0f with (Z.ones 4). rewrite Z.land_ones by lia.
  change (2 ^ 4) with 16.
  pose proof (Z.mod_pos_bound channel 16 ltac:(lia)) as Hb.
  set (c := channel `mod` 16) in *.
  assert (c ∈ seqZ 0 16) as Hc by (apply elem_of_seqZ; lia).
  clearbody c. cbn in Hc.
  repeat (apply elem_of_cons in Hs as [->|Hs]); [..|by apply elem_of_nil in Hs];
    repeat (apply elem_of_cons in Hc as [->|Hc]); try reflexivity; by apply elem_of_nil in Hc.
Qed.

Lemma land_data x : Z.land x 0x7f = x `mod` 128.
Proof. change 0x7f with (Z.ones 7). by rewrite Z.land_ones by lia. Qed.

(** X27: the channel messages are well formed for every integer
    argument: the status byte is the message kind plus the channel
    reduced modulo 16 and each data byte is the argument reduced modulo
    128 (reduced, not clamped: note 128 is sent as note 0), so every
    status byte has its high bit set and every data byte lies in 0..127;
    arguments in range are sent unchanged. Without a selected output
    nothing is sent. *)
Theorem midi_messages_are_well_formed (channel a b : Z) (timestamp : option Z)
    (sent : MIDIOutput) :
  sendNoteOn channel a b timestamp (Some sent)
  = Some (sent ++ [([0x90 + channel `mod` 16; a `mod` 128; b `mod` 128], timestamp)])
  ∧ sendNoteOff channel a b timestamp (Some sent)
    = Some (sent ++ [([0x80 + channel `mod` 16; a `mod` 128; b `mod` 128], timestamp)])
  ∧ sendControlChange channel a b timestamp (Some sent)
    = Some (sent ++ [([0xb0 + channel `mod` 16; a `mod` 128; b `mod` 128], timestamp)])
  ∧ sendProgramChange channel a timestamp (Some sent)
    = Some (sent ++ [([0xc0 + channel `mod` 16; a `mod` 128], timestamp)])
  ∧ (0 ≤ channel `mod` 16 ≤ 15 ∧ 0 ≤ a `mod` 128 ≤ 127 ∧ 0 ≤ b `mod` 128 ≤ 127)
  ∧ (0 ≤ channel ≤ 15 → channel `mod` 16 = channel)
  ∧ (0 ≤ a ≤ 127 → a `mod` 128 = a)
  ∧ sendNoteOn channel a b timestamp None = None
  ∧ sendNoteOff channel a b timestamp None = None
  ∧ sendControlChange channel a b timestamp None = None
  ∧ sendProgramChange channel a timestamp None = None.
Proof.
  unfold sendNoteOn, sendNoteOff, sendControlChange, sendProgramChange, send.
  rewrite !land_data, !lor_status_channel by set_solver.
  repeat split; try done.
  all: try (apply Z.mod_pos_bound; lia).
  all: try (pose proof (Z.mod_pos_bound channel 16 ltac:(lia)); lia).
  all: try (pose proof (Z.mod_pos_bound a 128 ltac:(lia)); lia).
  all: try (pose proof (Z.mod_pos_bound b 128 ltac:(lia)); lia).
  all: intros; by apply Z.mod_small; lia.
Qed.

Lemma sendNoteOff_in_range channel note sent :
  0 ≤ channel ≤ 15 → 0 ≤ note ≤ 127 →
  sendNoteOff channel note 0 None (Some sent)
  = Some (sent ++ [([0x80 + channel; note; 0], None)]).
Proof.
  intros Hc Hn. unfold sendNoteOff, send.
  rewrite !land_data, lor_status_channel by set_solver.
  by rewrite (Z.mod_small channel 16), (Z.mod_small note 128) by lia.
Qed.

Lemma panic_channel channel sent :
  0 ≤ channel ≤ 15 →
  foldl (fun out note => sendNoteOff channel note 0 None out)
        (allNotesOff channel (Some sent)) (seqZ 0 128)
  = Some (sent ++ panicMessages channel).
Proof.
  intros Hc.
  assert (allNotesOff channel (Some sent) = Some (sent ++ [([0xb0 + channel; 123; 0], None)]))
    as ->.
  { unfold allNotesOff, sendControlChange, send.
    rewrite !land_data, lor_status_channel by set_solver.
    by rewrite (Z.mod_small channel 16) by lia. }
  assert (∀ notes out,
            Forall (fun n => 0 ≤ n ≤ 127) notes →
            foldl (fun out note => sendNoteOff channel note 0 None out) (Some out) notes
            = Some (out ++ map (fun note => ([0x80 + channel; note; 0], None)) notes)) as H.
  { induction notes as [|n notes IH]; intros out Hn; cbn [foldl map].
    - by rewrite app_nil_r.
    - apply Forall_cons in Hn as [Hn Hns].
      rewrite sendNoteOff_in_range, IH, <- app_assoc by done. done. }
  rewrite H.
  - unfold panicMessages. by rewrite <- app_assoc.
  - apply Forall_forall. intros n Hn%elem_of_seqZ. lia.
Qed.

(** X28: with an output selected, [panic] sends, after what was sent
    before, 2064 messages: for each channel 0..15 in turn the controller
    message All Notes Off (controller 123, value 0) followed by a Note
    Off with velocity 0 for each of the notes 0..127 in ascending order,
    all without timestamp; without a selected output it sends nothing. *)
Theorem panic_silences_every_note (sent : MIDIOutput) :
  panic (Some sent) = Some (sent ++ mjoin (panicMessages <$> seqZ 0 16))
  ∧ length (mjoin (panicMessages <$> seqZ 0 16)) = 2064%nat
  ∧ (∀ channel note, 0 ≤ channel ≤ 15 → 0 ≤ note ≤ 127 →
       ([0x80 + channel; note; 0], None) ∈ mjoin (panicMessages <$> seqZ 0 16))
  ∧ panic None = None.
Proof.
  split; [|split; [|split]].
  - unfold panic.
    assert (∀ channels out,
              Forall (fun c => 0 ≤ c ≤ 15) channels →
              foldl (fun out channel =>
                       foldl (fun out note => sendNoteOff channel note 0 None out)
                             (allNotesOff channel out) (seqZ 0 128))
                    (Some out) channels
              = Some (out ++ mjoin (panicMessages <$> channels))) as H.
    { induction channels as [|c channels IH]; intros out Hc; cbn [foldl].
      - cbn. by rewrite app_nil_r.
      - apply Forall_cons in Hc as [Hc Hcs]. rewrite panic_channel by done.
        rewrite IH by done. rewrite fmap_cons. cbn [mjoin list_join].
        by rewrite <- app_assoc. }
    apply H. apply Forall_forall. intros c Hc%elem_of_seqZ. lia.
  - by vm_compute.
  - intros channel note Hc Hn. apply list_elem_of_join.
    exists (panicMessages channel). split.
    + unfold panicMessages. apply list_elem_of_further.
      apply (list_elem_of_fmap_2 (fun note => ([0x80 + channel; note; 0], None : option Z))).
      apply elem_of_seqZ. lia.
    + apply list_elem_of_fmap_2. apply elem_of_seqZ. lia.
  - unfold panic. by vm_compute.
Qed.
(** * The timeline renderer *)

Lemma buildCanvas_spec graph rank fuel channelMuted channelSolo :
  ranked graph rank →
  ∀ items canvas cache,
    (∀ item, item ∈ items → (rank (TimelineItem.nodeId item) < fuel)%nat) →
    coherent graph cache →
    ∃ added cache',
      buildCanvas fuel graph channelMuted channelSolo items canvas cache
      = Some (canvas ++ added, cache')
      ∧ coherent graph cache'
      ∧ (∀ entry, entry ∈ added
                  ↔ ∃ item, item ∈ items
                            ∧ canvasEntryOf graph channelMuted channelSolo item entry).
Proof.
  intros Hr. induction items as [|item rest IH]; intros canvas cache Hfuel Hc.
  { exists [], cache. rewrite app_nil_r. split; [done|]. split; [done|].
    intros entry. split; [by intros H%elem_of_nil|].
    intros (item & Hi & _). by apply elem_of_nil in Hi. }
  assert (∀ i, i ∈ rest → (rank (TimelineItem.nodeId i) < fuel)%nat) as Hfuel'.
  { intros i Hi. by apply Hfuel, list_elem_of_further. }
  cbn [buildCanvas].
  destruct (isChannelActive channelMuted channelSolo (TimelineItem.channel item)) eqn:Ea;
    cbn [negb].
  2: { destruct (IH canvas cache Hfuel' Hc) as (added & cache' & Hrun & Hc' & Hres).
       exists added, cache'. split; [done|]. split; [done|]. intros entry. rewrite Hres.
       split.
       - intros (i & Hi & He). exists i. split; [by apply list_elem_of_further|done].
       - intros (i & [->|Hi]%elem_of_cons & He); [|by exists i].
         destruct He as [He _]. congruence. }
  unfold Eval_bind.
  destruct (evaluate_terminates graph rank Hr fuel (TimelineItem.nodeId item) cache)
    as [[v c1] E]; [apply Hfuel, list_elem_of_here|].
  rewrite E. destruct (evaluate_coherent _ _ _ _ _ _ _ Hr Hc E) as [Hv Hc1].
  destruct v as [p|].
  - destruct (IH (canvas ++ [(TimelineItem.time item, TimelineItem.channel item, p)]) c1
                Hfuel' Hc1) as (added & cache' & Hrun & Hc' & Hres).
    exists ((TimelineItem.time item, TimelineItem.channel item, p) :: added), cache'.
    split; [by rewrite Hrun, <- app_assoc|]. split; [done|].
    intros entry. rewrite elem_of_cons, Hres. split.
    + intros [->|(i & Hi & He)].
      * exists item. split; [apply list_elem_of_here|]. by split.
      * exists i. split; [by apply list_elem_of_further|done].
    + intros (i & [->|Hi]%elem_of_cons & He); [|right; by exists i].
      left. destruct He as (_ & He & Ht). destruct entry as [[t c] q]. cbn in He, Ht.
      assert (Some p = Some q) as [= ->] by (by eapply evaluatesTo_unique).
      by injection Ht as -> ->.
  - destruct (IH canvas c1 Hfuel' Hc1) as (added & cache' & Hrun & Hc' & Hres).
    exists added, cache'. split; [done|]. split; [done|]. intros entry. rewrite Hres.
    split.
    + intros (i & Hi & He). exists i. split; [by apply list_elem_of_further|done].
    + intros (i & [->|Hi]%elem_of_cons & He); [|by exists i].
      destruct He as (_ & He & _).
      assert (None = Some entry.2) by (by eapply evaluatesTo_unique). done.
Qed.

Lemma calculateEndTime_spec graph rank fuel :
  ranked graph rank →
  ∀ items maxTime cache,
    (∀ item, item ∈ items → (rank (TimelineItem.nodeId item) < fuel)%nat) →
    coherent graph cache →
    ∃ maxTime' cache',
      calculateEndTime fuel graph items maxTime cache = Some (maxTime', cache')
      ∧ coherent graph cache'.
Proof.
  intros Hr. induction items as [|item rest IH]; intros maxTime cache Hfuel Hc.
  { by exists maxTime, cache. }
  assert (∀ i, i ∈ rest → (rank (TimelineItem.nodeId i) < fuel)%nat) as Hfuel'.
  { intros i Hi. by apply Hfuel, list_elem_of_further. }
  cbn [calculateEndTime]. unfold Eval_bind.
  destruct (evaluate_terminates graph rank Hr fuel (TimelineItem.nodeId item) cache)
    as [[v c1] E]; [apply Hfuel, list_elem_of_here|].
  rewrite E. destruct (evaluate_coherent _ _ _ _ _ _ _ Hr Hc E) as [Hv Hc1].
  destruct v as [p|]; by apply IH.
Qed.

Lemma buildDefaultPrograms_lookup channelPrograms channel :
  buildDefaultPrograms channelPrograms !! channel
  = if decide (0 ≤ channel ≤ 15) then Some (default 0 (arrayAt channelPrograms channel))
    else None.
Proof.
  unfold buildDefaultPrograms.
  assert (∀ channels (m : gmap Z Z),
            foldl (fun defaultPrograms c =>
                     <[c := default 0 (arrayAt channelPrograms c)]> defaultPrograms)
                  m channels !! channel
            = if decide (channel ∈ channels)
              then Some (default 0 (arrayAt channelPrograms channel))
              else m !! channel) as H.
  { induction channels as [|c channels IH]; intros m; cbn [foldl].
    - by rewrite decide_False by apply not_elem_of_nil.
    - rewrite IH. destruct (decide (channel ∈ channels)) as [Hin|Hnin].
      + by rewrite decide_True by (by apply list_elem_of_further).
      + destruct (decide (channel = c)) as [->|Hne].
        * rewrite lookup_insert_eq. by rewrite decide_True by apply list_elem_of_here.
        * rewrite lookup_insert_ne by done.
          rewrite decide_False; [done|]. intros [?|?]%elem_of_cons; done. }
  rewrite H, lookup_empty.
  destruct (decide (0 ≤ channel ≤ 15)) as [Hc|Hc].
  - rewrite decide_True; [done|]. apply elem_of_seqZ. lia.
  - rewrite decide_False; [done|]. intros Hin%elem_of_seqZ. lia.
Qed.

Lemma StronglySorted_weaken {A} (R R' : A → A → Prop) l :
  (∀ a b, R a b → R' a b) → StronglySorted R l → StronglySorted R' l.
Proof.
  intros HR. induction 1 as [|x l Hl IH Hx]; constructor; [done|].
  eapply Forall_impl; [exact Hx|]. intros y. apply HR.
Qed.

(** X29: on a graph without cycles, with a budget above the rank of the
    node of every item and a cache whose entries are results of cold
    evaluations, [renderTimelineToMIDI] returns; its canvas is sorted
    ascending by time and holds exactly the entries (time, channel,
    pattern) of the items on active channels whose node evaluates to a
    pattern (items on inactive channels and items whose node evaluates
    to null are left out); a channel is active when it is solo if any
    channel is solo, and when it is not muted otherwise; the default
    programs map each channel 0..15 to its entry of [channelPrograms],
    or 0 when there is none, playback starts at 0 and has no end time. *)
Theorem renderTimelineToMIDI_canvas (graph : PatternFlowGraph) (rank : string → nat)
    (fuel : nat) (items : list TimelineItem.t) (channelPrograms : list Z)
    (channelMuted channelSolo : list bool) (tempo ppq : option Z) (cache : Cache) :
  ranked graph rank →
  (∀ item, item ∈ items → (rank (TimelineItem.nodeId item) < fuel)%nat) →
  coherent graph cache →
  ∃ timeline config cache',
    renderTimelineToMIDI fuel items graph channelPrograms channelMuted channelSolo tempo ppq
      cache = Some ((timeline, config), cache')
    ∧ StronglySorted (fun a b => (a.1.1 ≤ b.1.1)%Qc) (Timeline.canvas timeline)
    ∧ (∀ entry, entry ∈ Timeline.canvas timeline
                ↔ ∃ item, item ∈ items
                          ∧ canvasEntryOf graph channelMuted channelSolo item entry)
    ∧ (∀ channel, 0 ≤ channel ≤ 15 →
         PlaybackConfig.defaultPrograms config !! channel
         = Some (default 0 (arrayAt channelPrograms channel)))
    ∧ PlaybackConfig.startTime config = Q2Qc 0
    ∧ PlaybackConfig.endTime config = None
    ∧ coherent graph cache'.
Proof.
  intros Hr Hfuel Hc. unfold renderTimelineToMIDI, Eval_bind.
  destruct (buildCanvas_spec graph rank fuel channelMuted channelSolo Hr items [] cache
              Hfuel Hc) as (canvas & c1 & -> & Hc1 & Hres).
  destruct (calculateEndTime_spec graph rank fuel Hr items (Q2Qc 0) c1 Hfuel Hc1)
    as (maxTime & c2 & -> & Hc2).
  eexists _, _, _. split; [done|]. cbn [Timeline.canvas PlaybackConfig.defaultPrograms
    PlaybackConfig.startTime PlaybackConfig.endTime app].
  split; [|split; [|split; [|done]]].
  - eapply StronglySorted_weaken;
      [|apply (Array_sort_sorted_on byCanvasTime (fun _ => True))].
    + intros a b H. by apply compare_gt_false.
    + intros x y _ _ H. apply compare_gt_true in H. apply compare_gt_false.
      by apply Qclt_le_weak.
    + intros x y z _ _ _ H1 H2. apply compare_gt_false in H1, H2. apply compare_gt_false.
      by eapply Qcle_trans.
    + by apply Forall_forall.
  - intros entry. rewrite Array_sort_perm. apply Hres.
  - intros channel Hch. rewrite buildDefaultPrograms_lookup. by rewrite decide_True.
Qed.

Lemma renderTimelineToMIDI_canvas_witness :
  ∃ timeline config cache',
    renderTimelineToMIDI 3 exampleItems exampleGraph [] [] [] None None ∅
    = Some ((timeline, config), cache')
    ∧ StronglySorted (fun a b => (a.1.1 ≤ b.1.1)%Qc) (Timeline.canvas timeline).
Proof.
  destruct (renderTimelineToMIDI_canvas exampleGraph exampleRank 3 exampleItems [] [] []
              None None ∅ exampleGraph_ranked) as (timeline & config & cache' & H1 & H2 & _).
  - intros item Hi. unfold exampleItems in Hi.
    repeat (apply elem_of_cons in Hi as [->|Hi]); [by vm_compute; lia..|].
    by apply elem_of_nil in Hi.
  - apply coherent_empty.
  - by exists timeline, config, cache'.
Defined.
(** * Project files *)

Lemma Number_of_bigint_safe b : Z.abs b < 2 ^ 53 → Number_of_bigint b = Some b.
Proof.
  intros H. unfold Number_of_bigint.
  assert (Z.log2 (Z.abs b) - 52 ≤ 0) as He.
  { destruct (decide (Z.abs b = 0)) as [->|Hne]; [done|].
    assert (Z.log2 (Z.abs b) < 53); [|lia]. apply Z.log2_lt_pow2; lia. }
  apply Z.leb_le in He. by rewrite He.
Qed.

Lemma deserialize_serializeFraction f :
  safeFraction f → deserializeFraction (serializeFraction f) = Returned f.
Proof.
  intros [Hn Hd]. unfold deserializeFraction, serializeFraction.
  cbn [SerializedFraction.n SerializedFraction.d].
  rewrite !Number_of_bigint_safe.
  2:{ unfold Fraction_d in *. lia. }
  2:{ unfold Fraction_n in *. lia. }
  cbn [fmap option_fmap option_map].
  unfold newFraction, Fraction_n, Fraction_s, Fraction_d.
  rewrite decide_False by done. f_equal. apply Qc_is_canon.
  unfold Q2Qc. cbn [this]. rewrite Qred_correct.
  destruct f as [[n d] Hc]. cbn [this Qnum Qden].
  change (Z.sgn (Z.pos d)) with 1. change (Z.to_pos (Z.abs (Z.pos d))) with d.
  unfold Qeq. cbn [Qnum Qden]. destruct (n <? 0) eqn:E.
  - apply Z.ltb_lt in E. lia.
  - apply Z.ltb_ge in E. lia.
Qed.

(** X30: saving and loading keeps the patterns whose fractions have
    numerator and denominator below [2 ^ 53]: such a pattern written by
    [serializePattern] is read back by [deserializePattern] without a
    throw, with the same notes (start times and note durations with
    their signs, pitches, velocities), duration, id and name, and
    without its cached bounds; such a fraction and a timeline item at
    such a time come back unchanged. Beyond [2 ^ 53] the numbers of the
    file are rounded: the fraction [2 ^ 53 + 1] is read back as
    [2 ^ 53]. Reading a fraction whose stored numbers are integers or
    infinities throws exactly when the denominator is 0 or one of the
    numbers is not finite. *)
Theorem project_file_round_trip :
  (∀ f, safeFraction f → deserializeFraction (serializeFraction f) = Returned f)
  ∧ (∀ pattern,
       safePattern pattern →
       deserializePattern (serializePattern pattern)
       = Returned (Pattern.mk (Pattern.notes pattern) (Pattern.duration pattern)
                     (Pattern.id pattern) (Pattern.name pattern) None))
  ∧ (∀ item,
       safeFraction (TimelineItem.time item) →
       deserializeTimelineItem (serializeTimelineItem item) = Returned item)
  ∧ deserializeFraction (serializeFraction (Q2Qc (inject_Z (2 ^ 53 + 1))))
    = Returned (Q2Qc (inject_Z (2 ^ 53)))
  ∧ (∀ f, deserializeFraction f = Thrown
          ↔ SerializedFraction.d f = Some 0
            ∨ SerializedFraction.n f = None ∨ SerializedFraction.d f = None).
Proof.
  split; [apply deserialize_serializeFraction|]. split; [|split; [|split]].
  - intros pattern [Hnotes Hdur]. unfold deserializePattern, serializePattern.
    cbn [SerializedPattern.notes SerializedPattern.duration SerializedPattern.id
         SerializedPattern.name].
    assert (∀ l, Forall (fun x => safeFraction x.1 ∧ safeFraction (Note.duration x.2)) l →
                 Exec_map (fun '(time, note) =>
                   Exec_bind (deserializeFraction time) (fun time' =>
                   Exec_bind (deserializeNote note) (fun note' => Returned (time', note'))))
                   (map (fun '(time, note) => (serializeFraction time, serializeNote note)) l)
                 = Returned l) as Hmap.
    { induction l as [|[t [d p v]] l IH]; [done|]. intros [[Ht Hd] Hl]%Forall_cons.
      cbn [map]. rewrite Exec_map_cons, IH by done.
      unfold deserializeNote, serializeNote.
      cbn [SerializedNote.duration SerializedNote.note SerializedNote.velocity
           Note.duration Note.note Note.velocity fst snd] in *.
      by rewrite !deserialize_serializeFraction. }
    rewrite Hmap by done. cbn [Exec_bind]. destruct (Pattern.duration pattern) as [d|]; cbn; [|done].
    by rewrite deserialize_serializeFraction by by apply Hdur.
  - intros [id time channel nodeId] Ht. unfold deserializeTimelineItem, serializeTimelineItem.
    cbn in *. by rewrite deserialize_serializeFraction.
  - unfold deserializeFraction, serializeFraction. vm_compute. reflexivity.
  - intros [[n|] [d|]]; unfold deserializeFraction, newFraction; cbn.
    + destruct (decide (d = 0)) as [->|Hne]; split; try done.
      * intros _. by left.
      * intros [[= ->]|[?|?]]; done.
    + split; [intros _; by right; right|done].
    + split; [intros _; right; by left|done].
    + split; [intros _; right; by left|done].
Qed.

(** * The evaluator: caching and failures *)

(** ** The part of the graph upstream of a node *)

Lemma upstream_closed graph rank nodeId e :
  upstreamRanked graph rank nodeId →
  e ∈ edges graph → downstreamOrSelf graph (Edge.target e) nodeId →
  downstreamOrSelf graph (Edge.source e) nodeId
  ∧ (rank (Edge.source e) < rank (Edge.target e))%nat.
Proof.
  intros Hr He HP. split; [|by apply Hr].
  eapply rtc_l; [|exact HP]. by exists e.
Qed.

Lemma ranked_upstreamRanked graph rank nodeId : ranked graph rank → upstreamRanked graph rank nodeId.
Proof. intros Hr e He _. by apply Hr. Qed.




(** ** Caching *)

(** C3: for a node of the graph that has no cache entry, [evaluate]
    computes the node ([evaluateNode], with the recursive calls for the
    upstream nodes), stores that result (a pattern or null) in the cache
    under the node id and returns it; it does return when the graph has
    no cycle upstream of the node and the budget of nested calls covers
    the depth, the result being the value of the node, and for a pattern
    source the result is the pattern of the node. Whenever [evaluate]
    returns, the cache it leaves holds the result under the node id and a
    second call answers from the cache. When the cache holds an entry for
    the node id (a pattern or null), [evaluate] returns that entry and the
    cache as it was, whatever the recursive evaluation would do: neither
    the node nor an upstream node is evaluated. *)
Theorem evaluate_caches (graph : PatternFlowGraph) (nodeId : string) (node : Node.t)
    (cache : Cache) :
  findNode graph nodeId = Some node →
  (∀ rank fuel,
     upstreamRanked graph rank nodeId → (rank nodeId ≤ fuel)%nat → cache !! nodeId = None →
     ∃ result cache1,
       evaluateNode (evaluate fuel) graph node cache = Some (result, cache1)
       ∧ evaluate (S fuel) graph nodeId cache = Some (result, <[nodeId := result]> cache1)
       ∧ value (S fuel) graph cache nodeId = Some result)
  ∧ (∀ fuel result cache',
       cache !! nodeId = None →
       evaluate (S fuel) graph nodeId cache = Some (result, cache') →
       ∃ cache1,
         evaluateNode (evaluate fuel) graph node cache = Some (result, cache1)
         ∧ cache' = <[nodeId := result]> cache1)
  ∧ (∀ fuel result cache',
       evaluate fuel graph nodeId cache = Some (result, cache') →
       cache' !! nodeId = Some result
       ∧ evaluate fuel graph nodeId cache' = Some (result, cache'))
  ∧ (∀ fuel pattern name,
       Node.data node = PatternNodeData pattern name → cache !! nodeId = None →
       evaluate (S fuel) graph nodeId cache
       = Some (Some pattern, <[nodeId := Some pattern]> cache))
  ∧ (∀ fuel cached,
       cache !! nodeId = Some cached →
       evaluate (S fuel) graph nodeId cache = Some (cached, cache)
       ∧ ∀ evaluate_rec, evaluate_body evaluate_rec graph nodeId cache = Some (cached, cache)).
Proof.
  intros Hnode.
  assert (∀ fuel result cache',
            cache !! nodeId = None →
            evaluate (S fuel) graph nodeId cache = Some (result, cache') →
            ∃ cache1,
              evaluateNode (evaluate fuel) graph node cache = Some (result, cache1)
              ∧ cache' = <[nodeId := result]> cache1) as Hmiss.
  { intros fuel result cache' Hc H. simpl in H. unfold evaluate_body in H.
    rewrite Hnode, Hc in H.
    destruct (evaluateNode _ _ _ _) as [[pattern cache1]|]; [|done].
    injection H as <- <-. by exists cache1. }
  split; [|split; [exact Hmiss|split; [|split]]].
  - intros rank fuel Hr Hfuel Hc.
    pose proof (fun e He HP => upstream_closed graph rank nodeId e Hr He HP) as Hclosed.
    destruct (evaluate_terminates_on graph rank (fun x => downstreamOrSelf graph x nodeId)
                Hclosed (S fuel) nodeId cache) as [[result cache'] H]; [apply rtc_refl|lia|].
    destruct (Hmiss fuel result cache' Hc H) as (cache1 & Hn & ->).
    exists result, cache1. split; [done|]. split; [done|].
    destruct (evaluate_value_on graph rank (fun x => downstreamOrSelf graph x nodeId) Hclosed
                cache _ _ _ _ _ (rtc_refl _ _) (extends_refl _ _ _) H) as [Hv _].
    apply Hv. lia.
  - intros fuel result cache' H. destruct fuel as [|fuel]; [done|].
    assert (cache' !! nodeId = Some result) as Hstored.
    { destruct (cache !! nodeId) as [cached|] eqn:Hc.
      - simpl in H. unfold evaluate_body in H. rewrite Hnode, Hc in H. by simplify_eq.
      - destruct (Hmiss fuel result cache' eq_refl H) as (cache1 & _ & ->).
        apply lookup_insert_eq. }
    split; [done|]. simpl. unfold evaluate_body. by rewrite Hnode, Hstored.
  - intros fuel pattern name Hdata Hc. simpl. unfold evaluate_body, evaluateNode.
    by rewrite Hnode, Hc, Hdata.
  - intros fuel cached Hc.
    assert (∀ evaluate_rec, evaluate_body evaluate_rec graph nodeId cache = Some (cached, cache))
      as H.
    { intros evaluate_rec. unfold evaluate_body. by rewrite Hnode, Hc. }
    split; [apply H|exact H].
Qed.

Lemma evaluate_caches_witness :
  ∃ result cache1,
    evaluateNode (evaluate 2) exampleGraph
      (Node.mk "C" (ModifierNodeData "concat" ∅ (Some 3) "joined")) ∅ = Some (result, cache1)
    ∧ evaluate 3 exampleGraph "C" ∅ = Some (result, <["C"%string := result]> cache1)
    ∧ value 3 exampleGraph ∅ "C" = Some result.
Proof.
  refine (proj1 (evaluate_caches exampleGraph "C"
                   (Node.mk "C" (ModifierNodeData "concat" ∅ (Some 3) "joined")) ∅ _)
            exampleRank 2%nat (ranked_upstreamRanked _ _ _ exampleGraph_ranked) _ _).
  - reflexivity.
  - vm_compute. lia.
  - reflexivity.
Defined.

(** ** When the result is null *)


















(** The quantization on a grid of 0 evaluates to null, and the null is
    cached. *)
Lemma evaluate_zero_grid :
  evaluate 2 zeroGridGraph "Q" ∅
  = Some (None, <["Q"%string := None]> {[ "A"%string := Some twoNotes ]}).
Proof. by vm_compute. Qed.


(** The budget matters on acyclic graphs too: the example graph is three
    nodes deep, and two nested calls do not evaluate its last node. *)
Lemma evaluate_needs_depth :
  evaluate 2 exampleGraph "C" ∅ = None
  ∧ ∃ result cache', evaluate 3 exampleGraph "C" ∅ = Some (result, cache').
Proof.
  split; [by vm_compute|].
  destruct (evaluate_terminates exampleGraph exampleRank exampleGraph_ranked 3 "C" ∅)
    as [[result cache'] H]; [vm_compute; lia|]. by exists result, cache'.
Qed.
